(** * Lifting JAX transformations over scopes

    A shallow embedding of [flax/core/lift.py]: the scope de-duplication
    helpers, the [pack] adapter and the policy layers built on it ([vmap],
    [scan], [custom_vjp], [jit]), together with the properties the
    specification states about them.

    Python dictionaries keep their insertion order and the code depends on it
    (the tuple named by an error, the order of the write-back), so a [dict] is
    an association list updated the way Python updates one.  Scope objects are
    records carrying an allocation number; their mutable part lives in a store
    indexed by that number. *)

From stdpp Require Import gmap strings list.
From Stdlib Require Import ZArith.

Set Default Proof Using "Type".
#[local] Set Warnings "-clear-no-such-hyp,-register-all".

(** ** Python results *)

(** The exceptions [lift.py] raises or lets through.  An f-string message is
    kept as a constructor with the formatted value as its argument. *)
Inductive exn : Type :=
| KeyError (key : nat)
    (* [del minimal_set[leaf]], [mapping[root]]: the scope, by number *)
| AssertionError
| IndexError
| UnmappedOutputVariables (remainder : list string)
    (* ValueError(f'unmapped output variables: {remainder}') *)
| InconsistentBatchAxisSizes (axis_sizes : list nat)
    (* ValueError(f'Inconsistent batch axis sizes: {axis_sizes}') *)
| AxisSizeUnspecified
    (* ValueError('axis_size should be specified manually.') *)
| TraceLevelError (scope : nat)
| InvalidScope (scope : nat)
| ImmutableCollection (col : string)
| TreeStructureError
    (* a pytree that does not have the structure of the prefix tree it is
       flattened up to *)
| UserError (code : nat).

Inductive result (A : Type) : Type :=
| Ok (a : A)
| Raise (e : exn).
Arguments Ok {A} a.
Arguments Raise {A} e.

#[global] Instance result_ret : MRet result := λ A a, Ok a.
#[global] Instance result_bind : MBind result :=
  λ A B k r, match r with Ok a => k a | Raise e => Raise e end.

#[global] Instance exn_eq_dec : EqDecision exn.
Proof. solve_decision. Defined.

(** ** Dictionaries *)

Module Dict.

Abbreviation dict V := (list (string * V)).

Definition keys {V} (d : dict V) : list string := d.*1.

(** [d[k]] *)
Fixpoint get {V} (k : string) (d : dict V) : option V :=
  match d with
  | [] => None
  | (k', v) :: d' => if decide (k = k') then Some v else get k d'
  end.

(** [k in d] *)
Definition mem {V} (k : string) (d : dict V) : bool := bool_decide (k ∈ keys d).

(** [d[k] = v]: an existing key keeps its place, a new one goes last. *)
Fixpoint set {V} (k : string) (v : V) (d : dict V) : dict V :=
  match d with
  | [] => [(k, v)]
  | (k', v') :: d' =>
      if decide (k = k') then (k, v) :: d' else (k', v') :: set k v d'
  end.

(** [del d[k]] for a key that is present (every entry under [k] goes; a
    dictionary has one). *)
Definition del {V} (k : string) (d : dict V) : dict V :=
  List.filter (λ kv, negb (bool_decide (kv.1 = k))) d.

(** [d.update(e)] *)
Definition update {V} (d e : dict V) : dict V :=
  foldl (λ acc kv, set kv.1 kv.2 acc) d e.

Lemma get_set_eq {V} k (v : V) d : get k (set k v d) = Some v.
Proof.
  induction d as [|[k' v'] d IH]; simpl; repeat case_decide; simpl;
    repeat case_decide; congruence.
Qed.

Lemma get_set_ne {V} k k' (v : V) d : k ≠ k' → get k' (set k v d) = get k' d.
Proof.
  intros Hne. induction d as [|[k2 v2] d IH]; simpl;
    repeat (case_decide; simpl); congruence.
Qed.

Lemma get_Some_elem {V} k (v : V) d : get k d = Some v → (k, v) ∈ d.
Proof.
  induction d as [|[k' v'] d IH]; simpl; [done|].
  case_decide; [intros [= ->]; subst; left | right; auto].
Qed.

Lemma get_None {V} k (d : dict V) : get k d = None ↔ k ∉ keys d.
Proof.
  unfold keys. induction d as [|[k' v'] d IH]; simpl.
  - split; [intros _ H; inversion H | done].
  - case_decide; subst.
    + split; [done | intros H; exfalso; apply H; left].
    + rewrite IH, not_elem_of_cons. tauto.
Qed.

Lemma get_is_Some {V} k (d : dict V) : is_Some (get k d) ↔ k ∈ keys d.
Proof.
  destruct (get k d) eqn:E.
  - split; [intros _ | by eauto].
    destruct (decide (k ∈ keys d)) as [|Hn]; [done|].
    apply get_None in Hn. congruence.
  - apply get_None in E. split; [intros [? [=]] | done].
Qed.

Lemma keys_set {V} k (v : V) d :
  keys (set k v d) = if mem k d then keys d else keys d ++ [k].
Proof.
  unfold mem, keys. induction d as [|[k' v'] d IH]; csimpl; [done|].
  destruct (decide (k = k')) as [->|Hne]; csimpl.
  - rewrite bool_decide_eq_true_2 by set_solver. done.
  - rewrite IH. destruct (bool_decide (k ∈ d.*1)) eqn:E.
    + apply bool_decide_eq_true in E.
      rewrite bool_decide_eq_true_2 by set_solver. done.
    + apply bool_decide_eq_false in E.
      rewrite bool_decide_eq_false_2 by set_solver. done.
Qed.

Lemma elem_of_keys_set {V} k k' (v : V) d :
  k' ∈ keys (set k v d) ↔ k' = k ∨ k' ∈ keys d.
Proof. rewrite keys_set. unfold mem. case_bool_decide; set_solver. Qed.

Lemma keys_del {V} k (d : dict V) k' : k' ∈ keys (del k d) ↔ k' ≠ k ∧ k' ∈ keys d.
Proof.
  unfold keys, del. induction d as [|[k2 v2] d IH]; csimpl; [set_solver|].
  case_bool_decide; csimpl in *; subst; set_solver.
Qed.

Lemma get_del_ne {V} k k' (d : dict V) : k' ≠ k → get k' (del k d) = get k' d.
Proof.
  intros Hne. unfold del. induction d as [|[k2 v2] d IH]; simpl; [done|].
  case_bool_decide; simpl in *; subst.
  - rewrite decide_False by done. done.
  - case_decide; [done | apply IH].
Qed.

End Dict.

Import Dict.

(** ** Values, collections and filters *)

(** A pytree, as JAX flattens the values that cross a transformation: arrays
    at the leaves (only the shape is looked at), [None], tuples and
    dictionaries. *)
Inductive PyTree : Type :=
| PArray (shape : list nat) (data : nat)
| PNone
| PTuple (xs : list PyTree)
| PDict (d : list (string * PyTree)).

Abbreviation Value := PyTree.

(** A variable collection: a plain [dict] or a [FrozenDict] of the same
    entries. *)
Inductive Collection : Type :=
| PlainDict (entries : dict Value)
| FrozenDict (entries : dict Value).

Definition items (c : Collection) : dict Value :=
  match c with PlainDict d | FrozenDict d => d end.

(** [isinstance(val, FrozenDict)] *)
Definition is_frozen (c : Collection) : bool :=
  match c with FrozenDict _ => true | PlainDict _ => false end.

Definition freeze (c : Collection) : Collection := FrozenDict (items c).
Definition unfreeze (c : Collection) : Collection := PlainDict (items c).

(** [scope._variables], and each variable group: collection name to
    collection. *)
Abbreviation Variables := (dict Collection).

(** Modelled from the spec: collection filters ([scope.py] is not among the
    sources).  A filter is a boolean literal, one name, a set or sequence of
    names, or the negation of such a set; [in_filter] is its one evaluation
    function. *)
Inductive CollectionFilter : Type :=
| FBool (b : bool)
| FName (name : string)
| FNames (names : list string)
| FExcept (names : list string).

Definition in_filter (f : CollectionFilter) (col : string) : bool :=
  match f with
  | FBool b => b
  | FName n => bool_decide (col = n)
  | FNames ns => bool_decide (col ∈ ns)
  | FExcept ns => bool_decide (col ∉ ns)
  end.

(** A filter as (negated?, names). *)
Definition filter_names (f : CollectionFilter) : bool * list string :=
  match f with
  | FBool b => (b, [])
  | FName n => (false, [n])
  | FNames ns => (false, ns)
  | FExcept ns => (true, ns)
  end.

(** Modelled from the spec: the union and the intersection of two filters
    ([scope.py] is not among the sources): a name passes the union when it
    passes either filter, the intersection when it passes both. *)
Definition union_filters (a b : CollectionFilter) : CollectionFilter :=
  match filter_names a, filter_names b with
  | (false, xs), (false, ys) => FNames (xs ++ ys)
  | (false, xs), (true, ys) => FExcept (list_difference ys xs)
  | (true, xs), (false, ys) => FExcept (list_difference xs ys)
  | (true, xs), (true, ys) => FExcept (list_intersection xs ys)
  end.

Definition intersect_filters (a b : CollectionFilter) : CollectionFilter :=
  match filter_names a, filter_names b with
  | (false, xs), (false, ys) => FNames (list_intersection xs ys)
  | (false, xs), (true, ys) => FNames (list_difference xs ys)
  | (true, xs), (false, ys) => FNames (list_difference ys xs)
  | (true, xs), (true, ys) => FExcept (xs ++ ys)
  end.

(** [any(in_filter(col_filter, col_name) for col_filter in filters)] *)
Definition in_any_filter (filters : list CollectionFilter) (col : string) : bool :=
  existsb (λ f, in_filter f col) filters.

(** Modelled from the spec: [group_collections] ([scope.py] is not among the
    sources) partitions the collections into disjoint groups, one per filter
    and in the filters' order; a collection goes to the first filter that
    accepts its name and one that no filter accepts is in no group.  The
    callers in [lift.py] index the result by filter position and append the
    catch-all [True] themselves. *)
Fixpoint group_collections {V} (xs : dict V) (col_filters : list CollectionFilter)
    : list (dict V) :=
  match col_filters with
  | [] => []
  | f :: fs =>
      List.filter (λ kv, in_filter f kv.1) xs
        :: group_collections (List.filter (λ kv, negb (in_filter f kv.1)) xs) fs
  end.

Lemma in_filter_names f col :
  in_filter f col =
    (if (filter_names f).1 then bool_decide (col ∉ (filter_names f).2)
     else bool_decide (col ∈ (filter_names f).2)).
Proof.
  destruct f as [[]| | |]; simpl; try done.
  apply bool_decide_ext. set_solver.
Qed.

Lemma in_filter_union a b col :
  in_filter (union_filters a b) col = in_filter a col || in_filter b col.
Proof.
  rewrite (in_filter_names a), (in_filter_names b). unfold union_filters.
  destruct (filter_names a) as [[] xs], (filter_names b) as [[] ys]; simpl;
    apply eq_true_iff_eq; rewrite orb_true_iff, !bool_decide_eq_true;
    rewrite ?list_elem_of_intersection, ?list_elem_of_difference, ?elem_of_app;
    destruct (decide (col ∈ xs)), (decide (col ∈ ys)); tauto.
Qed.

Lemma in_filter_intersect a b col :
  in_filter (intersect_filters a b) col = in_filter a col && in_filter b col.
Proof.
  rewrite (in_filter_names a), (in_filter_names b). unfold intersect_filters.
  destruct (filter_names a) as [[] xs], (filter_names b) as [[] ys]; simpl;
    apply eq_true_iff_eq; rewrite andb_true_iff, !bool_decide_eq_true;
    rewrite ?list_elem_of_intersection, ?list_elem_of_difference, ?elem_of_app;
    destruct (decide (col ∈ xs)), (decide (col ∈ ys)); tauto.
Qed.

Lemma in_any_filter_true filters col :
  in_any_filter filters col = true ↔ ∃ f, f ∈ filters ∧ in_filter f col = true.
Proof.
  unfold in_any_filter. rewrite existsb_exists.
  setoid_rewrite <- list_elem_of_In. done.
Qed.

Lemma in_any_filter_app fs gs col :
  in_any_filter (fs ++ gs) col = in_any_filter fs col || in_any_filter gs col.
Proof. apply existsb_app. Qed.

Lemma filter_filter_andb {A} (p q : A → bool) (l : list A) :
  List.filter p (List.filter q l) = List.filter (λ x, q x && p x) l.
Proof.
  induction l as [|x l IH]; simpl; [done|].
  destruct (q x); simpl; [destruct (p x)|]; by rewrite IH.
Qed.

Lemma filter_ext_bool {A} (p q : A → bool) (l : list A) :
  (∀ x, x ∈ l → p x = q x) → List.filter p l = List.filter q l.
Proof.
  intros H. apply List.filter_ext_in. intros x Hx. apply H.
  by apply list_elem_of_In.
Qed.

Lemma elem_of_filter_bool {A} (p : A → bool) (l : list A) x :
  x ∈ List.filter p l ↔ x ∈ l ∧ p x = true.
Proof. rewrite !list_elem_of_In. apply filter_In. Qed.

Lemma length_group_collections {V} (xs : dict V) fs :
  length (group_collections xs fs) = length fs.
Proof. revert xs. induction fs as [|f fs IH]; intros xs; simpl; auto. Qed.

(** The group of the filter at position [i] holds, in the dictionary's order,
    the entries that filter accepts and no earlier filter does. *)
Lemma group_collections_lookup {V} (xs : dict V) fs i f :
  fs !! i = Some f →
  group_collections xs fs !! i =
    Some (List.filter
            (λ kv, negb (in_any_filter (take i fs) kv.1) && in_filter f kv.1) xs).
Proof.
  revert xs i. induction fs as [|g fs IH]; intros xs [|i] Hi; simplify_eq/=.
  - done.
  - rewrite (IH _ _ Hi), filter_filter_andb. f_equal.
    apply filter_ext_bool. intros [k v] _. simpl.
    destruct (in_filter g k); done.
Qed.

Lemma group_collections_app {V} (xs : dict V) fs gs :
  group_collections xs (fs ++ gs) =
    group_collections xs fs ++
    group_collections (List.filter (λ kv, negb (in_any_filter fs kv.1)) xs) gs.
Proof.
  revert xs. induction fs as [|f fs IH]; intros xs; simpl.
  - f_equal. induction xs as [|x xs IHx]; simpl; congruence.
  - rewrite IH, filter_filter_andb. do 3 f_equal.
    apply filter_ext_bool. intros [k v] _. simpl.
    destruct (in_filter f k); done.
Qed.

(** ** The compiled-call lift: static argument positions *)

(** [static_argnums: Union[int, Iterable[int]]] *)
Inductive StaticArgnums : Type :=
| OneArgnum (i : Z)
| Argnums (l : list Z).

(** [jit], lines 589-591: the positions handed to [jax.jit] for [jitted]. *)
Definition jit_static_argnums (static_argnums : StaticArgnums) : list Z :=
  let static_argnums :=
    match static_argnums with
    | OneArgnum i => [i]
    | Argnums l => l
    end in
  (λ i, i + 1)%Z <$> List.filter (λ i, bool_decide (0 < i)%Z) static_argnums.

(** The positional parameters of the payload [fn(scope, *args)] and of the
    function given to [jax.jit], [jitted(variable_groups_xs, rng_groups_xs,
    *args)]. *)
Inductive Param (A : Type) : Type :=
| ScopeParam
| VariableGroupsParam
| RngGroupsParam
| UserParam (a : A).
Arguments ScopeParam {A}.
Arguments VariableGroupsParam {A}.
Arguments RngGroupsParam {A}.
Arguments UserParam {A} a.

Definition fn_params {A} (args : list A) : list (Param A) :=
  ScopeParam :: (UserParam <$> args).

Definition jitted_params {A} (args : list A) : list (Param A) :=
  VariableGroupsParam :: RngGroupsParam :: (UserParam <$> args).

(** ** Re-partitioning one inner scope's collections *)

(** The body of the loop in [repack], lines 142-150, for the [_variables] of
    one inner scope. *)
Definition repack_scope (out_variable_filters : list CollectionFilter)
    (variables : Variables) : result (list Variables) :=
  let mutable_variables :=
    List.filter (λ kv, negb (is_frozen kv.2)) variables in
  let out_variable_groups :=
    group_collections mutable_variables (out_variable_filters ++ [FBool true]) in
  match last out_variable_groups with
  | None => Raise IndexError
  | Some remainder_group =>
      let remainder := keys remainder_group in
      if bool_decide (remainder = []) then Ok (removelast out_variable_groups)
      else Raise (UnmappedOutputVariables remainder)
  end.

(** The names [repack] reports: the collections of [variables] that are not
    frozen and that no output filter accepts, in the dictionary's order. *)
Definition unmapped (out_variable_filters : list CollectionFilter)
    (variables : Variables) : list string :=
  keys (List.filter
          (λ kv, negb (is_frozen kv.2) && negb (in_any_filter out_variable_filters kv.1))
          variables).

Lemma repack_scope_unfold fs vars :
  repack_scope fs vars =
    if bool_decide (unmapped fs vars = [])
    then Ok (group_collections (List.filter (λ kv, negb (is_frozen kv.2)) vars) fs)
    else Raise (UnmappedOutputVariables (unmapped fs vars)).
Proof.
  unfold repack_scope, unmapped. rewrite group_collections_app. simpl.
  rewrite last_snoc, removelast_last, !filter_filter_andb.
  rewrite (filter_ext_bool _
    (λ kv, negb (is_frozen kv.2) && negb (in_any_filter fs kv.1))); [done|].
  intros [k v] _. simpl. by rewrite andb_true_r.
Qed.

(** ** The batched-map lift: the batch size *)

(** A JAX array, as far as [vmap] looks at it. *)
Record Array : Type := MkArray { shape : list nat; array_data : nat }.

(** Dictionary entries in the order of their keys, the order in which JAX
    flattens a dictionary. *)
Fixpoint insert_by_key {V} (kv : string * V) (l : list (string * V)) : list (string * V) :=
  match l with
  | [] => [kv]
  | kv' :: l' =>
      if String.leb kv.1 kv'.1 then kv :: l else kv' :: insert_by_key kv l'
  end.

Definition sort_by_key {V} (l : list (string * V)) : list (string * V) :=
  foldr insert_by_key [] l.

(** [jax.tree_leaves] *)
Fixpoint tree_leaves (x : PyTree) : list Array :=
  match x with
  | PArray sh data => [MkArray sh data]
  | PNone => []
  | PTuple xs => concat (map tree_leaves xs)
  | PDict d =>
      concat (sort_by_key (map (λ kv, (kv.1, tree_leaves kv.2)) d)).*2
  end.

(** A variable group as the pytree JAX sees: a dictionary of dictionaries (a
    [FrozenDict] flattens as the dictionary it wraps). *)
Definition variables_tree (group : Variables) : PyTree :=
  PDict (map (λ kv, (kv.1, PDict (items kv.2))) group).

(** [shape[axis]] for a Python integer [axis]: a negative one counts from the
    end, one out of range raises [IndexError]. *)
Definition shape_at (sh : list nat) (axis : Z) : result nat :=
  let i := if bool_decide (0 ≤ axis)%Z then axis else (Z.of_nat (length sh) + axis)%Z in
  if bool_decide (0 ≤ i)%Z then
    match sh !! Z.to_nat i with
    | Some d => Ok d
    | None => Raise IndexError
    end
  else Raise IndexError.

(** Axis specifications, [in_axes] and the like: a prefix tree whose leaves
    are integers; [None] is a tree without leaves. *)
Inductive AxisTree : Type :=
| AxInt (axis : Z)
| AxNone
| AxTuple (xs : list AxisTree).

Definition axis_leaf (axis : option Z) : AxisTree :=
  match axis with Some a => AxInt a | None => AxNone end.

(** [find_axis_size], lines 309-314; the result [()] is a pytree without
    leaves, here the empty list, and a size is a list of one. *)
Definition find_axis_size (axis : option Z) (x : PyTree) : result (list nat) :=
  match axis with
  | Some axis =>
      match tree_leaves x with
      | leaf :: _ => d ← shape_at (shape leaf) axis; Ok [d]
      | [] => Ok []
      end
  | None => Ok []
  end.

(** [treedef.flatten_up_to]: the subtrees of [x] that stand where the prefix
    tree [axes] has its leaves, each with its leaf. *)
Fixpoint flatten_up_to (axes : AxisTree) (x : PyTree) : result (list (Z * PyTree)) :=
  match axes with
  | AxInt a => Ok [(a, x)]
  | AxNone => Ok []
  | AxTuple axs =>
      match x with
      | PTuple xs =>
          (fix go (axs : list AxisTree) (xs : list PyTree) : result (list (Z * PyTree)) :=
             match axs, xs with
             | [], [] => Ok []
             | a :: axs', y :: xs' =>
                 l ← flatten_up_to a y; r ← go axs' xs'; Ok (l ++ r)
             | _, _ => Raise TreeStructureError
             end) axs xs
      | _ => Raise TreeStructureError
      end
  end.

(** [mapM] over a list, stopping at the first exception. *)
Fixpoint map_result {A B} (f : A → result B) (l : list A) : result (list B) :=
  match l with
  | [] => Ok []
  | a :: l' => b ← f a; r ← map_result f l'; Ok (b :: r)
  end.

(** [jax.tree_leaves(jax.tree_multimap(find_axis_size, axes, x))] *)
Definition tree_axis_sizes (axes : AxisTree) (x : PyTree) : result (list nat) :=
  pairs ← flatten_up_to axes x;
  sizes ← map_result (λ p, find_axis_size (Some p.1) p.2) pairs;
  Ok (concat sizes).

(** The two trees [vmap.inner] hands to [jax.tree_multimap], line 322. *)
Definition vmap_axes_tree (variable_in_axes : list (option Z)) (in_axes : AxisTree)
    (n : nat) : AxisTree :=
  AxTuple [AxTuple (replicate n (AxTuple (axis_leaf <$> variable_in_axes))); in_axes].

Definition vmap_values_tree (variable_groups_xs : list (list Variables))
    (args : list PyTree) : PyTree :=
  PTuple [PTuple ((λ groups, PTuple (variables_tree <$> groups)) <$> variable_groups_xs);
          PTuple args].

(** The sizes [vmap.inner] finds, lines 316-323, as the set it builds of them:
    each size once. *)
Definition vmap_axis_sizes (variable_in_axes : list (option Z)) (in_axes : AxisTree)
    (variable_groups_xs : list (list Variables)) (args : list PyTree)
    : result (list nat) :=
  let n := length variable_groups_xs in
  sizes ← tree_axis_sizes (vmap_axes_tree variable_in_axes in_axes n)
            (vmap_values_tree variable_groups_xs args);
  Ok (remove_dups sizes).

(** Lines 324-331: the batch size [d_axis_size]. *)
Definition choose_axis_size (axis_size : option nat) (axis_sizes : list nat)
    : result nat :=
  match axis_size, axis_sizes with
  | None, [d] => Ok d
  | _, _ :: _ :: _ => Raise (InconsistentBatchAxisSizes axis_sizes)
  | None, _ => Raise AxisSizeUnspecified
  | Some a, _ => Ok a
  end.

Definition vmap_axis_size (variable_in_axes : list (option Z)) (in_axes : AxisTree)
    (axis_size : option nat)
    (variable_groups_xs : list (list Variables)) (args : list PyTree) : result nat :=
  axis_sizes ← vmap_axis_sizes variable_in_axes in_axes variable_groups_xs args;
  choose_axis_size axis_size axis_sizes.

(** Following the spec's words: the size, at its axis, of every leaf under an
    axis of the prefix tree. *)
Definition every_leaf_sizes (axes : AxisTree) (x : PyTree) : result (list nat) :=
  pairs ← flatten_up_to axes x;
  sizes ← map_result
            (λ p, map_result (λ leaf, shape_at (shape leaf) p.1) (tree_leaves p.2))
            pairs;
  Ok (concat sizes).

Lemma elem_of_concat {A} (x : A) (ls : list (list A)) :
  x ∈ concat ls ↔ ∃ l, x ∈ l ∧ l ∈ ls.
Proof.
  rewrite list_elem_of_In, in_concat. setoid_rewrite list_elem_of_In. naive_solver.
Qed.

Lemma map_result_Ok {A B} (f : A → result B) l r :
  map_result f l = Ok r ↔ Forall2 (λ a b, f a = Ok b) l r.
Proof.
  revert r. induction l as [|a l IH]; intros r; simpl.
  - split; [intros [= <-]; constructor | by inversion 1].
  - destruct (f a) as [b|e] eqn:Ea; simpl.
    + destruct (map_result f l) as [r'|e] eqn:El; simpl.
      * split.
        -- intros [= <-]. constructor; [done | by apply IH].
        -- inversion 1 as [|? y ? l' Hy Hl]; simplify_eq.
           apply IH in Hl. congruence.
      * split; [done|]. inversion 1 as [|? y ? l' Hy Hl]; simplify_eq.
        apply IH in Hl. done.
    + split; [done | inversion 1; congruence].
Qed.

Lemma find_axis_size_elem a x d sz :
  find_axis_size (Some a) x = Ok sz →
  d ∈ sz ↔ ∃ leaf rest, tree_leaves x = leaf :: rest ∧ shape_at (shape leaf) a = Ok d.
Proof.
  unfold find_axis_size. destruct (tree_leaves x) as [|leaf rest].
  - intros [= <-]. split; [by intros ?%elem_of_nil | by intros (?&?&?&?)].
  - destruct (shape_at (shape leaf) a) as [d'|e] eqn:Es; simpl; [|done].
    intros [= <-]. rewrite list_elem_of_singleton. split.
    + intros ->. eauto.
    + intros (?&?&[= <- <-]&?). congruence.
Qed.

(** ** Scopes *)

(** A scope object, as far as [lift.py] reads it: its name, its parent (both
    set at construction and never reassigned) and the number it was allocated
    under, which tells two objects of the same name and parent apart.  Two
    handles are the same object ([is], a key of a dictionary) when they are
    equal. *)
#[local] Unset Elimination Schemes.
Inductive Scope : Type :=
  MkScope { scope_id : nat; name : option string; parent : option Scope }.
#[local] Set Elimination Schemes.

Fixpoint scope_induction (P : Scope → Prop)
    (Hroot : ∀ i n, P (MkScope i n None))
    (Hchild : ∀ i n p, P p → P (MkScope i n (Some p)))
    (s : Scope) : P s :=
  match s with
  | MkScope i n None => Hroot i n
  | MkScope i n (Some p) => Hchild i n p (scope_induction P Hroot Hchild p)
  end.

(** A scope followed by its ancestors, nearest first. *)
Fixpoint lineage (s : Scope) : list Scope :=
  s :: match parent s with None => [] | Some p => lineage p end.

Definition ancestors (s : Scope) : list Scope :=
  match parent s with None => [] | Some p => lineage p end.

Fixpoint scope_key (s : Scope) : list (nat * option string) :=
  (scope_id s, name s) :: match parent s with None => [] | Some p => scope_key p end.

Lemma scope_key_inj s t : scope_key s = scope_key t → s = t.
Proof.
  revert t. induction s as [i n|i n p IH] using scope_induction;
    intros [j m [q|]]; simpl; intros H; simplify_eq; try done.
  - by destruct q as [? ? [?|]].
  - f_equal. f_equal. by apply IH.
  - by destruct p as [? ? [?|]].
Qed.

#[global] Instance Scope_eq_dec : EqDecision Scope :=
  λ s t, match decide (scope_key s = scope_key t) with
         | left H => left (scope_key_inj s t H)
         | right H => right (λ E, H (f_equal scope_key E))
         end.

(** [scope.root] *)
Fixpoint root (s : Scope) : Scope :=
  match parent s with None => s | Some p => root p end.

(** ** De-duplication of scope handles *)

Abbreviation Path := (list (option string)).

(** [collections.OrderedDict((s, ()) for s in scopes)], as its keys: every
    scope once, where it is first met. *)
Definition ordered_keys (scopes : list Scope) : list Scope :=
  foldl (λ keys s, if decide (s ∈ keys) then keys else keys ++ [s]) [] scopes.

(** The [while scope is not None] loop of [_dedup_scopes], lines 49-54,
    entered with a scope that is not [None]. *)
Fixpoint climb (minimal_set : list Scope) (scope : Scope)
    (max_parent : Scope) (max_parent_path : Path) (path : Path) : Scope * Path :=
  let '(max_parent, max_parent_path) :=
    if decide (scope ∈ minimal_set) then (scope, rev path)
    else (max_parent, max_parent_path) in
  let path := path ++ [name scope] in
  match parent scope with
  | None => (max_parent, max_parent_path)
  | Some scope => climb minimal_set scope max_parent max_parent_path path
  end.

(** One turn of the [for leaf in scopes] loop, lines 45-57. *)
Definition dedup_leaf (st : list Scope * list (Scope * Path)) (leaf : Scope)
    : result (list Scope * list (Scope * Path)) :=
  let '(minimal_set, paths) := st in
  let '(max_parent, max_parent_path) :=
    match parent leaf with
    | None => (leaf, [])
    | Some scope => climb minimal_set scope leaf [] [name leaf]
    end in
  minimal_set ←
    (if decide (max_parent = leaf) then Ok minimal_set
     else if decide (leaf ∈ minimal_set)
          then Ok (List.filter (λ s, negb (bool_decide (s = leaf))) minimal_set)
          else Raise (KeyError (scope_id leaf)));
  Ok (minimal_set, paths ++ [(max_parent, max_parent_path)]).

Fixpoint fold_result {A B} (f : A → B → result A) (a : A) (l : list B) : result A :=
  match l with
  | [] => Ok a
  | b :: l' => a' ← f a b; fold_result f a' l'
  end.

(** [_dedup_scopes], lines 40-58. *)
Definition _dedup_scopes (scopes : list Scope)
    : result (list Scope * list (Scope * Path)) :=
  fold_result dedup_leaf (ordered_keys scopes, []) scopes.

(** *** What de-duplication is to compute *)

(** Some proper ancestor of [s] is among [scopes]. *)
Definition has_ancestor_in (scopes : list Scope) (s : Scope) : bool :=
  existsb (λ a, bool_decide (a ∈ scopes)) (ancestors s).

(** The outermost of [s] and its ancestors that is among [scopes] ([s] itself
    when none is). *)
Definition outermost (scopes : list Scope) (s : Scope) : Scope :=
  default s (last (List.filter (λ a, bool_decide (a ∈ scopes)) (lineage s))).

(** The names of [s] and of its ancestors below [a], from [s] upwards. *)
Fixpoint names_below (a s : Scope) : Path :=
  if decide (s = a) then []
  else name s :: match parent s with None => [] | Some p => names_below a p end.

(** The child names that lead from [a] down to [s], when [a] is [s] or an
    ancestor of [s]. *)
Fixpoint path_from (a s : Scope) : option Path :=
  if decide (s = a) then Some []
  else match parent s with
       | None => None
       | Some p => (λ l, l ++ [name s]) <$> path_from a p
       end.

Fixpoint depth (s : Scope) : nat :=
  match parent s with None => 0 | Some p => S (depth p) end.

Lemma lineage_depth s a : a ∈ lineage s → depth a ≤ depth s.
Proof.
  induction s as [i n|i n p IH] using scope_induction; simpl.
  - intros ->%list_elem_of_singleton. done.
  - intros [->|H]%elem_of_cons; [done|]. specialize (IH H). lia.
Qed.

Lemma not_elem_of_ancestors s : s ∉ ancestors s.
Proof.
  unfold ancestors. destruct s as [i n [p|]]; simpl; [|apply not_elem_of_nil].
  intros H%lineage_depth. simpl in H. lia.
Qed.

Lemma lineage_cons s : lineage s = s :: ancestors s.
Proof. by destruct s as [i n [p|]]. Qed.

Lemma ancestors_trans a s : a ∈ lineage s → ancestors a ⊆ ancestors s.
Proof.
  induction s as [i n|i n p IH] using scope_induction; simpl.
  - intros ->%list_elem_of_singleton. done.
  - intros [->|H]%elem_of_cons; [done|]. specialize (IH H).
    unfold ancestors at 2. simpl. rewrite lineage_cons. set_solver.
Qed.

Lemma path_from_names_below a s :
  a ∈ lineage s → path_from a s = Some (rev (names_below a s)).
Proof.
  induction s as [i n|i n p IH] using scope_induction; simpl.
  - intros ->%list_elem_of_singleton. by rewrite !decide_True.
  - intros [->|H]%elem_of_cons; [by rewrite !decide_True|].
    destruct (decide (_ = a)) as [Heq|Hne]; [done|].
    rewrite (IH H). done.
Qed.

Lemma last_filter_cons {A} (P : A → bool) x l :
  last (List.filter P (x :: l)) =
    match last (List.filter P l) with
    | Some a => Some a
    | None => if P x then Some x else None
    end.
Proof.
  simpl. destruct (P x); [|by destruct (last _)].
  rewrite last_cons. by destruct (last _).
Qed.

Lemma last_filter_Some {A} (P : A → bool) l a :
  last (List.filter P l) = Some a →
  ∃ l1 l2, l = l1 ++ a :: l2 ∧ P a = true ∧ Forall (λ x, P x = false) l2.
Proof.
  induction l as [|x l IH]; [done|]. rewrite last_filter_cons.
  destruct (last (List.filter P l)) as [b|] eqn:E.
  - intros [= ->]. destruct (IH eq_refl) as (l1 & l2 & -> & ? & ?).
    by exists (x :: l1), l2.
  - destruct (P x) eqn:Px; [|done]. intros [= ->]. exists [], l.
    split; [done|]. split; [done|].
    apply Forall_forall. intros y Hy. destruct (P y) eqn:Py; [|done].
    assert (y ∈ List.filter P l) as Hin by by apply elem_of_filter_bool.
    destruct (List.filter P l) as [|z l'] eqn:El using rev_ind.
    + by apply elem_of_nil in Hin.
    + by rewrite last_snoc in E.
Qed.

Lemma last_filter_None {A} (P : A → bool) l :
  last (List.filter P l) = None ↔ Forall (λ x, P x = false) l.
Proof.
  rewrite last_None. induction l as [|x l IH]; simpl.
  - split; [constructor | done].
  - destruct (P x) eqn:Px.
    + split; [done | inversion 1; congruence].
    + rewrite IH. split; [by constructor | by inversion 1].
Qed.

(** What the loop of lines 49-54 computes. *)
Lemma climb_spec ms scope mp mpp path :
  climb ms scope mp mpp path =
    match last (List.filter (λ a, bool_decide (a ∈ ms)) (lineage scope)) with
    | None => (mp, mpp)
    | Some a => (a, rev (path ++ names_below a scope))
    end.
Proof.
  revert mp mpp path.
  induction scope as [i n|i n p IH] using scope_induction; intros mp mpp path.
  - simpl. case_decide as Hin.
    + rewrite bool_decide_eq_true_2 by done. simpl.
      rewrite decide_True by done. by rewrite app_nil_r.
    + by rewrite bool_decide_eq_false_2.
  - cbn [climb parent name]. change (lineage (MkScope i n (Some p)))
      with (MkScope i n (Some p) :: lineage p).
    rewrite last_filter_cons.
    destruct (decide (_ ∈ ms)) as [Hin|Hin]; rewrite IH;
      destruct (last _) as [a|] eqn:E.
    + apply last_filter_Some in E as (l1 & l2 & El & _ & _).
      assert (a ∈ lineage p) as Ha by (rewrite El; set_solver).
      cbn [names_below]. rewrite decide_False.
      * by rewrite <- app_assoc.
      * intros <-. by apply (not_elem_of_ancestors (MkScope i n (Some p))).
    + rewrite bool_decide_eq_true_2 by done. cbn [names_below].
      rewrite decide_True by done. by rewrite app_nil_r.
    + apply last_filter_Some in E as (l1 & l2 & El & _ & _).
      assert (a ∈ lineage p) as Ha by (rewrite El; set_solver).
      cbn [names_below]. rewrite decide_False.
      * by rewrite <- app_assoc.
      * intros <-. by apply (not_elem_of_ancestors (MkScope i n (Some p))).
    + by rewrite bool_decide_eq_false_2.
Qed.

Lemma last_filter_intro {A} (P : A → bool) l1 a l2 :
  P a = true → Forall (λ x, P x = false) l2 →
  last (List.filter P (l1 ++ a :: l2)) = Some a.
Proof.
  intros Pa Hl2. induction l1 as [|x l1 IH]; simpl.
  - rewrite Pa. rewrite last_cons.
    apply last_filter_None in Hl2. by rewrite Hl2.
  - destruct (P x); [|done]. by rewrite last_cons, IH.
Qed.

Lemma lineage_split s l1 a l2 : lineage s = l1 ++ a :: l2 → l2 = ancestors a.
Proof.
  revert l1. induction s as [i n|i n p IH] using scope_induction; intros l1.
  - destruct l1 as [|x [|y l1]]; simpl; intros [=]; by subst.
  - destruct l1 as [|x l1]; simpl; intros [=]; subst; [done|]. by eapply IH.
Qed.

Lemma elem_of_ordered_keys_aux (keys scopes : list Scope) (s : Scope) :
  s ∈ foldl (λ keys s, if decide (s ∈ keys) then keys else keys ++ [s]) keys scopes
  ↔ s ∈ keys ∨ s ∈ scopes.
Proof.
  revert keys. induction scopes as [|x scopes IH]; intros keys; simpl.
  - set_solver.
  - rewrite IH. case_decide; set_solver.
Qed.

Lemma elem_of_ordered_keys scopes s : s ∈ ordered_keys scopes ↔ s ∈ scopes.
Proof. unfold ordered_keys. rewrite elem_of_ordered_keys_aux. set_solver. Qed.

Lemma NoDup_ordered_keys_aux (keys scopes : list Scope) :
  NoDup keys →
  NoDup (foldl (λ keys s, if decide (s ∈ keys) then keys else keys ++ [s]) keys scopes).
Proof.
  revert keys. induction scopes as [|x scopes IH]; intros keys Hk; simpl; [done|].
  apply IH. case_decide; [done|].
  apply NoDup_app. split; [done|]. split; [|apply NoDup_singleton].
  intros y Hy ->%list_elem_of_singleton. done.
Qed.

Lemma NoDup_ordered_keys scopes : NoDup (ordered_keys scopes).
Proof. apply NoDup_ordered_keys_aux. constructor. Qed.

Lemma has_ancestor_in_true (scopes : list Scope) (s : Scope) :
  has_ancestor_in scopes s = true ↔ ∃ a, a ∈ ancestors s ∧ a ∈ scopes.
Proof.
  unfold has_ancestor_in. rewrite existsb_exists.
  setoid_rewrite <- list_elem_of_In. setoid_rewrite bool_decide_eq_true. done.
Qed.

Lemma has_ancestor_in_false (scopes : list Scope) (s : Scope) :
  has_ancestor_in scopes s = false ↔ ∀ a, a ∈ ancestors s → a ∉ scopes.
Proof.
  rewrite <- not_true_iff_false, has_ancestor_in_true. naive_solver.
Qed.

(** The topmost ancestor found in the shrinking [minimal_set] is the topmost
    one among the input: the set stays within the input and never loses a
    scope that has no ancestor there. *)
Lemma topmost_in_minimal_set (scopes ms : list Scope) (s : Scope) :
  (∀ a, a ∈ ms → a ∈ scopes) →
  (∀ a, a ∈ scopes → has_ancestor_in scopes a = false → a ∈ ms) →
  last (List.filter (λ a, bool_decide (a ∈ ms)) (ancestors s)) =
  last (List.filter (λ a, bool_decide (a ∈ scopes)) (ancestors s)).
Proof.
  intros Hsub Hroots.
  destruct (last (List.filter (λ a, bool_decide (a ∈ scopes)) _)) as [a|] eqn:E.
  - apply last_filter_Some in E as (l1 & l2 & El & Ha & Hl2).
    apply bool_decide_eq_true in Ha. rewrite El.
    assert (l2 = ancestors a) as ->.
    { eapply (lineage_split s (s :: l1)). rewrite lineage_cons, El. done. }
    apply last_filter_intro.
    + apply bool_decide_eq_true, Hroots; [done|].
      apply has_ancestor_in_false. intros b Hb.
      rewrite Forall_forall in Hl2. specialize (Hl2 b Hb).
      by apply bool_decide_eq_false in Hl2.
    + eapply Forall_impl; [exact Hl2|]. intros b Hb. simpl in Hb.
      apply bool_decide_eq_false in Hb. apply bool_decide_eq_false. auto.
  - apply last_filter_None in E. apply last_filter_None.
    eapply Forall_impl; [exact E|]. intros b Hb. simpl in Hb.
    apply bool_decide_eq_false in Hb. apply bool_decide_eq_false. auto.
Qed.

Lemma outermost_unfold (scopes : list Scope) (s : Scope) :
  s ∈ scopes →
  outermost scopes s =
    default s (last (List.filter (λ a, bool_decide (a ∈ scopes)) (ancestors s))).
Proof.
  intros Hs. unfold outermost. rewrite lineage_cons, last_filter_cons.
  rewrite bool_decide_eq_true_2 by done. by destruct (last _).
Qed.

Lemma outermost_spec (scopes : list Scope) (s : Scope) :
  s ∈ scopes →
  outermost scopes s ∈ scopes ∧
  outermost scopes s ∈ lineage s ∧
  has_ancestor_in scopes (outermost scopes s) = false ∧
  (∀ a, a ∈ lineage s → a ∈ scopes → outermost scopes s ∈ lineage a).
Proof.
  intros Hs. unfold outermost.
  destruct (last _) as [a|] eqn:E; simpl.
  - apply last_filter_Some in E as (l1 & l2 & El & Ha & Hl2).
    apply bool_decide_eq_true in Ha.
    pose proof (lineage_split _ _ _ _ El) as ->.
    rewrite Forall_forall in Hl2.
    split; [done|]. split; [rewrite El; set_solver|]. split.
    + apply has_ancestor_in_false. intros b Hb. specialize (Hl2 b Hb).
      by apply bool_decide_eq_false in Hl2.
    + intros b Hb Hbs. rewrite El in Hb.
      apply elem_of_app in Hb as [Hb|[->|Hb]%elem_of_cons].
      * apply list_elem_of_split in Hb as (k1 & k2 & ->).
        rewrite <- app_assoc in El. simpl in El.
        pose proof (lineage_split _ _ _ _ El) as Hk.
        rewrite lineage_cons, <- Hk. set_solver.
      * rewrite lineage_cons. set_solver.
      * specialize (Hl2 b Hb). by apply bool_decide_eq_false in Hl2.
  - apply last_filter_None in E. rewrite Forall_forall in E.
    specialize (E s). rewrite lineage_cons in E.
    rewrite bool_decide_eq_true_2 in E by done.
    exfalso. discriminate E. left.
Qed.

Lemma NoDup_filter_not_before {A} (P : A → bool) (l1 : list A) x l2 :
  NoDup (List.filter P (l1 ++ x :: l2)) → P x = true → x ∉ l1.
Proof.
  intros Hnd Px Hx. apply list_elem_of_split in Hx as (k1 & k2 & ->).
  rewrite <- !app_assoc in Hnd. simpl in Hnd.
  rewrite !List.filter_app in Hnd. simpl in Hnd. rewrite Px in Hnd.
  apply NoDup_app in Hnd as (_ & _ & Hnd).
  apply NoDup_cons in Hnd as [Hnd _]. apply Hnd.
  apply elem_of_filter_bool. split; [set_solver | done].
Qed.

(** The root and path [_dedup_scopes] is to record for a handle. *)
Definition scope_path (scopes : list Scope) (leaf : Scope) : Scope * Path :=
  (outermost scopes leaf, rev (names_below (outermost scopes leaf) leaf)).

(** [minimal_set] once the handles [seen] have been through the loop. *)
Definition minimal_set_after (scopes seen : list Scope) : list Scope :=
  List.filter (λ s, negb (bool_decide (s ∈ seen) && has_ancestor_in scopes s))
    (ordered_keys scopes).

Lemma filter_true {A} (l : list A) : List.filter (λ _, true) l = l.
Proof. induction l; simpl; congruence. Qed.

Lemma minimal_set_after_nil scopes : minimal_set_after scopes [] = ordered_keys scopes.
Proof.
  unfold minimal_set_after. rewrite <- (filter_true (ordered_keys scopes)) at 2.
  apply filter_ext_bool. intros s _.
  by rewrite bool_decide_eq_false_2 by apply not_elem_of_nil.
Qed.

Lemma dedup_leaf_spec (scopes seen : list Scope) (leaf : Scope) paths :
  leaf ∈ scopes →
  (has_ancestor_in scopes leaf = true → leaf ∉ seen) →
  dedup_leaf (minimal_set_after scopes seen, paths) leaf =
    Ok (minimal_set_after scopes (seen ++ [leaf]), paths ++ [scope_path scopes leaf]).
Proof.
  intros Hleaf Hfresh. unfold dedup_leaf, scope_path.
  rewrite (outermost_unfold _ _ Hleaf).
  assert (Htop : last (List.filter (λ a, bool_decide (a ∈ minimal_set_after scopes seen))
                         (ancestors leaf)) =
                 last (List.filter (λ a, bool_decide (a ∈ scopes)) (ancestors leaf))).
  { apply topmost_in_minimal_set.
    - intros a [Ha _]%elem_of_filter_bool. by apply elem_of_ordered_keys.
    - intros a Ha Hroot. apply elem_of_filter_bool.
      split; [by apply elem_of_ordered_keys|]. rewrite Hroot. by rewrite andb_false_r. }
  assert (Hpair :
    match parent leaf with
    | None => (leaf, [])
    | Some scope => climb (minimal_set_after scopes seen) scope leaf [] [name leaf]
    end =
    match last (List.filter (λ a, bool_decide (a ∈ scopes)) (ancestors leaf)) with
    | None => (leaf, [])
    | Some a => (a, rev (names_below a leaf))
    end).
  { unfold ancestors in *. destruct leaf as [i n [p|]]; simpl in *; [|done].
    rewrite climb_spec, Htop. clear Htop.
    destruct (last _) as [a|] eqn:E; [|done].
    apply last_filter_Some in E as (l1 & l2 & El & _ & _).
    rewrite decide_False; [done|]. intros <-.
    apply (not_elem_of_ancestors (MkScope i n (Some p))).
    unfold ancestors. simpl. rewrite El. set_solver. }
  rewrite Hpair. clear Hpair Htop.
  destruct (last _) as [a|] eqn:E; simpl.
  - apply last_filter_Some in E as (l1 & l2 & El & Ha & _).
    apply bool_decide_eq_true in Ha.
    assert (a ∈ ancestors leaf) as Hanc by (rewrite El; set_solver).
    assert (has_ancestor_in scopes leaf = true) as Hhas
      by (apply has_ancestor_in_true; eauto).
    rewrite decide_False
      by (intros ->; by apply (not_elem_of_ancestors leaf)).
    rewrite decide_True.
    2:{ apply elem_of_filter_bool. split; [by apply elem_of_ordered_keys|].
        rewrite bool_decide_eq_false_2; [done | auto]. }
    simpl. do 2 f_equal. unfold minimal_set_after.
    rewrite filter_filter_andb. apply filter_ext_bool. intros s _.
    destruct (decide (s = leaf)) as [->|Hne].
    + rewrite Hhas, (bool_decide_eq_true_2 (leaf = leaf)) by done.
      rewrite (bool_decide_eq_true_2 (leaf ∈ seen ++ [leaf])) by set_solver.
      by rewrite andb_false_r.
    + rewrite (bool_decide_eq_false_2 (s = leaf)) by done.
      rewrite andb_true_r. do 2 f_equal. apply bool_decide_ext. set_solver.
  - rewrite decide_True by done. simpl.
    assert (names_below leaf leaf = []) as ->
      by (destruct leaf; simpl; by rewrite decide_True).
    do 2 f_equal.
    apply last_filter_None in E. rewrite Forall_forall in E.
    assert (has_ancestor_in scopes leaf = false) as Hhas.
    { apply has_ancestor_in_false. intros a Ha. specialize (E a Ha).
      by apply bool_decide_eq_false in E. }
    unfold minimal_set_after. apply filter_ext_bool. intros s _.
    destruct (decide (s = leaf)) as [->|Hne].
    + by rewrite Hhas, !andb_false_r.
    + do 2 f_equal. apply bool_decide_ext. set_solver.
Qed.

(** [_dedup_scopes] on handles of which none that has an ancestor among them
    is repeated: the roots are the handles without an ancestor among the
    input, each once and in the order of its first occurrence, and the paths
    give, handle by handle, its outermost ancestor of the input and the child
    names from there. *)
Lemma dedup_scopes_correct (scopes : list Scope) :
  NoDup (List.filter (has_ancestor_in scopes) scopes) →
  _dedup_scopes scopes =
    Ok (List.filter (λ s, negb (has_ancestor_in scopes s)) (ordered_keys scopes),
        scope_path scopes <$> scopes).
Proof.
  intros Hnd. unfold _dedup_scopes.
  assert (Hgen : ∀ todo seen paths,
    seen ++ todo = scopes →
    fold_result dedup_leaf (minimal_set_after scopes seen, paths) todo =
      Ok (minimal_set_after scopes scopes, paths ++ (scope_path scopes <$> todo))).
  { induction todo as [|leaf todo IH]; intros seen paths Heq.
    - simpl. rewrite app_nil_r in *. by subst.
    - cbn [fold_result]. rewrite dedup_leaf_spec.
      + cbn [mbind result_bind]. rewrite IH by (by rewrite <- app_assoc).
        rewrite fmap_cons, <- app_assoc. done.
      + subst. set_solver.
      + intros Hhas. eapply NoDup_filter_not_before; [|exact Hhas].
        rewrite Heq. exact Hnd. }
  specialize (Hgen scopes [] [] eq_refl). simpl in Hgen.
  rewrite minimal_set_after_nil in Hgen.
  rewrite Hgen. do 2 f_equal. unfold minimal_set_after.
  apply filter_ext_bool. intros s Hs. rewrite elem_of_ordered_keys in Hs.
  by rewrite bool_decide_eq_true_2.
Qed.

(** Where a handle with an ancestor among the input comes a second time, the
    second [del minimal_set[leaf]] raises. *)
Lemma dedup_scopes_repeated (scopes seen rest : list Scope) (leaf : Scope) :
  scopes = seen ++ leaf :: rest →
  leaf ∈ seen →
  NoDup (List.filter (has_ancestor_in scopes) seen) →
  has_ancestor_in scopes leaf = true →
  _dedup_scopes scopes = Raise (KeyError (scope_id leaf)).
Proof.
  intros Heq Hseen Hnd Hhas. unfold _dedup_scopes.
  assert (Hgen : ∀ todo seen' paths,
    seen' ++ todo = seen →
    ∃ paths',
      fold_result dedup_leaf (minimal_set_after scopes seen', paths) (todo ++ leaf :: rest) =
      fold_result dedup_leaf (minimal_set_after scopes seen, paths') (leaf :: rest)).
  { induction todo as [|x todo IH]; intros seen' paths Heq'.
    - simpl. rewrite app_nil_r in Heq'. subst seen'. eauto.
    - cbn [fold_result app]. rewrite dedup_leaf_spec.
      + cbn [mbind result_bind]. apply IH. by rewrite <- app_assoc.
      + rewrite Heq, <- Heq'. set_solver.
      + intros Hx. eapply NoDup_filter_not_before; [|exact Hx].
        rewrite Heq'. exact Hnd. }
  destruct (Hgen seen [] [] (app_nil_l _)) as [paths' Hrun].
  rewrite minimal_set_after_nil in Hrun.
  transitivity (fold_result dedup_leaf (ordered_keys scopes, []) (seen ++ leaf :: rest));
    [by rewrite <- Heq|].
  rewrite Hrun. clear Hrun Hgen. simpl.
  set (ms := minimal_set_after scopes seen).
  assert (Hout : leaf ∉ ms).
  { intros [_ Hp]%elem_of_filter_bool. rewrite Hhas in Hp.
    rewrite bool_decide_eq_true_2 in Hp by done. done. }
  assert (Htop : last (List.filter (λ a, bool_decide (a ∈ ms)) (ancestors leaf)) =
                 last (List.filter (λ a, bool_decide (a ∈ scopes)) (ancestors leaf))).
  { apply topmost_in_minimal_set.
    - intros a [Ha _]%elem_of_filter_bool. by apply elem_of_ordered_keys.
    - intros a Ha Hroot. apply elem_of_filter_bool.
      split; [by apply elem_of_ordered_keys|]. rewrite Hroot. by rewrite andb_false_r. }
  apply has_ancestor_in_true in Hhas as (a & Ha & Has).
  unfold ancestors in *. destruct leaf as [i n [p|]]; simpl in *;
    [|by apply elem_of_nil in Ha].
  rewrite climb_spec, Htop. clear Htop.
  destruct (last _) as [b|] eqn:E.
  - apply last_filter_Some in E as (k1 & k2 & El & _ & _).
    rewrite decide_False.
    + rewrite decide_False by done. done.
    + intros ->. apply (not_elem_of_ancestors (MkScope i n (Some p))).
      unfold ancestors. simpl. rewrite El. set_solver.
  - apply last_filter_None in E. rewrite Forall_forall in E.
    specialize (E a Ha). apply bool_decide_eq_false in E. done.
Qed.

(** ** The heap of scope objects *)

Inductive PRNGKey : Type :=
| Key (seed : nat)
| FoldIn (key : PRNGKey) (data : nat).

(** The mutable part of a scope object. *)
Record ScopeState : Type := MkScopeState {
  _variables : Variables;
  rngs : dict PRNGKey;
  rng_counters : dict nat;
  mutable : CollectionFilter;
  _invalid : bool;
  trace_valid : bool;
  reuse_scopes : list (option string * Scope);
}.

(** What a [pack] call does to scope objects, in the order it does it. *)
Inductive Event : Type :=
| EvNewScope (s : Scope)
| EvInvalidate (s : Scope)
| EvMakeRng (s : Scope) (kind : string)
| EvPutVariable (s : Scope) (col var : string) (value : Value)
| EvScopeFn (inner_scopes : list Scope)
    (* [scope_fn] returns the tree of these handles *)
| EvPayloadEnter
| EvPayloadExit (returned : bool).

(** The objects, the next allocation number, the cell of [pack]'s
    [nonlocal inner_scopes], the trees [scope_fn] has returned so far and the
    events so far. *)
Record Heap : Type := MkHeap {
  objects : gmap nat ScopeState;
  next_id : nat;
  inner_scopes : list Scope;
  issued : list (list Scope);
  trace : list Event;
}.

Definition set_objects (f : gmap nat ScopeState → gmap nat ScopeState) (h : Heap) : Heap :=
  MkHeap (f (objects h)) (next_id h) (inner_scopes h) (issued h) (trace h).
Definition set_next_id (n : nat) (h : Heap) : Heap :=
  MkHeap (objects h) n (inner_scopes h) (issued h) (trace h).
Definition set_inner_scopes (l : list Scope) (h : Heap) : Heap :=
  MkHeap (objects h) (next_id h) l (issued h) (trace h).
Definition add_issued (l : list Scope) (h : Heap) : Heap :=
  MkHeap (objects h) (next_id h) (inner_scopes h) (issued h ++ [l]) (trace h).
Definition add_event (ev : Event) (h : Heap) : Heap :=
  MkHeap (objects h) (next_id h) (inner_scopes h) (issued h) (trace h ++ [ev]).

(** Computations on the heap that may raise; an exception keeps the heap as
    it was when raised. *)
Definition M (A : Type) : Type := Heap → result A * Heap.

#[global] Instance M_ret : MRet M := λ A a h, (Ok a, h).
#[global] Instance M_bind : MBind M :=
  λ A B k m h,
    match m h with
    | (Ok a, h') => k a h'
    | (Raise e, h') => (Raise e, h')
    end.

Definition raise {A} (e : exn) : M A := λ h, (Raise e, h).
Definition lift_result {A} (r : result A) : M A := λ h, (r, h).
Definition get_heap : M Heap := λ h, (Ok h, h).
Definition modify (f : Heap → Heap) : M unit := λ h, (Ok (), f h).
Definition emit (ev : Event) : M unit := modify (add_event ev).

(** [try: r = m except e: r = e] *)
Definition attempt {A} (m : M A) : M (result A) :=
  λ h, let '(r, h') := m h in (Ok r, h').

(** [try: m finally: cleanup] *)
Definition finally {A} (m : M A) (cleanup : M unit) : M A :=
  λ h, let '(r, h1) := m h in
       match cleanup h1 with
       | (Ok _, h2) => (r, h2)
       | (Raise e, h2) => (Raise e, h2)
       end.

Fixpoint for_each {A} (f : A → M unit) (l : list A) : M unit :=
  match l with
  | [] => mret ()
  | a :: l' => _ ← f a; for_each f l'
  end.

Fixpoint map_M {A B} (f : A → M B) (l : list A) : M (list B) :=
  match l with
  | [] => mret []
  | a :: l' => b ← f a; r ← map_M f l'; mret (b :: r)
  end.

(** The state of a scope object; a handle without an object is dangling. *)
Definition get_state (s : Scope) : M ScopeState :=
  λ h, match objects h !! scope_id s with
       | Some st => (Ok st, h)
       | None => (Raise (InvalidScope (scope_id s)), h)
       end.

Definition set_state (s : Scope) (st : ScopeState) : M unit :=
  modify (set_objects <[scope_id s := st]>).

(** [Scope(variables, name=name, rngs=rngs, mutable=mutable, parent=parent)] *)
Definition new_scope (variables : Variables) (name : option string)
    (rngs : dict PRNGKey) (mutable : CollectionFilter) (parent : option Scope)
    : M Scope :=
  λ h,
    let s := MkScope (next_id h) name parent in
    let st := MkScopeState variables rngs ((λ kv, (kv.1, 0)) <$> rngs) mutable
                false true [] in
    (Ok s, add_event (EvNewScope s)
             (set_next_id (S (next_id h)) (set_objects <[next_id h := st]> h))).

(** Modelled from the spec: [scope.invalidate()] ([scope.py] is not among the
    sources) renders the scope unusable. *)
Definition invalidate (s : Scope) : M unit :=
  modify (λ h,
    add_event (EvInvalidate s)
      (set_objects
         (alter (λ st, MkScopeState (_variables st) (rngs st) (rng_counters st)
                         (mutable st) true (trace_valid st) (reuse_scopes st))
            (scope_id s)) h)).

(** Modelled from the spec: [scope._validate_trace_level()] ([scope.py] is not
    among the sources) fails if the scope has outlived its defining call. *)
Definition _validate_trace_level (s : Scope) : M unit :=
  st ← get_state s;
  if trace_valid st then mret () else raise (TraceLevelError (scope_id s)).

(** Modelled from the spec: [scope.make_rng(kind)] ([scope.py] is not among
    the sources) derives a fresh generator value for the named stream; two
    calls do not give the same value. *)
Definition make_rng (s : Scope) (kind : string) : M PRNGKey :=
  st ← get_state s;
  match get kind (rngs st) with
  | None => raise AssertionError
  | Some key =>
      let n := S (default 0 (get kind (rng_counters st))) in
      _ ← set_state s (MkScopeState (_variables st) (rngs st)
                         (set kind n (rng_counters st)) (mutable st)
                         (_invalid st) (trace_valid st) (reuse_scopes st));
      _ ← emit (EvMakeRng s kind);
      mret (FoldIn key n)
  end.

(** Modelled from the spec: [scope.put_variable(col, name, value)]
    ([scope.py] is not among the sources) writes through to a mutable
    collection: no write is permitted on an invalidated scope, on a collection
    the root's [mutable] filter does not accept, or into an immutable
    snapshot. *)
Definition put_variable (s : Scope) (col var : string) (value : Value) : M unit :=
  st ← get_state s;
  root_st ← get_state (root s);
  if _invalid st then raise (InvalidScope (scope_id s))
  else if negb (in_filter (mutable root_st) col) then raise (ImmutableCollection col)
  else
    match default (PlainDict []) (get col (_variables st)) with
    | FrozenDict _ => raise (ImmutableCollection col)
    | PlainDict entries =>
        _ ← set_state s (MkScopeState
                           (set col (PlainDict (set var value entries)) (_variables st))
                           (rngs st) (rng_counters st) (mutable st)
                           (_invalid st) (trace_valid st) (reuse_scopes st));
        emit (EvPutVariable s col var value)
    end.

(** Modelled from the spec: [scope.push(name, reuse)] ([scope.py] is not among
    the sources) creates a child or, if [reuse] and a same-named child already
    exists, returns that child.  A name is looked up as it is given ([None]
    too: no scope below a root is unnamed, and the source would invent a name
    there). *)
Definition push (s : Scope) (name : option string) (reuse : bool) : M Scope :=
  st ← get_state s;
  match (if reuse then List.find (λ kv, bool_decide (kv.1 = name)) (reuse_scopes st)
         else None) with
  | Some (_, child) => mret child
  | None =>
      child ← new_scope [] name [] (mutable st) (Some s);
      st ← get_state s;
      _ ← set_state s (MkScopeState (_variables st) (rngs st) (rng_counters st)
                         (mutable st) (_invalid st) (trace_valid st)
                         (reuse_scopes st ++ [(name, child)]));
      mret child
  end.

(** ** Re-duplication *)

(** [mapping[root]] for [mapping = dict(zip(orig_scopes, scopes))]: of two
    pairs under one key the later one counts. *)
Definition mapping_get (mapping : list (Scope * Scope)) (root : Scope) : option Scope :=
  snd <$> List.find (λ kv, bool_decide (kv.1 = root)) (rev mapping).

(** The inner loop of [_dup_scopes], lines 65-66. *)
Fixpoint push_path (scope : Scope) (path : Path) : M Scope :=
  match path with
  | [] => mret scope
  | name :: path' => scope ← push scope name true; push_path scope path'
  end.

(** [_dup_scopes], lines 60-68. *)
Definition _dup_scopes (orig_scopes scopes : list Scope)
    (paths : list (Scope * Path)) : M (list Scope) :=
  let mapping := zip orig_scopes scopes in
  map_M (λ rp : Scope * Path,
           match mapping_get mapping rp.1 with
           | None => raise (KeyError (scope_id rp.1))
           | Some scope => push_path scope rp.2
           end) paths.

(** ** The pack adapter *)

Abbreviation VariableGroups := (list Variables).
Abbreviation RngGroups := (list (dict PRNGKey)).

(** The filters [pack] is called with. *)
Record Filters : Type := MkFilters {
  in_variable_filters : list CollectionFilter;
  out_variable_filters : list CollectionFilter;
  rng_filters : list CollectionFilter;
}.

(** The payload [fn], as the calls it makes once [pack] has handed it
    [scope_fn], [repack] and the groups.  It may call [scope_fn] with any
    groups and go on whatever comes back, result or exception; call [repack]
    on a tree [scope_fn] returned earlier (the tree of the [gen]-th call);
    change the variables of an inner scope it was handed (any change: through
    the scope's interface or not); and at last return a result with output
    groups, or raise. *)
Inductive Payload (Y : Type) : Type :=
| Return (y : Y) (out_variable_groups_xs : list VariableGroups)
| Throw (e : exn)
| CallScopeFn (variable_groups_xs : list VariableGroups)
    (rng_groups_xs : list RngGroups) (k : result (list Scope) → Payload Y)
| CallRepack (gen : nat) (k : result (list VariableGroups) → Payload Y)
| SetVariables (gen i : nat) (variables : Variables) (k : Payload Y).
Arguments Return {Y} y out_variable_groups_xs.
Arguments Throw {Y} e.
Arguments CallScopeFn {Y} variable_groups_xs rng_groups_xs k.
Arguments CallRepack {Y} gen k.
Arguments SetVariables {Y} gen i variables k.

(** Lines 90-98 for one group: a collection that no output filter accepts is
    replaced by its frozen copy. *)
Definition freeze_in_only (out_filters : list CollectionFilter)
    (variable_group : Variables) : Variables :=
  (λ kv, (kv.1, if in_any_filter out_filters kv.1 then kv.2 else freeze kv.2))
    <$> variable_group.

(** Lines 84-98: the variable groups of the canonical scopes.  The
    collections that [_populate_collections] materializes at line 88
    ([scope.py] is not among the sources) are taken to be in [_variables]
    already. *)
Definition pack_variable_groups (fs : Filters) (scopes : list Scope)
    : M (list VariableGroups) :=
  variable_groups_xs ←
    map_M (λ scope,
             _ ← _validate_trace_level scope;
             st ← get_state scope;
             mret (group_collections (_variables st) (in_variable_filters fs)))
          scopes;
  mret (map (map (freeze_in_only (out_variable_filters fs))) variable_groups_xs).

(** Lines 99-105: the rng groups, each stream replaced by a key made for this
    call. *)
Definition pack_rng_groups (fs : Filters) (scopes : list Scope)
    : M (list RngGroups) :=
  map_M (λ scope,
           st ← get_state scope;
           map_M (λ rng_group : dict PRNGKey,
                    map_M (λ kv : string * PRNGKey,
                             key ← make_rng scope kv.1; mret (kv.1, key))
                          rng_group)
                 (group_collections (rngs st) (rng_filters fs)))
        scopes.

(** [zip(variable_groups_xs, rng_groups_xs, scopes)] *)
Definition zip3 {A B C} (l1 : list A) (l2 : list B) (l3 : list C) : list (A * B * C) :=
  zip (zip l1 l2) l3.

(** [scope_fn], lines 108-131. *)
Definition scope_fn (fs : Filters) (scopes : list Scope) (paths : list (Scope * Path))
    (variable_groups_xs : list VariableGroups) (rng_groups_xs : list RngGroups)
    : M (list Scope) :=
  h ← get_heap;
  _ ← for_each invalidate (inner_scopes h);
  _ ← modify (set_inner_scopes []);
  let mutable_ := foldl union_filters (FBool false) (out_variable_filters fs) in
  _ ← for_each
        (λ x : VariableGroups * RngGroups * Scope,
           let '(variable_groups, rng_groups, scope) := x in
           let variables := foldl update [] variable_groups in
           let rngs := foldl update [] rng_groups in
           root_st ← get_state (root scope);
           let scope_mutable := intersect_filters (mutable root_st) mutable_ in
           inner_scope ← new_scope variables (name scope) rngs scope_mutable None;
           modify (λ h, set_inner_scopes (inner_scopes h ++ [inner_scope]) h))
        (zip3 variable_groups_xs rng_groups_xs scopes);
  h ← get_heap;
  new_inner_scopes ← _dup_scopes scopes (inner_scopes h) paths;
  _ ← modify (set_inner_scopes new_inner_scopes);
  _ ← modify (add_issued new_inner_scopes);
  _ ← emit (EvScopeFn new_inner_scopes);
  mret new_inner_scopes.

(** [repack], lines 133-151. *)
Definition repack (fs : Filters) (paths : list (Scope * Path))
    (inner_scope_tree : list Scope) : M (list VariableGroups) :=
  '(inner_scopes, inner_paths) ← lift_result (_dedup_scopes inner_scope_tree);
  if negb (bool_decide (paths.*2 = inner_paths.*2)) then raise AssertionError
  else
    map_M (λ inner_scope,
             _ ← invalidate inner_scope;
             _ ← _validate_trace_level inner_scope;
             st ← get_state inner_scope;
             lift_result (repack_scope (out_variable_filters fs) (_variables st)))
          inner_scopes.

(** The payload changes the variables of the inner scope it reaches through a
    handle: those of the handle's root. *)
Definition set_variables (s : Scope) (variables : Variables) : M unit :=
  modify (set_objects
            (alter (λ st, MkScopeState variables (rngs st) (rng_counters st)
                            (mutable st) (_invalid st) (trace_valid st)
                            (reuse_scopes st))
               (scope_id (root s)))).

(** Running the payload: line 153-154, between the [try] and the [finally]. *)
Fixpoint run_payload {Y} (fs : Filters) (scopes : list Scope)
    (paths : list (Scope * Path)) (p : Payload Y) : M (Y * list VariableGroups) :=
  match p with
  | Return y out => mret (y, out)
  | Throw e => raise e
  | CallScopeFn variable_groups_xs rng_groups_xs k =>
      r ← attempt (scope_fn fs scopes paths variable_groups_xs rng_groups_xs);
      run_payload fs scopes paths (k r)
  | CallRepack gen k =>
      h ← get_heap;
      r ← match issued h !! gen with
          | Some tree => attempt (repack fs paths tree)
          | None => mret (Raise IndexError)
          end;
      run_payload fs scopes paths (k r)
  | SetVariables gen i variables k =>
      h ← get_heap;
      _ ← match issued h !! gen ≫= (.!! i) with
          | Some s => set_variables s variables
          | None => mret ()
          end;
      run_payload fs scopes paths k
  end.

(** Lines 158-162: the write-back. *)
Definition write_back (scopes : list Scope)
    (out_variable_groups_xs : list VariableGroups) : M unit :=
  for_each
    (λ x : Scope * VariableGroups,
       for_each
         (λ out_variable_group : Variables,
            for_each
              (λ kv : string * Collection,
                 for_each (λ nv : string * Value, put_variable x.1 kv.1 nv.1 nv.2)
                          (items kv.2))
              out_variable_group)
         x.2)
    (zip scopes out_variable_groups_xs).

(** Lines 107-157: the payload is run with an empty [inner_scopes] cell, and
    whatever comes of it the inner scopes then in the cell are invalidated. *)
Definition pack_call {Y} (fs : Filters) (scopes : list Scope)
    (paths : list (Scope * Path)) (p : Payload Y) : M (Y * list VariableGroups) :=
  _ ← modify (λ h, MkHeap (objects h) (next_id h) [] [] (trace h));
  _ ← emit EvPayloadEnter;
  finally
    (r ← attempt (run_payload fs scopes paths p);
     _ ← emit (EvPayloadExit (match r with Ok _ => true | Raise _ => false end));
     lift_result r)
    (h ← get_heap; for_each invalidate (inner_scopes h)).

(** [pack(fn, in_variable_filters, out_variable_filters, rng_filters)] applied
    to the scopes [scope_tree] flattens to, lines 79-163.  [fn] is given the
    groups and answers with the calls it makes. *)
Definition pack {Y} (fs : Filters)
    (fn : list VariableGroups → list RngGroups → Payload Y)
    (scope_tree : list Scope) : M Y :=
  '(scopes, paths) ← lift_result (_dedup_scopes scope_tree);
  variable_groups_xs ← pack_variable_groups fs scopes;
  rng_groups_xs ← pack_rng_groups fs scopes;
  '(y, out_variable_groups_xs) ←
    pack_call fs scopes paths (fn variable_groups_xs rng_groups_xs);
  _ ← write_back scopes out_variable_groups_xs;
  mret y.

(** ** Reasoning about heap computations *)

(** From a heap satisfying [P], [m] ends, with a result or an exception, in a
    heap satisfying [Q]. *)
Definition hoare {A} (P : Heap → Prop) (m : M A) (Q : result A → Heap → Prop) : Prop :=
  ∀ h, P h → Q (m h).1 (m h).2.

(** [m] keeps [I], however it ends. *)
Definition keeps {A} (I : Heap → Prop) (m : M A) : Prop := hoare I m (λ _, I).

Lemma hoare_weaken {A} (P P' : Heap → Prop) (m : M A) (Q Q' : result A → Heap → Prop) :
  hoare P' m Q' → (∀ h, P h → P' h) → (∀ r h, Q' r h → Q r h) → hoare P m Q.
Proof. unfold hoare. auto. Qed.

Lemma hoare_ret {A} (P : Heap → Prop) (a : A) Q :
  (∀ h, P h → Q (Ok a) h) → hoare P (mret a) Q.
Proof. unfold hoare. auto. Qed.

Lemma hoare_raise {A} (P : Heap → Prop) e (Q : result A → Heap → Prop) :
  (∀ h, P h → Q (Raise e) h) → hoare P (raise e) Q.
Proof. unfold hoare. auto. Qed.

Lemma hoare_lift_result {A} (P : Heap → Prop) (r : result A) Q :
  (∀ h, P h → Q r h) → hoare P (lift_result r) Q.
Proof. unfold hoare. auto. Qed.

Lemma hoare_modify (P : Heap → Prop) f Q :
  (∀ h, P h → Q (Ok ()) (f h)) → hoare P (modify f) Q.
Proof. unfold hoare. auto. Qed.

Lemma hoare_bind {A B} (P : Heap → Prop) (m : M A) (k : A → M B) Q1 Q :
  hoare P m Q1 →
  (∀ a, hoare (Q1 (Ok a)) (k a) Q) →
  (∀ e h, Q1 (Raise e) h → Q (Raise e) h) →
  hoare P (m ≫= k) Q.
Proof.
  intros Hm Hk He h HP. specialize (Hm h HP).
  unfold mbind, M_bind. destruct (m h) as [[a|e] h1]; simpl in *.
  - by apply Hk.
  - by apply He.
Qed.

(** The heap read by [get_heap] is the one the rest starts from. *)
Lemma hoare_get_heap {B} (P : Heap → Prop) (k : Heap → M B) Q :
  (∀ h0, hoare (λ h, P h ∧ h = h0) (k h0) Q) → hoare P (get_heap ≫= k) Q.
Proof. intros Hk h HP. apply (Hk h h). done. Qed.

Lemma hoare_attempt {A} (P : Heap → Prop) (m : M A) (Q : result (result A) → Heap → Prop) :
  hoare P m (λ r, Q (Ok r)) → hoare P (attempt m) Q.
Proof.
  intros Hm h HP. specialize (Hm h HP). unfold attempt.
  by destruct (m h) as [r h1].
Qed.

Lemma hoare_finally {A} (P : Heap → Prop) (m : M A) cleanup Q1 Q :
  hoare P m Q1 →
  (∀ r, hoare (Q1 r) cleanup
          (λ r' h, match r' with Ok _ => Q r h | Raise e => Q (Raise e) h end)) →
  hoare P (finally m cleanup) Q.
Proof.
  intros Hm Hc h HP. specialize (Hm h HP). unfold finally.
  destruct (m h) as [r h1]; simpl in *. specialize (Hc r h1 Hm).
  by destruct (cleanup h1) as [[[]|e] h2].
Qed.

Lemma keeps_bind {A B} (I : Heap → Prop) (m : M A) (k : A → M B) :
  keeps I m → (∀ a, keeps I (k a)) → keeps I (m ≫= k).
Proof. intros Hm Hk. eapply hoare_bind; [exact Hm | exact Hk | done]. Qed.

Lemma keeps_for_each {A} (I : Heap → Prop) (f : A → M unit) l :
  (∀ a, a ∈ l → keeps I (f a)) → keeps I (for_each f l).
Proof.
  induction l as [|a l IH]; intros Hf; simpl.
  - by apply hoare_ret.
  - apply keeps_bind; [apply Hf; left|]. intros _. apply IH.
    intros b Hb. apply Hf. by right.
Qed.

Lemma keeps_map_M {A B} (I : Heap → Prop) (f : A → M B) l :
  (∀ a, a ∈ l → keeps I (f a)) → keeps I (map_M f l).
Proof.
  induction l as [|a l IH]; intros Hf; simpl.
  - by apply hoare_ret.
  - apply keeps_bind; [apply Hf; left|]. intros b.
    apply keeps_bind; [apply IH; intros; apply Hf; by right|].
    intros r. by apply hoare_ret.
Qed.

(** [map_M] with a property of each result. *)
Lemma hoare_map_M {A B} (I : Heap → Prop) (R : B → Prop) (f : A → M B) l :
  (∀ a, a ∈ l →
     hoare I (f a) (λ r h, I h ∧ match r with Ok b => R b | Raise _ => True end)) →
  hoare I (map_M f l)
    (λ r h, I h ∧ match r with Ok bs => Forall R bs | Raise _ => True end).
Proof.
  induction l as [|a l IH]; intros Hf; simpl.
  - apply hoare_ret. auto.
  - eapply hoare_bind; [apply Hf; left | | by intros ?? [? _]].
    intros b. simpl.
    eapply hoare_bind with
      (Q1 := λ r h, (I h ∧ match r with Ok bs => Forall R bs | Raise _ => True end) ∧ R b).
    + intros h [HI Hb]. split; [|done]. apply IH; [|done].
      intros; apply Hf; by right.
    + intros bs. apply hoare_ret. intros h [[HI Hbs] Hb]. auto.
    + by intros ?? [[? _] _].
Qed.

(** ** The invariant of a pack call *)

(** A scope made during the call: it and its ancestors were allocated at or
    after [n0]. *)
Definition fresh (n0 : nat) (s : Scope) : Prop :=
  Forall (λ a, n0 ≤ scope_id a) (lineage s).

(** The inner scopes handed out by [scope_fn] and not invalidated since. *)
Definition pending_step (live : list Scope) (ev : Event) : list Scope :=
  match ev with
  | EvInvalidate s => List.filter (λ x, negb (bool_decide (x = s))) live
  | EvScopeFn hs => live ++ hs
  | _ => live
  end.

Definition pending (evs : list Event) : list Scope := foldl pending_step [] evs.

(** What an event of the payload's run requires of the inner scopes live when
    it happens: a scope is made, and a tree handed out, only when none is
    live; and no variable of an outer scope is written. *)
Definition event_ok (live : list Scope) (ev : Event) : Prop :=
  match ev with
  | EvNewScope _ | EvScopeFn _ => live = []
  | EvPutVariable _ _ _ _ => False
  | _ => True
  end.

Definition sequenced (evs : list Event) : Prop :=
  ∀ tr1 ev tr2, evs = tr1 ++ ev :: tr2 → event_ok (pending tr1) ev.

Lemma pending_snoc evs ev : pending (evs ++ [ev]) = pending_step (pending evs) ev.
Proof. unfold pending. by rewrite foldl_app. Qed.

Lemma sequenced_nil : sequenced [].
Proof. intros [|??] ?? [=]. Qed.

Lemma sequenced_snoc evs ev :
  sequenced evs → event_ok (pending evs) ev → sequenced (evs ++ [ev]).
Proof.
  intros Hs Hev tr1 ev' tr2 Heq.
  destruct tr2 as [|x tr2 _] using rev_ind.
  - apply app_inj_tail in Heq as [-> ->]. done.
  - rewrite app_comm_cons, app_assoc in Heq.
    apply app_inj_tail in Heq as [-> _]. by eapply Hs.
Qed.

Record Inv (n0 : nat) (objs0 : gmap nat ScopeState) (tr0 : list Event)
    (live : list Scope) (h : Heap) : Prop := MkInv {
  inv_frame : ∀ id, id < n0 → objects h !! id = objs0 !! id;
  inv_next : n0 ≤ next_id h;
  inv_inner : Forall (fresh n0) (inner_scopes h);
  inv_issued : Forall (Forall (fresh n0)) (issued h);
  inv_children : ∀ id st, objects h !! id = Some st → n0 ≤ id →
                 Forall (λ kv, fresh n0 kv.2) (reuse_scopes st);
  inv_trace : ∃ evs, trace h = tr0 ++ evs ∧ pending evs ⊆ live ∧ sequenced evs;
}.

Lemma Inv_mono n0 objs0 tr0 live live' h :
  live ⊆ live' → Inv n0 objs0 tr0 live h → Inv n0 objs0 tr0 live' h.
Proof.
  intros Hsub [? ? ? ? ? (evs & ? & ? & ?)]. split; try done.
  exists evs. split; [done|]. split; [set_solver | done].
Qed.

Lemma fresh_root n0 s : fresh n0 s → n0 ≤ scope_id (root s).
Proof.
  unfold fresh. induction s as [i n|i n p IH] using scope_induction; simpl.
  - by intros [? _]%Forall_cons.
  - intros [_ ?]%Forall_cons. auto.
Qed.

Lemma fresh_id n0 s : fresh n0 s → n0 ≤ scope_id s.
Proof. unfold fresh. rewrite lineage_cons. by intros [? _]%Forall_cons. Qed.

Lemma for_each_invalidate_inner l h :
  inner_scopes (for_each invalidate l h).2 = inner_scopes h.
Proof.
  revert h. induction l as [|s l IH]; intros h; simpl; [done|].
  unfold mbind, M_bind. simpl. by rewrite IH.
Qed.

Lemma dedup_leaf_subset ms ps leaf ms' ps' :
  dedup_leaf (ms, ps) leaf = Ok (ms', ps') → ms' ⊆ ms.
Proof.
  unfold dedup_leaf.
  destruct (match parent leaf with Some _ => _ | None => _ end) as [mp mpp].
  destruct (decide (mp = leaf)); simpl; [by intros [= <- _]|].
  destruct (decide (leaf ∈ ms)); simpl; [|done].
  intros [= <- _] x [? _]%elem_of_filter_bool. done.
Qed.

Lemma fold_dedup_leaf_subset l ms ps ms' ps' :
  fold_result dedup_leaf (ms, ps) l = Ok (ms', ps') → ms' ⊆ ms.
Proof.
  revert ms ps. induction l as [|leaf l IH]; intros ms ps; cbn [fold_result].
  - by intros [= <- _].
  - destruct (dedup_leaf (ms, ps) leaf) as [[ms1 ps1]|e] eqn:E;
      cbn [mbind result_bind]; [|done].
    intros H. apply IH in H. apply dedup_leaf_subset in E. set_solver.
Qed.

(** The roots [_dedup_scopes] returns are among the handles it was given. *)
Lemma dedup_scopes_roots_subset scopes roots paths :
  _dedup_scopes scopes = Ok (roots, paths) → roots ⊆ scopes.
Proof.
  intros H%fold_dedup_leaf_subset x Hx. apply elem_of_ordered_keys. auto.
Qed.

(** The collections of a group [repack] returns: none is frozen and each is
    accepted by some output filter. *)
Definition declared_output (fs : Filters) (groups : VariableGroups) : Prop :=
  Forall (Forall (λ kv : string * Collection,
                    in_any_filter (out_variable_filters fs) kv.1 = true ∧
                    is_frozen kv.2 = false)) groups.

Lemma repack_scope_declared fs variables groups :
  repack_scope (out_variable_filters fs) variables = Ok groups →
  declared_output fs groups.
Proof.
  rewrite repack_scope_unfold. case_bool_decide; [|done]. intros [= <-].
  apply Forall_lookup. intros i g Hg.
  pose proof (lookup_lt_Some _ _ _ Hg) as Hlt.
  rewrite length_group_collections in Hlt.
  destruct (lookup_lt_is_Some_2 _ _ Hlt) as [f Hf].
  rewrite (group_collections_lookup _ _ _ _ Hf) in Hg. simplify_eq.
  apply Forall_forall. intros [col c] [Hin Hp]%elem_of_filter_bool.
  apply elem_of_filter_bool in Hin as [_ Hfrozen]. simpl in *.
  apply andb_true_iff in Hp as [_ Hp]. split.
  - apply in_any_filter_true. exists f. split; [|done].
    by eapply list_elem_of_lookup_2.
  - by apply negb_true_iff.
Qed.

Lemma map_M_Ok {A B} (R : B → Prop) (f : A → M B) l :
  (∀ a h b, (f a h).1 = Ok b → R b) →
  ∀ h bs, (map_M f l h).1 = Ok bs → Forall R bs.
Proof.
  intros Hf. induction l as [|a l IH]; intros h bs; simpl.
  - intros [= <-]. constructor.
  - unfold mbind, M_bind. destruct (f a h) as [[b|e] h1] eqn:Ea; simpl; [|done].
    destruct (map_M f l h1) as [[bs'|e] h2] eqn:El; simpl; [|done].
    intros [= <-]. constructor.
    + apply (Hf a h). by rewrite Ea.
    + apply (IH h1). by rewrite El.
Qed.

(** Whatever [repack] returns is declared output only. *)
Lemma repack_declared fs paths tree h out :
  (repack fs paths tree h).1 = Ok out → Forall (declared_output fs) out.
Proof.
  unfold repack. unfold mbind at 1, M_bind at 1, lift_result.
  destruct (_dedup_scopes tree) as [[inner inner_paths]|e]; simpl; [|done].
  destruct (negb _); [done|]. apply map_M_Ok.
  intros s h1 groups. unfold mbind, M_bind, invalidate, modify. simpl.
  destruct (_validate_trace_level s _) as [[[]|e] h2]; simpl; [|done].
  destruct (get_state s h2) as [[st|e] h3]; simpl; [|done].
  unfold lift_result. simpl. apply repack_scope_declared.
Qed.

Lemma keeps_pure {A} (I : Heap → Prop) (m : M A) : (∀ h, (m h).2 = h) → keeps I m.
Proof. intros Hm h Hh. by rewrite Hm. Qed.

Lemma get_state_heap s h : (get_state s h).2 = h.
Proof. unfold get_state. by destruct (objects h !! scope_id s). Qed.

Lemma validate_trace_level_heap s h : (_validate_trace_level s h).2 = h.
Proof.
  unfold _validate_trace_level, mbind, M_bind, get_state.
  destruct (objects h !! scope_id s) as [st|]; [|done]. by destruct (trace_valid st).
Qed.

Section invariant.
Context (n0 : nat) (objs0 : gmap nat ScopeState) (tr0 : list Event).
#[local] Abbreviation Inv := (Inv n0 objs0 tr0).

Lemma Inv_invalidate live s :
  fresh n0 s →
  hoare (Inv live) (invalidate s)
    (λ r h, r = Ok () ∧
            Inv (List.filter (λ x, negb (bool_decide (x = s))) live) h).
Proof.
  intros Hs h [Hfr Hn Hin Hiss Hch (evs & Htr & Hp & Hseq)].
  split; [done|]. apply fresh_id in Hs. split; simpl; try done.
  - intros id Hid. rewrite lookup_alter_ne by lia. auto.
  - intros id st. rewrite lookup_alter. case_decide; [|by apply Hch].
    subst. destruct (objects h !! scope_id s) as [st'|] eqn:E; [|done].
    intros [= <-] Hle. simpl. by eapply Hch.
  - exists (evs ++ [EvInvalidate s]). rewrite Htr, app_assoc. split; [done|].
    split; [|by apply sequenced_snoc].
    rewrite pending_snoc. simpl. intros x [Hx Hne]%elem_of_filter_bool.
    apply elem_of_filter_bool. auto.
Qed.

Lemma Inv_invalidate_all live l :
  Forall (fresh n0) l →
  hoare (Inv live) (for_each invalidate l)
    (λ r h, r = Ok () ∧
            Inv (List.filter (λ x, negb (bool_decide (x ∈ l))) live) h).
Proof.
  revert live. induction l as [|s l IH]; intros live Hl; simpl.
  - apply hoare_ret. intros h Hh. split; [done|]. eapply Inv_mono; [|done].
    intros x Hx. apply elem_of_filter_bool. done.
  - apply Forall_cons in Hl as [Hs Hl].
    eapply hoare_bind; [by apply Inv_invalidate | | by intros ?? [[=] _]].
    intros []. eapply hoare_weaken; [by apply IH | by intros ? [_ ?] |].
    intros r h [-> Hh]. split; [done|]. eapply Inv_mono; [|done].
    intros x [[Hx Hne]%elem_of_filter_bool Hnl]%elem_of_filter_bool.
    apply elem_of_filter_bool. split; [done|].
    apply negb_true_iff, bool_decide_eq_false in Hne, Hnl.
    apply negb_true_iff, bool_decide_eq_false. set_solver.
Qed.

Lemma Inv_get_state live s :
  hoare (Inv live) (get_state s)
    (λ r h, Inv live h ∧
            match r with
            | Ok st => objects h !! scope_id s = Some st
            | Raise _ => True
            end).
Proof.
  intros h Hh. unfold get_state.
  destruct (objects h !! scope_id s) eqn:E; simpl; auto.
Qed.

Lemma Inv_new_scope variables nm rngs_ mut p :
  from_option (fresh n0) True p →
  hoare (Inv []) (new_scope variables nm rngs_ mut p)
    (λ r h, Inv [] h ∧ ∃ s, r = Ok s ∧ fresh n0 s ∧ name s = nm ∧ parent s = p).
Proof.
  intros Hp h [Hfr Hn Hin Hiss Hch (evs & Htr & Hpend & Hseq)].
  split; [|eexists; split; [done|]; split; [|done]].
  - split; simpl; try done.
    + intros id Hid. rewrite lookup_insert_ne by lia. auto.
    + lia.
    + intros id st. rewrite lookup_insert. case_decide.
      * intros [= <-] _. simpl. constructor.
      * apply Hch.
    + exists (evs ++ [EvNewScope (MkScope (next_id h) nm p)]).
      rewrite Htr, app_assoc. split; [done|].
      assert (pending evs = []) as Hnil.
      { destruct (pending evs) as [|x ?]; [done|].
        exfalso. eapply not_elem_of_nil, (Hpend x). left. }
      split; [by rewrite pending_snoc|]. by apply sequenced_snoc.
  - unfold fresh. simpl. constructor; [done|]. by destruct p.
Qed.

Lemma Inv_set_state live s st :
  fresh n0 s →
  Forall (λ kv, fresh n0 kv.2) (reuse_scopes st) →
  hoare (Inv live) (set_state s st) (λ r h, r = Ok () ∧ Inv live h).
Proof.
  intros Hs Hst h [Hfr Hn Hin Hiss Hch Htr]. split; [done|].
  apply fresh_id in Hs. split; simpl; try done.
  - intros id Hid. rewrite lookup_insert_ne by lia. auto.
  - intros id st'. rewrite lookup_insert. case_decide; [|by apply Hch].
    by intros [= <-] _.
Qed.

Lemma Inv_push s nm reuse :
  fresh n0 s →
  hoare (Inv []) (push s nm reuse)
    (λ r h, Inv [] h ∧ match r with Ok c => fresh n0 c | Raise _ => True end).
Proof.
  intros Hs. unfold push.
  eapply hoare_bind; [apply Inv_get_state | | by intros ?? [? _]].
  intros st. simpl.
  destruct (if reuse then _ else None) as [[nm' child]|] eqn:Efind.
  - apply hoare_ret. intros h [Hh Hst]. split; [done|].
    destruct reuse; [|done]. apply find_some in Efind as [Hin _].
    apply list_elem_of_In in Hin. apply fresh_id in Hs.
    pose proof (inv_children _ _ _ _ _ Hh _ _ Hst Hs) as Hch.
    rewrite Forall_forall in Hch. apply (Hch _ Hin).
  - eapply hoare_bind with
      (Q1 := λ r h, Inv [] h ∧ ∃ c, r = Ok c ∧ fresh n0 c).
    + eapply hoare_weaken; [by apply (Inv_new_scope [] nm [] (mutable st) (Some s)) | |].
      * by intros ? [? _].
      * intros r h [? (c & -> & ? & _)]. eauto.
    + intros child.
      eapply hoare_bind with
        (Q1 := λ r h, (Inv [] h ∧ fresh n0 child) ∧
                      match r with
                      | Ok st' => objects h !! scope_id s = Some st'
                      | Raise _ => True
                      end).
      * intros h [Hh (c & [= <-] & Hc)].
        destruct (Inv_get_state [] s h Hh) as [? ?]. auto.
      * intros st'. eapply hoare_bind with
          (Q1 := λ r h, Inv [] h ∧ fresh n0 child).
        -- intros h [[Hh Hc] Hst'].
           apply fresh_id in Hs as Hid.
           pose proof (inv_children _ _ _ _ _ Hh _ _ Hst' Hid) as Hch.
           edestruct (Inv_set_state [] s) as [_ ?]; [done | | exact Hh | by split].
           simpl. apply Forall_app. split; [done|]. by constructor.
        -- intros []. apply hoare_ret. by intros h [? ?].
        -- by intros ?? [? _].
      * by intros ?? [[? _] _].
    + by intros ?? [? _].
Qed.

Lemma Inv_push_path path : ∀ s,
  fresh n0 s →
  hoare (Inv []) (push_path s path)
    (λ r h, Inv [] h ∧ match r with Ok c => fresh n0 c | Raise _ => True end).
Proof.
  induction path as [|nm path IH]; intros s Hs; simpl.
  - apply hoare_ret. auto.
  - eapply hoare_bind with
      (Q1 := λ r h, Inv [] h ∧ match r with Ok c => fresh n0 c | Raise _ => True end).
    + by apply Inv_push.
    + intros c h [Hh Hc]. by apply IH.
    + by intros ?? [? _].
Qed.

Lemma mapping_get_elem (mapping : list (Scope * Scope)) r s :
  mapping_get mapping r = Some s → (r, s) ∈ mapping.
Proof.
  unfold mapping_get. destruct (List.find _ _) as [[r' s']|] eqn:E; [|done].
  intros [= <-]. apply find_some in E as [Hin Hr].
  apply bool_decide_eq_true in Hr. simpl in Hr. subst.
  apply list_elem_of_In. by apply in_rev.
Qed.

Lemma Inv_dup_scopes orig_scopes scopes paths :
  Forall (fresh n0) scopes →
  hoare (Inv []) (_dup_scopes orig_scopes scopes paths)
    (λ r h, Inv [] h ∧
            match r with Ok l => Forall (fresh n0) l | Raise _ => True end).
Proof.
  intros Hscopes. unfold _dup_scopes. apply hoare_map_M.
  intros [r path] _. simpl.
  destruct (mapping_get _ r) as [s|] eqn:E.
  - apply Inv_push_path. apply mapping_get_elem in E.
    apply elem_of_zip_r in E. rewrite Forall_forall in Hscopes. auto.
  - by apply hoare_raise.
Qed.

(** The invariant of the payload's run: the live inner scopes are among those
    in the [inner_scopes] cell. *)
Definition PInv (h : Heap) : Prop := Inv (inner_scopes h) h.

Lemma filter_not_elem_of_self (l : list Scope) :
  List.filter (λ x, negb (bool_decide (x ∈ l))) l = [].
Proof.
  apply elem_of_nil_inv. intros x [Hx Hn]%elem_of_filter_bool.
  apply negb_true_iff, bool_decide_eq_false in Hn. done.
Qed.

Lemma Inv_scope_fn fs scopes paths variable_groups_xs rng_groups_xs :
  hoare PInv (scope_fn fs scopes paths variable_groups_xs rng_groups_xs)
    (λ r h, PInv h ∧
            match r with Ok l => Forall (fresh n0) l | Raise _ => True end).
Proof.
  unfold scope_fn. apply hoare_get_heap. intros h0.
  eapply hoare_bind with (Q1 := λ r h, r = Ok () ∧ Inv [] h ∧ inner_scopes h = inner_scopes h0).
  { intros h [Hh ->]. unfold PInv in Hh.
    destruct (Inv_invalidate_all (inner_scopes h0) (inner_scopes h0)
                (inv_inner _ _ _ _ _ Hh) h0 Hh) as [Hr Hinv].
    rewrite filter_not_elem_of_self in Hinv. split; [done|]. split; [done|].
    apply for_each_invalidate_inner. }
  2:{ by intros ?? [[=] _]. }
  intros []. eapply hoare_bind with (Q1 := λ r h, r = Ok () ∧ Inv [] h).
  { apply hoare_modify. intros h (_ & [] & _). split; [done|]. by split. }
  2:{ by intros ?? [[=] _]. }
  intros []. eapply hoare_bind with (Q1 := λ r h, Inv [] h).
  { eapply hoare_weaken with (P' := Inv []) (Q' := λ _, Inv []);
      [| by intros ? [_ ?] | done].
    apply keeps_for_each. intros [[variable_groups rng_groups] scope] _.
    eapply hoare_bind; [apply Inv_get_state | | by intros ?? [? _]].
    intros root_st. simpl.
    eapply hoare_bind with (Q1 := λ r h, Inv [] h ∧ ∃ s, r = Ok s ∧ fresh n0 s).
    - eapply hoare_weaken; [by apply Inv_new_scope | by intros ? [? _] |].
      intros r h [? (c & -> & ? & _)]. eauto.
    - intros inner_scope. apply hoare_modify.
      intros h [[] (c & [= <-] & Hc)]. split; simpl; try done.
      apply Forall_app. split; [done|]. by constructor.
    - by intros ?? [? _]. }
  2:{ intros e h Hh. split; [|done]. eapply Inv_mono; [|done]. set_solver. }
  intros []. apply hoare_get_heap. intros h1.
  eapply hoare_bind with
    (Q1 := λ r h, Inv [] h ∧ match r with Ok l => Forall (fresh n0) l | Raise _ => True end).
  { intros h [Hh ->]. apply Inv_dup_scopes; [|done]. by destruct Hh. }
  2:{ intros e h [Hh _]. split; [|done]. eapply Inv_mono; [|done]. set_solver. }
  intros new_inner_scopes.
  intros h [[Hfr Hn Hin Hiss Hch (evs & Htr & Hpend & Hseq)] Hnew].
  split; [|done]. split; simpl; try done.
  - apply Forall_app. split; [done|]. by constructor.
  - exists (evs ++ [EvScopeFn new_inner_scopes]). rewrite Htr, app_assoc.
    assert (pending evs = []) as Hnil.
    { destruct (pending evs) as [|x ?]; [done|].
      exfalso. eapply not_elem_of_nil, (Hpend x). left. }
    split; [done|]. split; [by rewrite pending_snoc, Hnil | by apply sequenced_snoc].
Qed.

Lemma Inv_invalidate_cell live cell s :
  fresh n0 s →
  keeps (λ h, Inv live h ∧ inner_scopes h = cell) (invalidate s).
Proof.
  intros Hs h [Hh Hcell]. destruct (Inv_invalidate live s Hs h Hh) as [_ H].
  split; [|done]. eapply Inv_mono; [|exact H].
  by intros x [? _]%elem_of_filter_bool.
Qed.

Lemma Inv_repack fs paths tree :
  Forall (fresh n0) tree →
  keeps PInv (repack fs paths tree).
Proof.
  intros Htree h0 Hh0. unfold repack, mbind at 1, M_bind at 1, lift_result.
  destruct (_dedup_scopes tree) as [[inner inner_paths]|e] eqn:Ededup; simpl; [|done].
  destruct (negb _); [done|].
  apply dedup_scopes_roots_subset in Ededup.
  assert (Hgen : keeps (λ h, Inv (inner_scopes h0) h ∧ inner_scopes h = inner_scopes h0)
            (map_M (λ inner_scope,
               _ ← invalidate inner_scope;
               _ ← _validate_trace_level inner_scope;
               st ← get_state inner_scope;
               lift_result (repack_scope (out_variable_filters fs) (_variables st)))
               inner)).
  { apply keeps_map_M. intros s Hs.
    assert (fresh n0 s) as Hfresh.
    { rewrite Forall_forall in Htree. apply Htree, Ededup, Hs. }
    apply keeps_bind; [by apply Inv_invalidate_cell|]. intros _.
    apply keeps_bind; [apply keeps_pure, validate_trace_level_heap|]. intros _.
    apply keeps_bind; [apply keeps_pure, get_state_heap|]. intros st.
    by apply hoare_lift_result. }
  destruct (Hgen h0) as [H1 H2]; [done|]. unfold PInv.
  rewrite <- H2 in H1. exact H1.
Qed.

Lemma Inv_set_variables s variables :
  fresh n0 s →
  keeps PInv (set_variables s variables).
Proof.
  intros Hs h [Hfr Hn Hin Hiss Hch Htr]. apply fresh_root in Hs.
  split; simpl; try done.
  - intros id Hid. rewrite lookup_alter_ne by lia. auto.
  - intros id st. rewrite lookup_alter. case_decide; [|by apply Hch].
    subst. destruct (objects h !! scope_id (root s)) as [st'|] eqn:E; [|done].
    intros [= <-] Hle. simpl. by eapply Hch.
Qed.

Lemma Inv_run_payload {Y} fs scopes paths (p : Payload Y) :
  keeps PInv (run_payload fs scopes paths p).
Proof.
  induction p as [y out|e|vgs rgs k IH|gen k IH|gen i variables k IH]; simpl.
  - by apply hoare_ret.
  - by apply hoare_raise.
  - eapply hoare_bind with (Q1 := λ _, PInv); [|by intros; apply IH|done].
    apply hoare_attempt. eapply hoare_weaken; [apply Inv_scope_fn|done|].
    by intros ?? [? _].
  - apply hoare_get_heap. intros h0.
    eapply hoare_bind with (Q1 := λ _, PInv); [|by intros; apply IH|done].
    destruct (issued h0 !! gen) as [tree|] eqn:E.
    + apply hoare_attempt. intros h [Hh ->]. apply Inv_repack; [|done].
      eapply Forall_lookup_1; [|exact E]. by destruct Hh.
    + apply hoare_ret. by intros ? [? _].
  - apply hoare_get_heap. intros h0.
    eapply hoare_bind with (Q1 := λ _, PInv); [|by intros; apply IH|done].
    destruct (issued h0 !! gen ≫= _) as [s|] eqn:E.
    + intros h [Hh ->]. apply Inv_set_variables; [|done].
      destruct (issued h0 !! gen) as [tree|] eqn:Et; [|done]. simpl in E.
      eapply Forall_lookup_1; [|exact E].
      eapply Forall_lookup_1; [|exact Et]. by destruct Hh.
    + apply hoare_ret. by intros ? [? _].
Qed.

End invariant.

(** ** What a computation may change *)

(** Every object was allocated below [next_id]. *)
Definition dom_bounded (h : Heap) : Prop :=
  ∀ id, is_Some (objects h !! id) → id < next_id h.

(** The collection [col] of the object numbered [id]. *)
Definition lookup_collection (h : Heap) (id : nat) (col : string) : option Collection :=
  objects h !! id ≫= λ st, get col (_variables st).

(** The objects, collections and events a computation is allowed. *)
Record Footprint : Type := MkFootprint {
  fp_object : nat → Prop;
  fp_collection : nat → string → Prop;
  fp_event : Event → Prop;
}.

(** [h'] differs from [h] within the footprint only. *)
Record within (T : Footprint) (h h' : Heap) : Prop := MkWithin {
  within_objects : ∀ id, ¬ fp_object T id → objects h' !! id = objects h !! id;
  within_collections : ∀ id col, ¬ fp_collection T id col →
      lookup_collection h' id col = lookup_collection h id col;
  within_trace : ∃ evs, trace h' = trace h ++ evs ∧ Forall (fp_event T) evs;
  within_next : next_id h ≤ next_id h';
  within_bounded : dom_bounded h → dom_bounded h';
}.

Definition effect {A} (T : Footprint) (m : M A) : Prop := ∀ h, within T h (m h).2.

Lemma within_refl T h : within T h h.
Proof.
  split; try done. exists []. by rewrite app_nil_r.
Qed.

Lemma within_trans T h1 h2 h3 : within T h1 h2 → within T h2 h3 → within T h1 h3.
Proof.
  intros [Ho1 Hc1 (e1 & Ht1 & He1) Hn1 Hb1] [Ho2 Hc2 (e2 & Ht2 & He2) Hn2 Hb2].
  split.
  - intros id Hid. by rewrite Ho2, Ho1.
  - intros id col Hid. by rewrite Hc2, Hc1.
  - exists (e1 ++ e2). rewrite Ht2, Ht1, app_assoc. split; [done|].
    by apply Forall_app.
  - lia.
  - auto.
Qed.

Lemma within_mono (T T' : Footprint) h h' :
  (∀ id, fp_object T id → fp_object T' id) →
  (∀ id col, fp_collection T id col → fp_collection T' id col) →
  (∀ ev, fp_event T ev → fp_event T' ev) →
  within T h h' → within T' h h'.
Proof.
  intros HO HC HE [Ho Hc (evs & Ht & He) Hn Hb]. split; try done.
  - intros id Hid. apply Ho. auto.
  - intros id col Hid. apply Hc. auto.
  - exists evs. split; [done|]. eapply Forall_impl; [exact He | exact HE].
Qed.

Lemma effect_pure {A} T (m : M A) : (∀ h, (m h).2 = h) → effect T m.
Proof. intros Hm h. rewrite Hm. apply within_refl. Qed.

Lemma effect_bind {A B} T (m : M A) (k : A → M B) :
  effect T m → (∀ a, effect T (k a)) → effect T (m ≫= k).
Proof.
  intros Hm Hk h. specialize (Hm h). unfold mbind, M_bind.
  destruct (m h) as [[a|e] h1]; simpl in *; [|done].
  eapply within_trans; [exact Hm | apply Hk].
Qed.

Lemma effect_get_heap {B} T (k : Heap → M B) :
  (∀ h0, effect T (k h0)) → effect T (get_heap ≫= k).
Proof. intros Hk h. apply (Hk h h). Qed.

Lemma effect_for_each {A} T (f : A → M unit) l :
  (∀ a, a ∈ l → effect T (f a)) → effect T (for_each f l).
Proof.
  induction l as [|a l IH]; intros Hf; simpl.
  - by apply effect_pure.
  - apply effect_bind; [apply Hf; left|]. intros _. apply IH.
    intros b Hb. apply Hf. by right.
Qed.

Lemma effect_map_M {A B} T (f : A → M B) l :
  (∀ a, a ∈ l → effect T (f a)) → effect T (map_M f l).
Proof.
  induction l as [|a l IH]; intros Hf; simpl.
  - by apply effect_pure.
  - apply effect_bind; [apply Hf; left|]. intros b.
    apply effect_bind; [apply IH; intros; apply Hf; by right|].
    intros r. by apply effect_pure.
Qed.

Lemma effect_mono {A} (T T' : Footprint) (m : M A) :
  (∀ id, fp_object T id → fp_object T' id) →
  (∀ id col, fp_collection T id col → fp_collection T' id col) →
  (∀ ev, fp_event T ev → fp_event T' ev) →
  effect T m → effect T' m.
Proof. intros ??? Hm h. by eapply within_mono. Qed.

(** [make_rng] advances a counter of its scope and touches no collection. *)
Lemma effect_make_rng s kind :
  effect (MkFootprint (λ id, id = scope_id s) (λ _ _, False)
            (λ ev, ev = EvMakeRng s kind))
    (make_rng s kind).
Proof.
  intros h. unfold make_rng, mbind, M_bind, get_state.
  destruct (objects h !! scope_id s) as [st|] eqn:Est; simpl; [|apply within_refl].
  destruct (get kind (rngs st)) as [key|]; simpl; [|apply within_refl].
  split; simpl.
  - intros id Hid. by rewrite lookup_insert_ne.
  - intros id col _. unfold lookup_collection. simpl.
    rewrite lookup_insert. case_decide; [|done]. subst. by rewrite Est.
  - exists [EvMakeRng s kind]. split; [done|]. by constructor.
  - done.
  - intros Hb id. simpl. rewrite lookup_insert. case_decide; [|apply Hb].
    intros _. subst. apply Hb. by rewrite Est.
Qed.

(** [put_variable] changes one collection of its scope, and says so. *)
Lemma effect_put_variable s col var value :
  effect (MkFootprint (λ id, id = scope_id s)
            (λ id c, id = scope_id s ∧ c = col)
            (λ ev, ev = EvPutVariable s col var value))
    (put_variable s col var value).
Proof.
  intros h. unfold put_variable, mbind, M_bind, get_state.
  destruct (objects h !! scope_id s) as [st|] eqn:Est; simpl; [|apply within_refl].
  destruct (objects h !! scope_id (root s)) as [root_st|]; simpl; [|apply within_refl].
  destruct (_invalid st); simpl; [apply within_refl|].
  destruct (negb _); simpl; [apply within_refl|].
  destruct (default _ _) as [entries|entries]; simpl; [|apply within_refl].
  split; simpl.
  - intros id Hid. by rewrite lookup_insert_ne.
  - intros id c Hid. unfold lookup_collection. simpl.
    rewrite lookup_insert. case_decide as Hc; [|done]. subst id.
    rewrite Est. simpl. rewrite get_set_ne; [done|]. intros ->. by apply Hid.
  - exists [EvPutVariable s col var value]. split; [done|]. by constructor.
  - done.
  - intros Hb id. simpl. rewrite lookup_insert. case_decide; [|apply Hb].
    intros _. subst. apply Hb. by rewrite Est.
Qed.

Definition no_footprint : Footprint := MkFootprint (λ _, False) (λ _ _, False) (λ _, False).

Lemma effect_pack_variable_groups fs scopes :
  effect no_footprint (pack_variable_groups fs scopes).
Proof.
  unfold pack_variable_groups. apply effect_bind.
  - apply effect_map_M. intros s _.
    apply effect_bind; [apply effect_pure, validate_trace_level_heap|]. intros _.
    apply effect_bind; [apply effect_pure, get_state_heap|]. intros st.
    by apply effect_pure.
  - intros l. by apply effect_pure.
Qed.

(** Making the rng groups advances counters of the canonical scopes; no
    collection changes. *)
Definition rng_footprint (scopes : list Scope) : Footprint :=
  MkFootprint (λ id, id ∈ scope_id <$> scopes) (λ _ _, False)
    (λ ev, ∃ s kind, s ∈ scopes ∧ ev = EvMakeRng s kind).

Lemma effect_pack_rng_groups fs scopes :
  effect (rng_footprint scopes) (pack_rng_groups fs scopes).
Proof.
  unfold pack_rng_groups. apply effect_map_M. intros s Hs.
  apply effect_bind; [apply effect_pure, get_state_heap|]. intros st.
  apply effect_map_M. intros g _. apply effect_map_M. intros [kind key] _.
  apply effect_bind; [|intros; by apply effect_pure].
  eapply effect_mono; [| | |apply effect_make_rng]; simpl.
  - intros id ->. by apply list_elem_of_fmap_2.
  - done.
  - intros ev ->. eauto.
Qed.

(** The entries the write-back is to write: scope by scope, group by group,
    collection by collection. *)
Definition expected_puts (scopes : list Scope)
    (out_variable_groups_xs : list VariableGroups) : list Event :=
  x ← zip scopes out_variable_groups_xs;
  out_variable_group ← x.2;
  kv ← out_variable_group;
  nv ← items kv.2;
  [EvPutVariable x.1 kv.1 nv.1 nv.2].

Definition write_footprint (scopes : list Scope)
    (out_variable_groups_xs : list VariableGroups) : Footprint :=
  MkFootprint
    (λ id, id ∈ scope_id <$> scopes)
    (λ id col, ∃ s groups g c,
       (s, groups) ∈ zip scopes out_variable_groups_xs ∧ id = scope_id s ∧
       g ∈ groups ∧ (col, c) ∈ g)
    (λ ev, ev ∈ expected_puts scopes out_variable_groups_xs).

Lemma elem_of_expected_puts scopes out ev :
  ev ∈ expected_puts scopes out ↔
  ∃ s groups g col c var value,
    (s, groups) ∈ zip scopes out ∧ g ∈ groups ∧ (col, c) ∈ g ∧
    (var, value) ∈ items c ∧ ev = EvPutVariable s col var value.
Proof.
  unfold expected_puts. rewrite list_elem_of_bind. split.
  - intros ([s groups] & H & Hz). simpl in H.
    apply list_elem_of_bind in H as (g & H & Hg).
    apply list_elem_of_bind in H as ([col c] & H & Hc).
    apply list_elem_of_bind in H as ([var value] & H & Hv).
    apply list_elem_of_singleton in H. simpl in *. naive_solver.
  - intros (s & groups & g & col & c & var & value & Hz & Hg & Hc & Hv & ->).
    exists (s, groups). split; [|done]. simpl.
    apply list_elem_of_bind. exists g. split; [|done].
    apply list_elem_of_bind. exists (col, c). split; [|done].
    apply list_elem_of_bind. exists (var, value). split; [|done].
    simpl. by apply list_elem_of_singleton.
Qed.

Lemma effect_write_back scopes out :
  effect (write_footprint scopes out) (write_back scopes out).
Proof.
  unfold write_back. apply effect_for_each. intros [s groups] Hz. simpl.
  apply effect_for_each. intros g Hg.
  apply effect_for_each. intros [col c] Hc.
  apply effect_for_each. intros [var value] Hv. simpl.
  eapply effect_mono; [| | |apply effect_put_variable]; simpl.
  - intros id ->. apply list_elem_of_fmap_2. by eapply elem_of_zip_l.
  - intros id col' [-> ->]. eauto 10.
  - intros ev ->. apply elem_of_expected_puts.
    exists s, groups, g, col, c, var, value. done.
Qed.

(** The events of a loop that writes, entry by entry: on success all of
    them, in order; when an entry raises, those before it. *)
Definition writes_events {A} (m : M A) (evs : list Event) : Prop :=
  ∀ h, ∃ done, trace (m h).2 = trace h ++ done ∧ done `prefix_of` evs ∧
               (∀ a, (m h).1 = Ok a → done = evs).

Lemma writes_events_for_each {A} (f : A → M unit) (E : A → list Event) l :
  (∀ a, a ∈ l → writes_events (f a) (E a)) →
  writes_events (for_each f l) (a ← l; E a).
Proof.
  induction l as [|a l IH]; intros Hf h; simpl.
  - exists []. by rewrite app_nil_r.
  - destruct (Hf a (list_elem_of_here _ _) h) as (d1 & Ht1 & Hp1 & Hs1).
    unfold mbind, M_bind.
    destruct (f a h) as [[[]|e] h1] eqn:Ea; simpl in *.
    + destruct (IH (λ b Hb, Hf b (list_elem_of_further _ _ _ Hb)) h1)
        as (d2 & Ht2 & Hp2 & Hs2).
      rewrite (Hs1 () eq_refl) in *. exists (E a ++ d2).
      rewrite Ht2, Ht1, app_assoc. split; [done|]. split.
      * by apply prefix_app.
      * intros u Hu. f_equal. by eapply Hs2.
    + exists d1. split; [done|]. split; [|done]. by apply prefix_app_r.
Qed.

Lemma writes_events_put_variable s col var value :
  writes_events (put_variable s col var value) [EvPutVariable s col var value].
Proof.
  intros h. unfold put_variable, mbind, M_bind, get_state.
  assert (Hnone : ∃ done, trace h = trace h ++ done ∧
            done `prefix_of` [EvPutVariable s col var value])
    by (exists []; rewrite app_nil_r; split; [done | apply prefix_nil]).
  destruct (objects h !! scope_id s) as [st|]; simpl; [|naive_solver].
  destruct (objects h !! scope_id (root s)) as [root_st|]; simpl; [|naive_solver].
  destruct (_invalid st); simpl; [naive_solver|].
  destruct (negb _); simpl; [naive_solver|].
  destruct (default _ _) as [entries|entries]; simpl; [|naive_solver].
  exists [EvPutVariable s col var value]. done.
Qed.

Lemma writes_events_write_back scopes out :
  writes_events (write_back scopes out) (expected_puts scopes out).
Proof.
  unfold write_back, expected_puts.
  apply writes_events_for_each. intros [s groups] _.
  apply writes_events_for_each. intros g _.
  apply writes_events_for_each. intros [col c] _.
  apply writes_events_for_each. intros [var value] _.
  apply writes_events_put_variable.
Qed.

(** ** The payload phase of a pack call *)

Lemma Inv_emit_exit n0 objs0 tr0 b h :
  PInv n0 objs0 tr0 h → PInv n0 objs0 tr0 (add_event (EvPayloadExit b) h).
Proof.
  intros [Hfr Hn Hin Hiss Hch (evs & Htr & Hp & Hseq)]. split; simpl; try done.
  exists (evs ++ [EvPayloadExit b]). rewrite Htr, app_assoc. split; [done|].
  split; [by rewrite pending_snoc | by apply sequenced_snoc].
Qed.

Lemma for_each_invalidate_run l h :
  (for_each invalidate l h).1 = Ok () ∧
  trace (for_each invalidate l h).2 = trace h ++ (EvInvalidate <$> l).
Proof.
  revert h. induction l as [|s l IH]; intros h; simpl.
  - by rewrite app_nil_r.
  - unfold mbind, M_bind. simpl. destruct (IH
      (add_event (EvInvalidate s)
         (set_objects
            (alter (λ st, MkScopeState (_variables st) (rngs st) (rng_counters st)
                            (mutable st) true (trace_valid st) (reuse_scopes st))
               (scope_id s)) h))) as [-> ->].
    simpl. by rewrite <- app_assoc.
Qed.

Definition is_ok {A} (r : result A) : bool :=
  match r with Ok _ => true | Raise _ => false end.

(** The heap in which the payload starts. *)
Definition payload_start (h : Heap) : Heap :=
  add_event EvPayloadEnter (MkHeap (objects h) (next_id h) [] [] (trace h)).

(** [pack_call], step by step. *)
Lemma pack_call_unfold {Y} fs scopes paths (p : Payload Y) h :
  pack_call fs scopes paths p h =
    let r := (run_payload fs scopes paths p (payload_start h)).1 in
    let h3 := add_event (EvPayloadExit (is_ok r))
                (run_payload fs scopes paths p (payload_start h)).2 in
    (r, (for_each invalidate (inner_scopes h3) h3).2).
Proof.
  unfold pack_call, mbind at 1 2, M_bind at 1 2, modify, emit, finally. simpl.
  fold (payload_start h).
  unfold mbind at 1 2 3, M_bind at 1 2 3, attempt, lift_result, emit, modify, get_heap.
  destruct (run_payload fs scopes paths p (payload_start h)) as [r h2]. simpl.
  replace (match r with Ok _ => true | Raise _ => false end) with (is_ok r)
    by by destruct r.
  pose proof (for_each_invalidate_run
    (inner_scopes (add_event (EvPayloadExit (is_ok r)) h2))
    (add_event (EvPayloadExit (is_ok r)) h2)) as [Hr _].
  unfold mbind, M_bind. simpl in *.
  by destruct (for_each _ _ _) as [[[]|e] h3]; simplify_eq/=.
Qed.

(** The result of [pack_call] is the payload's. *)
Lemma pack_call_result {Y} fs scopes paths (p : Payload Y) h :
  (pack_call fs scopes paths p h).1 =
  (run_payload fs scopes paths p (payload_start h)).1.
Proof. by rewrite pack_call_unfold. Qed.

(** Whatever the payload does and however it ends, [pack_call] leaves every
    object allocated before it as it was; its events, from the payload's
    start to the invalidations of the [finally], are sequenced; the payload's
    exit is among them; and at the end no inner scope handed out is live. *)
Lemma pack_call_spec {Y} fs scopes paths (p : Payload Y) h :
  dom_bounded h →
  (∀ id, id < next_id h →
     objects (pack_call fs scopes paths p h).2 !! id = objects h !! id) ∧
  next_id h ≤ next_id (pack_call fs scopes paths p h).2 ∧
  ∃ evs cell,
    trace (pack_call fs scopes paths p h).2 =
      trace h ++ EvPayloadEnter ::
        evs ++ EvPayloadExit (is_ok (pack_call fs scopes paths p h).1) ::
        (EvInvalidate <$> cell) ∧
    sequenced (evs ++ EvPayloadExit (is_ok (pack_call fs scopes paths p h).1) ::
               (EvInvalidate <$> cell)) ∧
    pending (evs ++ EvPayloadExit (is_ok (pack_call fs scopes paths p h).1) ::
             (EvInvalidate <$> cell)) = [].
Proof.
  intros Hb. rewrite pack_call_unfold. cbv zeta.
  set (I := PInv (next_id h) (objects h) (trace h ++ [EvPayloadEnter])).
  assert (Hstart : I (payload_start h)).
  { split; simpl; try done.
    - intros id st Hst Hle. assert (id < next_id h); [|lia]. apply Hb. by rewrite Hst.
    - exists []. rewrite app_nil_r. split; [done|]. split; [done | apply sequenced_nil]. }
  pose proof (Inv_run_payload _ _ _ fs scopes paths p _ Hstart) as Hrun.
  destruct (run_payload fs scopes paths p (payload_start h)) as [r h2].
  cbn [fst snd] in *.
  set (b := is_ok r).
  apply (Inv_emit_exit _ _ _ b) in Hrun.
  set (h3 := add_event (EvPayloadExit b) h2) in *.
  destruct (Inv_invalidate_all _ _ _ (inner_scopes h3) (inner_scopes h3)
              (inv_inner _ _ _ _ _ Hrun) h3 Hrun) as [Hr Hinv].
  rewrite filter_not_elem_of_self in Hinv.
  destruct (for_each_invalidate_run (inner_scopes h3) h3) as [_ Htr].
  destruct (for_each invalidate (inner_scopes h3) h3) as [r4 h4].
  cbn [fst snd] in *.
  destruct Hinv as [Hfr Hn _ _ _ (evs & Htr' & Hp & Hseq)].
  destruct Hrun as [_ _ _ _ _ (evs3 & Htr3 & _ & _)].
  split; [done|]. split; [done|].
  subst h3. simpl in *.
  destruct evs3 as [|ev evs3 _] using rev_ind.
  { rewrite app_nil_r in Htr3. apply app_inj_tail in Htr3 as [_ [=]]. }
  rewrite !app_assoc in Htr3. apply app_inj_tail in Htr3 as [Htr2 <-].
  exists evs3, (inner_scopes h2).
  assert (evs = evs3 ++ EvPayloadExit b :: (EvInvalidate <$> inner_scopes h2)) as ->.
  { rewrite Htr, Htr2 in Htr'. rewrite <- !app_assoc in Htr'. simpl in Htr'.
    by simplify_list_eq. }
  split.
  - rewrite Htr, Htr2, <- !app_assoc. done.
  - split; [done|]. destruct (pending _) as [|x ?]; [done|].
    exfalso. eapply not_elem_of_nil, (Hp x). left.
Qed.

(** ** Reading a trace *)

(** An event that makes an inner scope or hands out a tree of them. *)
Definition creation (ev : Event) : Prop :=
  match ev with EvNewScope _ | EvScopeFn _ => True | _ => False end.

(** An event that has to do with inner scopes. *)
Definition inner_event (ev : Event) : Prop :=
  match ev with EvNewScope _ | EvScopeFn _ | EvInvalidate _ => True | _ => False end.

Definition is_put (ev : Event) : Prop :=
  match ev with EvPutVariable _ _ _ _ => True | _ => False end.

(** Whenever a scope is made or a tree handed out, no inner scope handed out
    before is live. *)
Definition ordered (evs : list Event) : Prop :=
  ∀ i ev, evs !! i = Some ev → creation ev → pending (take i evs) = [].

Definition pending_from (live : list Scope) (evs : list Event) : list Scope :=
  foldl pending_step live evs.

Lemma pending_app evs1 evs2 : pending (evs1 ++ evs2) = pending_from (pending evs1) evs2.
Proof. unfold pending, pending_from. apply foldl_app. Qed.

Lemma pending_from_outer live evs :
  Forall (λ ev, ¬ inner_event ev) evs → pending_from live evs = live.
Proof.
  unfold pending_from. revert live.
  induction evs as [|ev evs IH]; intros live Hevs; simpl; [done|].
  apply Forall_cons in Hevs as [Hev Hevs]. rewrite IH by done.
  by destruct ev.
Qed.

Lemma sequenced_ordered evs : sequenced evs → ordered evs.
Proof.
  intros Hs i ev Hi Hc.
  specialize (Hs (take i evs) ev (drop (S i) evs)).
  rewrite take_drop_middle in Hs by done. specialize (Hs eq_refl).
  by destruct ev.
Qed.

Lemma sequenced_no_put evs : sequenced evs → Forall (λ ev, ¬ is_put ev) evs.
Proof.
  intros Hs. apply Forall_lookup. intros i ev Hi Hput.
  specialize (Hs (take i evs) ev (drop (S i) evs)).
  rewrite take_drop_middle in Hs by done. specialize (Hs eq_refl).
  by destruct ev.
Qed.

(** Events that have nothing to do with inner scopes, before and after,
    change neither the order nor what is live. *)
Lemma ordered_frame pre evs post :
  Forall (λ ev, ¬ inner_event ev) pre →
  Forall (λ ev, ¬ inner_event ev) post →
  ordered evs → pending evs = [] →
  ordered (pre ++ evs ++ post) ∧ pending (pre ++ evs ++ post) = [].
Proof.
  intros Hpre Hpost Hord Hpend.
  assert (Hpre' : ∀ l, pending (pre ++ l) = pending l).
  { intros l. rewrite pending_app.
    replace (pending pre) with (@nil Scope); [done|].
    symmetry. unfold pending. by apply (pending_from_outer []). }
  split.
  - intros i ev Hi Hc.
    destruct (decide (i < length pre)) as [Hlt|Hge].
    { rewrite lookup_app_l in Hi by done.
      rewrite Forall_lookup in Hpre. specialize (Hpre _ _ Hi). by destruct ev. }
    rewrite lookup_app_r in Hi by lia.
    rewrite take_app_ge by lia. rewrite Hpre'.
    destruct (decide (i - length pre < length evs)) as [Hlt|Hge'].
    + rewrite lookup_app_l in Hi by done. rewrite take_app_le by lia.
      by eapply Hord.
    + rewrite lookup_app_r in Hi by lia.
      rewrite Forall_lookup in Hpost. specialize (Hpost _ _ Hi). by destruct ev.
  - rewrite Hpre', pending_app, Hpend. by apply pending_from_outer.
Qed.

Lemma pending_from_live x live evs :
  x ∈ live → x ∈ pending_from live evs ∨ EvInvalidate x ∈ evs.
Proof.
  unfold pending_from. revert live.
  induction evs as [|ev evs IH]; intros live Hx; simpl; [by left|].
  assert (Hrest : x ∈ pending_step live ev →
            x ∈ foldl pending_step (pending_step live ev) evs ∨
            EvInvalidate x ∈ ev :: evs).
  { intros H. destruct (IH _ H); [by left | right; by right]. }
  destruct ev as [| s | | | hs | |]; try (by apply Hrest).
  - destruct (decide (s = x)) as [->|Hne]; [right; left|].
    apply Hrest. simpl. apply elem_of_filter_bool. split; [done|].
    apply negb_true_iff, bool_decide_eq_false. congruence.
  - apply Hrest. simpl. set_solver.
Qed.

(** If nothing is live at the end, every scope of a tree handed out was
    invalidated after it was handed out. *)
Lemma pending_nil_invalidated tr1 hs tr2 x :
  pending (tr1 ++ EvScopeFn hs :: tr2) = [] → x ∈ hs → EvInvalidate x ∈ tr2.
Proof.
  intros Hp Hx. rewrite (pending_app tr1 (_ :: _)) in Hp.
  unfold pending_from in Hp. simpl in Hp.
  destruct (pending_from_live x (pending tr1 ++ hs) tr2) as [Hin|]; [set_solver| |done].
  unfold pending_from in Hin. rewrite Hp in Hin. by apply elem_of_nil in Hin.
Qed.

(** At any instant the live inner scopes all come from one tree, the last
    handed out. *)
Lemma ordered_one_generation evs :
  ordered evs →
  ∀ tr1 tr2, evs = tr1 ++ tr2 →
    pending tr1 = [] ∨
    ∃ tra hs trb, tr1 = tra ++ EvScopeFn hs :: trb ∧ pending tr1 ⊆ hs.
Proof.
  intros Hord tr1. induction tr1 as [|ev tr1 IH] using rev_ind; intros tr2 Heq.
  { by left. }
  rewrite <- app_assoc in Heq. simpl in Heq. specialize (IH _ Heq).
  rewrite pending_snoc.
  assert (Hkeep : pending_step (pending tr1) ev ⊆ pending tr1 →
    pending_step (pending tr1) ev = [] ∨
    ∃ tra hs trb, tr1 ++ [ev] = tra ++ EvScopeFn hs :: trb ∧
                  pending_step (pending tr1) ev ⊆ hs).
  { intros Hsub. destruct IH as [Hnil|(tra & hs & trb & -> & Hp)].
    - left. rewrite Hnil in *. apply elem_of_nil_inv. intros x Hx.
      by apply Hsub, elem_of_nil in Hx.
    - right. exists tra, hs, (trb ++ [ev]). rewrite <- app_assoc. split; [done|].
      set_solver. }
  destruct ev as [| s | | | hs | |]; try (by apply Hkeep).
  - apply Hkeep. simpl. by intros x [? _]%elem_of_filter_bool.
  - right. exists tr1, hs, []. split; [done|]. simpl.
    specialize (Hord (length tr1) (EvScopeFn hs)).
    rewrite Heq, lookup_app_r, Nat.sub_diag in Hord by lia.
    rewrite take_app_length in Hord. by rewrite Hord.
Qed.

(** ** The whole pack call *)

(** A payload that returns, if it returns, the groups a call of [repack] has
    just yielded: the payload of [jit], [remat], [vmap], [named_call] and
    [custom_vjp]. *)
Fixpoint returns_repacked {Y} (p : Payload Y) : Prop :=
  match p with
  | Return _ out => False
  | Throw _ => True
  | CallScopeFn _ _ k => ∀ r, returns_repacked (k r)
  | CallRepack _ k =>
      ∀ r, (∃ y out, r = Ok out ∧ k r = Return y out) ∨ returns_repacked (k r)
  | SetVariables _ _ _ k => returns_repacked k
  end.

Lemma run_payload_declared {Y} fs scopes paths (p : Payload Y) :
  returns_repacked p →
  ∀ h y out, (run_payload fs scopes paths p h).1 = Ok (y, out) →
             Forall (declared_output fs) out.
Proof.
  induction p as [y' out'|e|vgs rgs k IH|gen k IH|gen i variables k IH];
    simpl; intros Hp h y out.
  - done.
  - done.
  - unfold mbind, M_bind, attempt.
    destruct (scope_fn fs scopes paths vgs rgs h) as [r h1]. by apply IH.
  - unfold mbind, M_bind, get_heap.
    destruct (issued h !! gen) as [tree|].
    + unfold attempt. destruct (repack fs paths tree h) as [r h1] eqn:Er.
      destruct (Hp r) as [(y' & out' & -> & ->)|Hk]; [|by apply IH].
      simpl. intros [= <- <-]. eapply repack_declared. by rewrite Er.
    + simpl. destruct (Hp (Raise IndexError)) as [(? & ? & [=] & _)|Hk].
      by apply IH.
  - unfold mbind at 1 2, M_bind at 1 2, get_heap.
    destruct (issued h !! gen ≫= (.!! i)) as [s|]; simpl; by apply IH.
Qed.

Lemma map_M_pure {A B} (f : A → M B) l :
  (∀ a h, (f a h).2 = h) → ∀ h, (map_M f l h).2 = h.
Proof.
  intros Hf. induction l as [|a l IH]; intros h; simpl; [done|].
  unfold mbind, M_bind. specialize (Hf a h).
  destruct (f a h) as [[b|e] h1]; simpl in *; subst; [|done].
  specialize (IH h). by destruct (map_M f l h) as [[r|e] h2].
Qed.

Lemma pack_variable_groups_heap fs scopes h :
  (pack_variable_groups fs scopes h).2 = h.
Proof.
  unfold pack_variable_groups, mbind at 1, M_bind at 1.
  assert (Hpure : ∀ h,
    (map_M (λ scope, _ ← _validate_trace_level scope; st ← get_state scope;
                     mret (group_collections (_variables st) (in_variable_filters fs)))
       scopes h).2 = h).
  { apply map_M_pure. intros s h'. unfold mbind, M_bind.
    pose proof (validate_trace_level_heap s h').
    destruct (_validate_trace_level s h') as [[[]|?] ?]; simpl in *; subst; [|done].
    pose proof (get_state_heap s h').
    by destruct (get_state s h') as [[?|?] ?]. }
  specialize (Hpure h). by destruct (map_M _ scopes h) as [[l|e] h1].
Qed.

#[local] Ltac phase_done :=
  repeat split;
  first [done | by left | set_solver | by apply prefix_nil | idtac].

(** What [pack] leaves behind, phase by phase: the events of the rng
    derivations, then those of the payload's run, then the writes of the
    write-back, a prefix of the entries of the groups [out] the payload
    returned (all of them when [pack] returns); and the objects and
    collections it leaves alone. *)
Lemma pack_phases {Y} fs (fn : list VariableGroups → list RngGroups → Payload Y)
    scope_tree h r h' :
  dom_bounded h →
  pack fs fn scope_tree h = (r, h') →
  ∃ scopes pre mid writes out,
    scopes ⊆ scope_tree ∧
    (∀ roots paths, _dedup_scopes scope_tree = Ok (roots, paths) → scopes = roots) ∧
    trace h' = trace h ++ pre ++ mid ++ writes ∧
    Forall (λ ev, ∃ s kind, s ∈ scopes ∧ ev = EvMakeRng s kind) pre ∧
    (mid = [] ∧ writes = [] ∨
     ∃ evs b, mid = EvPayloadEnter :: evs ∧ sequenced evs ∧ pending evs = [] ∧
              EvPayloadExit b ∈ evs ∧ (writes ≠ [] → b = true) ∧
              (is_ok r = true → b = true)) ∧
    writes `prefix_of` expected_puts scopes out ∧
    (is_ok r = true → writes = expected_puts scopes out) ∧
    (out = [] ∨
     ∃ paths variable_groups_xs rng_groups_xs h1 y,
       (run_payload fs scopes paths (fn variable_groups_xs rng_groups_xs) h1).1
         = Ok (y, out) ∧
       (∀ y', r = Ok y' → y' = y)) ∧
    (∀ id, id < next_id h → id ∉ scope_id <$> scopes →
       objects h' !! id = objects h !! id) ∧
    (∀ id col, id < next_id h →
       ¬ fp_collection (write_footprint scopes out) id col →
       lookup_collection h' id col = lookup_collection h id col).
Proof.
  intros Hb Hpack. unfold pack, mbind at 1, M_bind at 1, lift_result in Hpack.
  destruct (_dedup_scopes scope_tree) as [[scopes paths]|e] eqn:Ededup;
    simpl in Hpack.
  2:{ simplify_eq. exists [], [], [], [], []. rewrite !app_nil_r. phase_done. }
  pose proof (dedup_scopes_roots_subset _ _ _ Ededup) as Hsub.
  unfold mbind at 1, M_bind at 1 in Hpack.
  pose proof (pack_variable_groups_heap fs scopes h) as Hvg.
  destruct (pack_variable_groups fs scopes h) as [[vgs|e] h0]; simpl in Hvg; subst h0.
  2:{ simplify_eq. exists scopes, [], [], [], []. rewrite !app_nil_r. phase_done. }
  unfold mbind at 1, M_bind at 1 in Hpack.
  pose proof (effect_pack_rng_groups fs scopes h) as [HoA HcA (pre & HtA & HeA) HnA HbA].
  destruct (pack_rng_groups fs scopes h) as [[rgs|e] h1]; simpl in *.
  2:{ simplify_eq. exists scopes, pre, [], [], []. rewrite !app_nil_r. phase_done. }
  specialize (HbA Hb).
  unfold mbind at 1, M_bind at 1 in Hpack.
  pose proof (pack_call_spec fs scopes paths (fn vgs rgs) h1 HbA)
    as (HoB & HnB & evs & cell & HtB & HseqB & HpB).
  pose proof (pack_call_result fs scopes paths (fn vgs rgs) h1) as HrB.
  destruct (pack_call fs scopes paths (fn vgs rgs) h1) as [[[y out]|e] h2]; simpl in *.
  2:{ simplify_eq.
      exists scopes, pre, (EvPayloadEnter :: evs ++ EvPayloadExit false ::
                             (EvInvalidate <$> cell)), [], [].
      rewrite !app_nil_r. phase_done.
      - by rewrite HtB, HtA, <- app_assoc.
      - right. eexists _, false. split; [done|]. split; [done|]. split; [done|].
        split; [set_solver|]. split; [by intros [] | done].
      - intros id Hlt Hid. rewrite HoB by lia. by apply HoA.
      - intros id col Hlt _. rewrite <- (HcA id col) by tauto.
        unfold lookup_collection. by rewrite HoB by lia. }
  unfold mbind at 1, M_bind at 1 in Hpack.
  pose proof (effect_write_back scopes out h2) as [HoC HcC _ HnC _].
  destruct (writes_events_write_back scopes out h2) as (writes & HtC & HpC & HsC).
  exists scopes, pre, (EvPayloadEnter :: evs ++ EvPayloadExit true ::
                         (EvInvalidate <$> cell)), writes, out.
  split; [done|]. split; [by intros ?? [= -> _]|].
  assert (Hfacts :
    (∀ id, id < next_id h → id ∉ scope_id <$> scopes →
       objects (write_back scopes out h2).2 !! id = objects h !! id) ∧
    (∀ id col, id < next_id h →
       ¬ fp_collection (write_footprint scopes out) id col →
       lookup_collection (write_back scopes out h2).2 id col = lookup_collection h id col)).
  { split.
    - intros id Hlt Hid. rewrite HoC by done. rewrite HoB by lia. by apply HoA.
    - intros id col Hlt Hid. rewrite HcC by done.
      rewrite <- (HcA id col) by tauto.
      unfold lookup_collection. by rewrite HoB by lia. }
  destruct Hfacts as [Hobj Hcol].
  assert (Hmid : ∃ evs' b,
    EvPayloadEnter :: evs ++ EvPayloadExit true :: (EvInvalidate <$> cell) =
      EvPayloadEnter :: evs' ∧ sequenced evs' ∧ pending evs' = [] ∧
    EvPayloadExit b ∈ evs' ∧ (writes ≠ [] → b = true) ∧ (is_ok r = true → b = true)).
  { eexists _, true. split; [done|]. split; [done|]. split; [done|].
    split; [set_solver|]. done. }
  assert (Hout : ∃ paths variable_groups_xs rng_groups_xs h1 y0,
    (run_payload fs scopes paths (fn variable_groups_xs rng_groups_xs) h1).1
      = Ok (y0, out) ∧ y0 = y).
  { eexists paths, vgs, rgs, _, y. split; [by rewrite <- HrB | done]. }
  destruct Hout as (paths' & vgs' & rgs' & h1' & y0 & Hout & ->).
  destruct (write_back scopes out h2) as [[[]|e] h3]; simpl in *;
    unfold mret, M_ret in Hpack; simplify_eq.
  - split; [rewrite HtC, HtB, HtA, <- !app_assoc; simpl; by rewrite <- !app_assoc|].
    split; [done|].
    split; [by right|]. split; [done|]. split; [intros _; by eapply HsC|].
    split; [|done]. right. eexists paths', vgs', rgs', h1', y.
    split; [done|]. by intros ? [= ->].
  - split; [rewrite HtC, HtB, HtA, <- !app_assoc; simpl; by rewrite <- !app_assoc|].
    split; [done|].
    split; [by right|]. split; [done|]. split; [done|].
    split; [|done]. right. eexists paths', vgs', rgs', h1', y. done.
Qed.

(** The write-back's events are writes of variables, none has to do with
    inner scopes. *)
Lemma expected_puts_outer scopes out :
  Forall (λ ev, ¬ inner_event ev) (expected_puts scopes out).
Proof.
  apply Forall_forall. intros ev Hev.
  apply elem_of_expected_puts in Hev as (?&?&?&?&?&?&?&_&_&_&_&->). by intros [].
Qed.

Lemma Forall_prefix {A} (P : A → Prop) (l1 l2 : list A) :
  l1 `prefix_of` l2 → Forall P l2 → Forall P l1.
Proof. intros [k ->] H. by apply Forall_app in H as [H _]. Qed.

(** The events of a whole [pack] call: made or handed out only when no inner
    scope is live, and none is live at the end. *)
Lemma pack_trace_ordered {Y} fs (fn : list VariableGroups → list RngGroups → Payload Y)
    scope_tree h :
  dom_bounded h →
  ∃ evs, trace (pack fs fn scope_tree h).2 = trace h ++ evs ∧
         ordered evs ∧ pending evs = [].
Proof.
  intros Hb. destruct (pack fs fn scope_tree h) as [r h'] eqn:Hpack.
  destruct (pack_phases _ _ _ _ _ _ Hb Hpack)
    as (scopes & pre & mid & writes & out & _ & _ & Htr & Hpre & Hmid & Hw & _).
  exists (pre ++ mid ++ writes). split; [done|].
  assert (Hpre' : Forall (λ ev, ¬ inner_event ev) pre).
  { eapply Forall_impl; [done|]. by intros ev (s & kind & _ & ->) []. }
  assert (Hw' : Forall (λ ev, ¬ inner_event ev) writes).
  { eapply Forall_prefix; [done|]. apply expected_puts_outer. }
  destruct Hmid as [[-> ->]|(evs & b & -> & Hseq & Hpend & _)].
  - apply ordered_frame; [done..| |done]. by intros [|i] ev.
  - replace (pre ++ (EvPayloadEnter :: evs) ++ writes)
      with ((pre ++ [EvPayloadEnter]) ++ evs ++ writes)
      by (by rewrite <- app_assoc).
    apply ordered_frame; [|done|by apply sequenced_ordered|done].
    apply Forall_app. split; [done|]. repeat constructor. by intros [].
Qed.
Lemma dom_bounded_singleton st n : dom_bounded (MkHeap {[ 0 := st ]} (S n) [] [] []).
Proof.
  intros id [st' H]. simpl in H. apply lookup_singleton_Some in H as [<- _]. simpl. lia.
Qed.

(** The groups the payload is handed: every collection in them that no output
    filter accepts is frozen. *)
Definition input_only_frozen (fs : Filters) (variable_groups_xs : list VariableGroups)
    : Prop :=
  Forall (Forall (Forall (λ kv : string * Collection,
    in_any_filter (out_variable_filters fs) kv.1 = false → is_frozen kv.2 = true)))
    variable_groups_xs.

Lemma freeze_in_only_frozen fs variable_group :
  Forall (λ kv : string * Collection,
    in_any_filter (out_variable_filters fs) kv.1 = false → is_frozen kv.2 = true)
    (freeze_in_only (out_variable_filters fs) variable_group).
Proof.
  unfold freeze_in_only. apply Forall_fmap, Forall_forall.
  intros [col c] _. simpl. by intros ->.
Qed.

Lemma pack_variable_groups_frozen fs scopes h variable_groups_xs :
  (pack_variable_groups fs scopes h).1 = Ok variable_groups_xs →
  input_only_frozen fs variable_groups_xs.
Proof.
  unfold pack_variable_groups, mbind, M_bind.
  destruct (map_M _ scopes h) as [[l|e] h1]; simpl; [|done].
  intros [= <-]. unfold input_only_frozen.
  apply Forall_forall. intros groups (gs & -> & _)%list_elem_of_fmap.
  apply Forall_forall. intros g (g0 & -> & _)%list_elem_of_fmap.
  apply freeze_in_only_frozen.
Qed.

(** [pack] calls [fn] on such groups only. *)
Lemma pack_fn_ext {Y} fs (fn fn' : list VariableGroups → list RngGroups → Payload Y)
    scope_tree h :
  (∀ vgs rgs, input_only_frozen fs vgs → fn' vgs rgs = fn vgs rgs) →
  pack fs fn' scope_tree h = pack fs fn scope_tree h.
Proof.
  intros Hext. unfold pack, mbind, M_bind, lift_result.
  destruct (_dedup_scopes scope_tree) as [[scopes paths]|e]; [|done].
  pose proof (pack_variable_groups_frozen fs scopes h) as Hfrozen.
  destruct (pack_variable_groups fs scopes h) as [[vgs|e] h0]; simpl in *; [|done].
  destruct (pack_rng_groups fs scopes h0) as [[rgs|e] h1]; [|done].
  by rewrite Hext by by apply Hfrozen.
Qed.

(** ** The custom-gradient lift *)

(** Modelled from the spec: [freeze] ([frozen_dict.py] is not among the
    sources) applied to a group of collections gives the immutable snapshot of
    the group: each of its collections reads as an immutable snapshot. *)
Definition freeze_group (group : Variables) : Variables :=
  (λ kv, (kv.1, freeze kv.2)) <$> group.

(** What the user's function does to the scope it is given: here, what it
    leaves in the variables of the inner scopes. *)
Definition user_fn {Y} (user : list (nat * Variables)) (k : Payload Y) : Payload Y :=
  foldr (λ iv k, SetVariables 0 iv.1 iv.2 k) k user.

(** [simple_scope_fn], lines 532-533, as the call of [scope_fn] it makes. *)
Definition simple_scope_fn {Y} (other_variables : Variables)
    (rng_groups_xs : list RngGroups) (grad_variables : Variables)
    (k : result (list Scope) → Payload Y) : Payload Y :=
  CallScopeFn [[freeze_group grad_variables; other_variables]] rng_groups_xs k.

(** [f], lines 535-539. *)
Definition custom_vjp_f {Y} (y : Y) (user : list (nat * Variables))
    (other_variables : Variables) (rng_groups_xs : list RngGroups)
    (grad_variables : Variables) : Payload Y :=
  CallScopeFn [[grad_variables; other_variables]] rng_groups_xs (λ r,
    match r with
    | Raise e => Throw e
    | Ok _ =>
        user_fn user (CallRepack 0 (λ r,
          match r with
          | Raise e => Throw e
          | Ok vars_out => Return y vars_out
          end))
    end).

(** [f_fwd], lines 542-546; the residuals are no part of what [pack] sees. *)
Definition f_fwd {Y} (y : Y) (user : list (nat * Variables))
    (other_variables : Variables) (rng_groups_xs : list RngGroups)
    (grad_variables : Variables) : Payload Y :=
  simple_scope_fn other_variables rng_groups_xs grad_variables (λ r,
    match r with
    | Raise e => Throw e
    | Ok _ =>
        user_fn user (CallRepack 0 (λ r,
          match r with
          | Raise e => Throw e
          | Ok vars_out => Return y vars_out
          end))
    end).

(** The payload of [custom_vjp], lines 528-557: of the pair, the forward pass
    [f_fwd] runs when the call is differentiated and [f] when it is not. *)
Definition custom_vjp_inner {Y} (differentiated : bool) (y : Y)
    (user : list (nat * Variables))
    (variable_groups_xs : list VariableGroups) (rng_groups_xs : list RngGroups)
    : Payload Y :=
  match variable_groups_xs with
  | [[grad_variables; other_variables]] =>
      if differentiated
      then f_fwd y user other_variables rng_groups_xs grad_variables
      else custom_vjp_f y user other_variables rng_groups_xs grad_variables
  | [_] => Throw TreeStructureError
  | _ => Throw AssertionError
  end.

(** [custom_vjp(fn, backward_fn, grad_kind)], lines 559-563. *)
Definition custom_vjp_filters (grad_kind : CollectionFilter) : Filters :=
  MkFilters [grad_kind; FBool true] [grad_kind; FBool true] [FBool true].

Lemma update_snoc {V} (d e : dict V) kv :
  update d (e ++ [kv]) = set kv.1 kv.2 (update d e).
Proof. unfold update. by rewrite foldl_app. Qed.

Lemma get_set {V} k k' (v : V) d :
  get k' (set k v d) = if decide (k' = k) then Some v else get k' d.
Proof.
  destruct (decide (k' = k)) as [->|Hne].
  - apply get_set_eq.
  - by apply get_set_ne.
Qed.



Lemma for_each_invalidate_next l h :
  next_id (for_each invalidate l h).2 = next_id h.
Proof.
  revert h. induction l as [|s l IH]; intros h; simpl; [done|].
  unfold mbind, M_bind. simpl. by rewrite IH.
Qed.


(** ** The loop lift *)

(** [zip] applied to the rows of [xss], as in lines 455-464 and 473-487: the
    rows read by columns, as many as the shortest row has. *)
Fixpoint zip_star {A} (xss : list (list A)) : list (list A) :=
  match xss with
  | [] => []
  | row :: rest =>
      match rest with
      | [] => (λ x, [x]) <$> row
      | _ => zip_with cons row (zip_star rest)
      end
  end.

(** Lines 468-470 for one pair of groups: a collection of [in_group] that
    [out_group] has not is put into [out_group]. *)
Definition reinsert (in_group out_group : Variables) : Variables :=
  foldl (λ out col,
           if mem col out then out
           else match get col in_group with
                | Some c => set col c out
                | None => out
                end)
        out_group (keys in_group).

(** Lines 467-470: the loop over [zip(broadcast_vars, broadcast_vars_out)]
    changes the groups of [broadcast_vars_out] in place. *)
Definition reinsert_broadcast (broadcast_vars broadcast_vars_out : list Variables)
    : list Variables :=
  zip_with reinsert broadcast_vars broadcast_vars_out
    ++ drop (length broadcast_vars) broadcast_vars_out.

(** Lines 461-471: what [scanned] makes of the groups [repack_fn] returned. *)
Definition scanned_outputs (broadcast_vars : list Variables)
    (out_vars_xs : list VariableGroups)
    : result (list Variables * list Variables * list (list Variables)) :=
  match zip_star out_vars_xs with
  | broadcast_vars_out :: carry_vars :: scan_groups =>
      Ok (reinsert_broadcast broadcast_vars broadcast_vars_out, carry_vars,
          zip_star scan_groups)
  | _ => Raise IndexError
  end.

(** [scanned], lines 453-471: one iteration, as the pure scan primitive runs
    it.  [fn] is the user's function, which has the scopes and the carry. *)
Definition scanned {C Y} (fs : Filters) (scopes : list Scope)
    (paths : list (Scope * Path)) (fn : list Scope → C → M (C * Y))
    (broadcast_vars : list Variables) (carry : list Variables * C)
    (variable_groups_xs : list (list Variables)) (rng_groups_xs : list RngGroups)
    : M (list Variables * (list Variables * C) * (Y * list (list Variables))) :=
  let '(carry_vars, c) := carry in
  let in_vars_xs_t := broadcast_vars :: carry_vars :: zip_star variable_groups_xs in
  let variable_groups_xs := zip_star in_vars_xs_t in
  scope ← scope_fn fs scopes paths variable_groups_xs rng_groups_xs;
  '(c, y) ← fn scope c;
  out_vars_xs ← repack fs paths scope;
  '(broadcast_vars_out, carry_vars, scan_vars) ←
    lift_result (scanned_outputs broadcast_vars out_vars_xs);
  mret (broadcast_vars_out, (carry_vars, c), (y, scan_vars)).

(** Lines 482-484 for one group. *)
Definition delete_frozen (out_group : Variables) : Variables :=
  foldl (λ g kv, if is_frozen kv.2 then del kv.1 g else g) out_group out_group.

(** Lines 481-487: the output groups [scan]'s payload returns to [pack], from
    what the scan primitive returned. *)
Definition scan_out_vars (broadcast_vars carry_vars : list Variables)
    (scan_vars : list (list Variables)) : list VariableGroups :=
  let broadcast_vars := delete_frozen <$> broadcast_vars in
  let scan_vars_t := zip_star scan_vars in
  zip_star (broadcast_vars :: carry_vars :: scan_vars_t).

(** The filters [scan] gives [pack], lines 490-494. *)
Definition scan_filters (variable_broadcast variable_carry : CollectionFilter)
    (variable_in_groups variable_out_groups rng_groups : list CollectionFilter)
    : Filters :=
  MkFilters (variable_broadcast :: variable_carry :: variable_in_groups)
            (variable_broadcast :: variable_carry :: variable_out_groups)
            rng_groups.













(** ** More on de-duplication *)

(** The first place where a list repeats an element that satisfies [P]. *)
Lemma first_repeat {A} `{EqDecision A} (P : A → bool) (l : list A) :
  ¬ NoDup (List.filter P l) →
  ∃ seen leaf rest, l = seen ++ leaf :: rest ∧ leaf ∈ seen ∧ P leaf = true ∧
                    NoDup (List.filter P seen).
Proof.
  induction l as [|x l IH] using rev_ind; intros Hnd.
  { destruct Hnd. constructor. }
  destruct (decide (NoDup (List.filter P l))) as [Hl|Hl].
  - exists l, x, []. split; [done|].
    rewrite List.filter_app in Hnd. simpl in Hnd.
    destruct (P x) eqn:Px; [|by rewrite app_nil_r in Hnd].
    split; [|done].
    destruct (decide (x ∈ l)) as [Hx|Hx]; [done|]. destruct Hnd.
    apply NoDup_app. split; [done|]. split; [|apply NoDup_singleton].
    intros y [Hy _]%elem_of_filter_bool ->%list_elem_of_singleton. done.
  - destruct (IH Hl) as (seen & leaf & rest & -> & Hin & Hp & Hseen).
    exists seen, leaf, (rest ++ [x]). by rewrite <- app_assoc.
Qed.


Lemma NoDup_filter_bool {A} (p : A → bool) (l : list A) :
  NoDup l → NoDup (List.filter p l).
Proof.
  induction 1 as [|x l Hx Hl IH]; simpl; [constructor|].
  destruct (p x); [|done]. constructor; [|done].
  by intros [? _]%elem_of_filter_bool.
Qed.
(** ** More on the pack adapter *)

(** [pack], step by step: where it can end, and with what. *)
Lemma pack_outcomes {Y} fs (fn : list VariableGroups → list RngGroups → Payload Y)
    scope_tree h :
  (∃ e, _dedup_scopes scope_tree = Raise e ∧ pack fs fn scope_tree h = (Raise e, h)) ∨
  ∃ scopes paths, _dedup_scopes scope_tree = Ok (scopes, paths) ∧
    ((∃ e, pack_variable_groups fs scopes h = (Raise e, h) ∧
           pack fs fn scope_tree h = (Raise e, h)) ∨
     ∃ vgs, pack_variable_groups fs scopes h = (Ok vgs, h) ∧
       ((∃ e h1, pack_rng_groups fs scopes h = (Raise e, h1) ∧
                 pack fs fn scope_tree h = (Raise e, h1)) ∨
        ∃ rgs h1, pack_rng_groups fs scopes h = (Ok rgs, h1) ∧
          ((∃ e h2, pack_call fs scopes paths (fn vgs rgs) h1 = (Raise e, h2) ∧
                    pack fs fn scope_tree h = (Raise e, h2)) ∨
           ∃ y out h2, pack_call fs scopes paths (fn vgs rgs) h1 = (Ok (y, out), h2) ∧
             pack fs fn scope_tree h =
               (match (write_back scopes out h2).1 with
                | Ok _ => Ok y
                | Raise e => Raise e
                end, (write_back scopes out h2).2)))).
Proof.
  unfold pack, mbind, M_bind, lift_result.
  destruct (_dedup_scopes scope_tree) as [[scopes paths]|e]; [|left; by exists e].
  right. exists scopes, paths. split; [done|].
  pose proof (pack_variable_groups_heap fs scopes h) as Hvg.
  destruct (pack_variable_groups fs scopes h) as [[vgs|e] h0]; simpl in Hvg; subst h0;
    [|left; by exists e].
  right. exists vgs. split; [done|].
  destruct (pack_rng_groups fs scopes h) as [[rgs|e] h1]; [|left; by exists e, h1].
  right. exists rgs, h1. split; [done|].
  destruct (pack_call fs scopes paths (fn vgs rgs) h1) as [[[y out]|e] h2];
    [|left; by exists e, h2].
  right. exists y, out, h2. split; [done|].
  by destruct (write_back scopes out h2) as [[[]|e] h3].
Qed.

(** A scope that fails its checks fails the loop over the scopes, which has
    not changed the heap. *)
Lemma map_M_pure_raises {A B} (f : A → M B) (l : list A) (a : A) h :
  (∀ a h, (f a h).2 = h) → a ∈ l → is_ok (f a h).1 = false →
  ∃ a' e, a' ∈ l ∧ (f a' h).1 = Raise e ∧ map_M f l h = (Raise e, h).
Proof.
  intros Hpure. induction l as [|b l IH]; intros Ha Hfail.
  { by apply elem_of_nil in Ha. }
  simpl. unfold mbind, M_bind. pose proof (Hpure b h) as Hb.
  destruct (f b h) as [[y|e] h1] eqn:Eb; simpl in Hb; subst h1.
  - assert (Hal : a ∈ l).
    { apply elem_of_cons in Ha as [->|Ha]; [|done]. by rewrite Eb in Hfail. }
    destruct (IH Hal Hfail) as (a' & e & Ha' & He & Hmap).
    exists a', e. split; [by right|]. split; [done|]. by rewrite Hmap.
  - exists b, e. split; [left|]. by rewrite Eb.
Qed.
(** ** What the write-back leaves in the outer scopes *)

(** The value of the variable [var] of the collection [col] of the object
    [id]. *)
Definition value_at (h : Heap) (id : nat) (col var : string) : option Value :=
  lookup_collection h id col ≫= λ c, get var (items c).

(** The value of a variable after an event, from its value before. *)
Definition put_step (id : nat) (col var : string) (v : option Value) (ev : Event)
    : option Value :=
  match ev with
  | EvPutVariable s col' var' value =>
      if decide (scope_id s = id ∧ col' = col ∧ var' = var) then Some value else v
  | _ => v
  end.

Definition replay_puts (evs : list Event) (id : nat) (col var : string)
    (v : option Value) : option Value :=
  foldl (put_step id col var) v evs.

Lemma replay_puts_app evs1 evs2 id col var v :
  replay_puts (evs1 ++ evs2) id col var v =
  replay_puts evs2 id col var (replay_puts evs1 id col var v).
Proof. unfold replay_puts. apply foldl_app. Qed.

(** The heap's variables are those of [h0] with the writes recorded since
    [tr0] replayed. *)
Definition replayed (h0 : Heap) (tr0 : list Event) (h : Heap) : Prop :=
  ∃ ws, trace h = tr0 ++ ws ∧ Forall is_put ws ∧
        ∀ id col var, value_at h id col var =
                      replay_puts ws id col var (value_at h0 id col var).

Lemma replayed_put_variable h0 tr0 s col var value :
  keeps (replayed h0 tr0) (put_variable s col var value).
Proof.
  intros h (ws & Htr & Hput & Hval). unfold put_variable, mbind, M_bind, get_state.
  assert (Hsame : replayed h0 tr0 h) by (by exists ws).
  destruct (objects h !! scope_id s) as [st|] eqn:Est; simpl; [|done].
  destruct (objects h !! scope_id (root s)) as [root_st|]; simpl; [|done].
  destruct (_invalid st); simpl; [done|].
  destruct (negb _); simpl; [done|].
  destruct (default _ _) as [entries|entries] eqn:Ecol; simpl; [|done].
  exists (ws ++ [EvPutVariable s col var value]).
  split; [simpl; by rewrite Htr, app_assoc|].
  split; [apply Forall_app; by repeat constructor|].
  intros id col' var'. rewrite replay_puts_app, <- Hval. simpl.
  unfold value_at, lookup_collection. simpl.
  destruct (decide (scope_id s = id)) as [<-|Hid].
  - rewrite lookup_insert_eq. simpl. rewrite Est. simpl.
    destruct (decide (col = col')) as [<-|Hcol].
    + rewrite get_set_eq. simpl.
      destruct (decide (var = var')) as [<-|Hvar].
      * rewrite decide_True by done. apply get_set_eq.
      * rewrite decide_False by naive_solver. rewrite get_set_ne by done.
        destruct (get col (_variables st)) as [[?|?]|]; simpl in *; by simplify_eq.
    + rewrite decide_False by naive_solver. by rewrite get_set_ne.
  - rewrite decide_False by naive_solver. by rewrite lookup_insert_ne.
Qed.

Lemma replayed_write_back h0 tr0 scopes out :
  keeps (replayed h0 tr0) (write_back scopes out).
Proof.
  unfold write_back.
  apply keeps_for_each. intros [s groups] _. apply keeps_for_each. intros g _.
  apply keeps_for_each. intros [col c] _. apply keeps_for_each. intros [var value] _.
  apply replayed_put_variable.
Qed.

Lemma replay_puts_is_Some evs id col var v :
  is_Some v → is_Some (replay_puts evs id col var v).
Proof.
  unfold replay_puts. revert v. induction evs as [|ev evs IH]; intros v Hv; [done|].
  simpl. apply IH. destruct ev; try done. simpl. by case_decide.
Qed.

(** ** More on [scope_fn] and [repack] *)

(** [scope.invalidate()] on the state of a scope. *)
Definition invalidated (st : ScopeState) : ScopeState :=
  MkScopeState (_variables st) (rngs st) (rng_counters st) (mutable st) true
    (trace_valid st) (reuse_scopes st).

(** Invalidating the scopes [l] sets the flag of their objects and changes
    nothing else. *)
Lemma for_each_invalidate_objects (l : list Scope) h id :
  objects (for_each invalidate l h).2 !! id =
    (if bool_decide (id ∈ scope_id <$> l) then invalidated else λ st, st)
      <$> objects h !! id.
Proof.
  revert h. induction l as [|s l IH]; intros h; csimpl.
  { by destruct (objects h !! id). }
  unfold mbind, M_bind. csimpl. rewrite IH. csimpl. fold invalidated.
  destruct (decide (id = scope_id s)) as [->|Hne].
  - rewrite lookup_alter_eq.
    rewrite (bool_decide_eq_true_2 (scope_id s ∈ scope_id s :: _)) by left.
    destruct (objects h !! scope_id s) as [st|]; simpl; [|done].
    by destruct (bool_decide _).
  - rewrite lookup_alter_ne by done.
    assert (Heq : bool_decide (id ∈ scope_id s :: (scope_id <$> l)) =
                  bool_decide (id ∈ scope_id <$> l)).
    { apply bool_decide_ext. set_solver. }
    by rewrite Heq.
Qed.

(** The filter [scope_fn] folds of the output filters, lines 113-115, accepts
    what some output filter accepts. *)
Lemma in_filter_foldl_union filters acc col :
  in_filter (foldl union_filters acc filters) col =
    in_filter acc col || in_any_filter filters col.
Proof.
  revert acc. induction filters as [|f filters IH]; intros acc; simpl.
  - by rewrite orb_false_r.
  - rewrite IH, in_filter_union. unfold in_any_filter. simpl. by rewrite orb_assoc.
Qed.

Lemma get_app {V} k (d e : dict V) :
  get k (d ++ e) = match get k d with Some v => Some v | None => get k e end.
Proof.
  induction d as [|[k' v'] d IH]; simpl; [done|]. by case_decide.
Qed.

(** [d.update(e)] for a dictionary [e]: the entries of [e] over those of
    [d]. *)
Lemma get_update {V} k (d e : dict V) :
  NoDup (keys e) →
  get k (update d e) = match get k e with Some v => Some v | None => get k d end.
Proof.
  unfold keys. induction e as [|[k' v'] e IH] using rev_ind; intros Hnd; [done|].
  rewrite fmap_app in Hnd. apply NoDup_app in Hnd as (Hnd & Hk' & _).
  rewrite update_snoc, get_set, get_app. simpl.
  destruct (decide (k = k')) as [->|Hne].
  - assert (Hnone : get k' e = None).
    { apply get_None. intros Hin. apply (Hk' k' Hin). simpl. left. }
    by rewrite Hnone.
  - rewrite IH by done. by destruct (get k e).
Qed.

(** The groups merged as [scope_fn] merges them, lines 117-122: of the groups
    that name a collection the last one gives it. *)
Lemma get_foldl_update {V} k (groups : list (dict V)) : ∀ acc,
  Forall (λ g, NoDup (keys g)) groups →
  get k (foldl update acc groups) =
    match last (omap (get k) groups) with Some v => Some v | None => get k acc end.
Proof.
  induction groups as [|g groups IH] using rev_ind; intros acc Hnd; [done|].
  apply Forall_app in Hnd as [Hnd Hg]. apply Forall_cons in Hg as [Hg _].
  rewrite foldl_app. simpl. rewrite get_update by done.
  rewrite omap_app. simpl.
  destruct (get k g) as [v|]; simpl.
  - by rewrite last_snoc.
  - rewrite app_nil_r. by apply IH.
Qed.

(** What [repack] reads of an inner scope: its object, still within its trace
    level, and the groups of its variables. *)
Definition repacked (fs : Filters) (h : Heap) (x : Scope) (groups : VariableGroups)
    : Prop :=
  ∃ st, objects h !! scope_id x = Some st ∧ trace_valid st = true ∧
        repack_scope (out_variable_filters fs) (_variables st) = Ok groups.

Lemma repacked_invalidate fs h s x groups :
  repacked fs (invalidate s h).2 x groups → repacked fs h x groups.
Proof.
  intros (st & Hst & Htv & Hrep). simpl in Hst.
  destruct (decide (scope_id x = scope_id s)) as [Heq|Hne].
  - rewrite Heq, lookup_alter_eq in Hst.
    destruct (objects h !! scope_id s) as [st0|] eqn:E0; simplify_eq/=.
    exists st0. by rewrite Heq.
  - rewrite lookup_alter_ne in Hst by done. by exists st.
Qed.

(** The loop of [repack], lines 139-150. *)
Lemma repack_loop fs (inner : list Scope) : ∀ h out h',
  map_M (λ inner_scope,
           _ ← invalidate inner_scope;
           _ ← _validate_trace_level inner_scope;
           st ← get_state inner_scope;
           lift_result (repack_scope (out_variable_filters fs) (_variables st)))
        inner h = (Ok out, h') →
  Forall2 (repacked fs h) inner out ∧ h' = (for_each invalidate inner h).2.
Proof.
  induction inner as [|x inner IH]; intros h out h'; cbn [map_M].
  { intros [= <- <-]. split; [constructor|done]. }
  unfold mbind, M_bind.
  destruct (invalidate x h) as [[[]|e] h1] eqn:Einv; [|done].
  assert (h1 = (invalidate x h).2) as Hh1 by (by rewrite Einv).
  unfold _validate_trace_level, get_state, mbind, M_bind, lift_result.
  destruct (objects h1 !! scope_id x) as [st|] eqn:Est; [|done].
  destruct (trace_valid st) eqn:Htv; [|done].
  unfold mret, M_ret. rewrite Est.
  destruct (repack_scope _ (_variables st)) as [groups|e] eqn:Erep; [|done].
  destruct (map_M _ inner h1) as [[out'|e] h2] eqn:Emap; [|done].
  intros [= <- <-]. destruct (IH _ _ _ Emap) as [Hall ->].
  split; [|cbn [for_each]; unfold mbind, M_bind; by rewrite Einv].
  constructor.
  - apply (repacked_invalidate fs h x). rewrite <- Hh1. by exists st.
  - eapply Forall2_impl; [done|]. intros y groups' Hy.
    apply (repacked_invalidate fs h x). by rewrite <- Hh1.
Qed.
(** ** The axis specifications of [vmap] and [scan] *)

(** An axis of [variable_axes]: plain, or marked [In] or [Out], lines
    250-259. *)
Inductive InOutAxis (A : Type) : Type :=
| PlainAxis (axis : A)
| In (axis : A)
| Out (axis : A).
Arguments PlainAxis {A} axis.
Arguments In {A} axis.
Arguments Out {A} axis.

Definition unpack {A} (v : InOutAxis A) : A :=
  match v with PlainAxis a | In a | Out a => a end.

Definition is_In {A} (v : InOutAxis A) : bool :=
  match v with In _ => true | _ => false end.

Definition is_Out {A} (v : InOutAxis A) : bool :=
  match v with Out _ => true | _ => false end.

(** [_split_in_out_axes], lines 262-266; a mapping is the list of its items. *)
Definition _split_in_out_axes {K A} (xs : list (K * InOutAxis A))
    : list (K * A) * list (K * A) :=
  let in_axes := (λ kv, (kv.1, unpack kv.2)) <$> List.filter (λ kv, negb (is_Out kv.2)) xs in
  let out_axes := (λ kv, (kv.1, unpack kv.2)) <$> List.filter (λ kv, negb (is_In kv.2)) xs in
  (in_axes, out_axes).

(** [_unzip2], lines 672-674, of a sequence of pairs. *)
Definition _unzip2 {K V} (xs : list (K * V)) : list K * list V :=
  match xs with
  | [] => ([], [])
  | _ => (xs.*1, xs.*2)
  end.

(** The filters [vmap] gives [pack], lines 302-305 and 352-353. *)
Definition vmap_filters {A} (variable_axes : list (CollectionFilter * InOutAxis A))
    (split_rngs : list (CollectionFilter * bool)) : Filters :=
  let '(variable_in_axes, variable_out_axes) := _split_in_out_axes variable_axes in
  let '(variable_in_groups, variable_in_axes) := _unzip2 variable_in_axes in
  let '(variable_out_groups, variable_out_axes) := _unzip2 variable_out_axes in
  let '(rng_groups, rng_splits) := _unzip2 split_rngs in
  MkFilters variable_in_groups variable_out_groups rng_groups.

Lemma unzip2_eq {K V} (xs : list (K * V)) : _unzip2 xs = (xs.*1, xs.*2).
Proof. by destruct xs. Qed.

(** ** The loop length of [scan] *)

(** What the choice of the loop length can raise. *)
Inductive ScanLengthError : Type :=
| InconsistentScanLengths (lengths : list nat)
| LengthUnspecified
| ScanLengthRaised (e : exn).

(** Lines 424-425: [find_length], lines 417-422, reads as [find_axis_size]
    does; it is mapped over [in_axes] and the positional arguments, and the
    lengths found are made a set.  An axis is [None] or an integer, as for
    [vmap]; the scan primitive's own marker for a broadcast argument is not
    an axis of this model. *)
Definition scan_lengths (in_axes : AxisTree) (args : list PyTree) : result (list nat) :=
  lengths ← tree_axis_sizes in_axes (PTuple args);
  Ok (remove_dups lengths).

(** Lines 426-433: [d_length]. *)
Definition scan_length (in_axes : AxisTree) (length : option nat) (args : list PyTree)
    : ScanLengthError + nat :=
  match scan_lengths in_axes args with
  | Raise e => inl (ScanLengthRaised e)
  | Ok lengths =>
      match length, lengths with
      | None, [d] => inr d
      | _, _ :: _ :: _ => inl (InconsistentScanLengths lengths)
      | None, _ => inl LengthUnspecified
      | Some n, _ => inr n
      end
  end.

(** ** Swapping two collections *)

(** [swap], lines 242-246, of [swap_collection]. *)
Definition swap (col_a col_b : string) (target : Variables) : Variables :=
  let a := default (PlainDict []) (get col_a target) in
  let b := default (PlainDict []) (get col_b target) in
  set col_a b (set col_b a target).

Lemma set_set {V} k (v v' : V) d : set k v (set k v' d) = set k v d.
Proof.
  induction d as [|[k' w] d IH]; simpl.
  - by rewrite decide_True.
  - destruct (decide (k = k')) as [->|Hne]; simpl.
    + by rewrite decide_True.
    + rewrite decide_False by done. by rewrite IH.
Qed.

Lemma set_get_id {V} k (v : V) d : get k d = Some v → set k v d = d.
Proof.
  induction d as [|[k' w] d IH]; simpl; [done|].
  destruct (decide (k = k')) as [->|Hne]; [by intros [= ->]|].
  intros H. by rewrite IH.
Qed.

(** Two assignments to different keys, one of them a key of the dictionary,
    in either order. *)
Lemma set_comm {V} k k' (v v' : V) d :
  k ≠ k' → k ∈ keys d → set k v (set k' v' d) = set k' v' (set k v d).
Proof.
  intros Hne. unfold keys. induction d as [|[k0 w] d IH]; intros Hin; simpl.
  { by apply elem_of_nil in Hin. }
  destruct (decide (k' = k0)) as [->|Hne'], (decide (k = k0)) as [->|Hne0];
    simpl; try done.
  - by rewrite decide_False, decide_True.
  - by rewrite decide_True, decide_False.
  - rewrite !decide_False by done. rewrite IH; [done|]. set_solver.
Qed.
(** ** [transform] *)

(** Modelled from the spec: [unfreeze] ([frozen_dict.py] is not among the
    sources) applied to a group of collections gives the group with each
    collection mutable. *)
Definition unfreeze_group (group : Variables) : Variables :=
  (λ kv, (kv.1, unfreeze kv.2)) <$> group.

(** What the user's function leaves in the variables of the inner scopes of
    the tree [scope_fn] returned at its call number [gen]. *)
Definition user_fn_at {Y} (gen : nat) (user : list (nat * Variables)) (k : Payload Y)
    : Payload Y :=
  foldr (λ iv k, SetVariables gen iv.1 iv.2 k) k user.

(** Lines 205-208: the filters [transform] gives [pack]; the empty tuple is
    the filter that accepts no collection. *)
Definition transform_filters (target : CollectionFilter) (init mutable : bool)
    (rngs variables : CollectionFilter) : Filters :=
  let is_target_out := mutable || init in
  let in_vars := [target; variables] in
  let out_vars := if is_target_out then [target; variables]
                  else [FNames []; variables] in
  MkFilters in_vars out_vars [rngs].

(** Lines 195-203 of [transform]'s [wrapper]: the run on the transformed
    target; [gen] is the number of [scope_fn] calls made before.
    [value_error] stands for the [ValueError] that Python raises when a tuple
    does not unpack into the two names of lines 189, 192 and 200. *)
Definition transform_run {Y} (value_error : exn)
    (trans_in_fn trans_out_fn : Variables → Variables)
    (is_target_out : bool) (y : Y) (gen : nat) (user : list (nat * Variables))
    (target variables : Variables) (rng_groups_xs : list RngGroups) : Payload Y :=
  let target := trans_in_fn (unfreeze_group target) in
  let target := if is_target_out then target else freeze_group target in
  CallScopeFn [[target; variables]] rng_groups_xs (λ r,
    match r with
    | Raise e => Throw e
    | Ok _ =>
        user_fn_at gen user (CallRepack gen (λ r,
          match r with
          | Raise e => Throw e
          | Ok [] => Throw IndexError
          | Ok ([out_target; out_vars] :: _) =>
              let out_target :=
                if is_target_out then trans_out_fn out_target else out_target in
              Return y [[out_target; out_vars]]
          | Ok (_ :: _) => Throw value_error
          end))
    end).

(** [transform]'s [wrapper], lines 187-203: with [init] the user's function
    is first run once on the target as it is, for the target it leaves. *)
Definition transform_wrapper {Y} (value_error : exn)
    (trans_in_fn trans_out_fn : Variables → Variables)
    (init mutable : bool) (y : Y) (user_init user : list (nat * Variables))
    (variable_groups_xs : list VariableGroups) (rng_groups_xs : list RngGroups)
    : Payload Y :=
  let is_target_out := mutable || init in
  match variable_groups_xs with
  | [[target; variables]] =>
      if init then
        CallScopeFn [[target; variables]] rng_groups_xs (λ r,
          match r with
          | Raise e => Throw e
          | Ok _ =>
              user_fn_at 0 user_init (CallRepack 0 (λ r,
                match r with
                | Raise e => Throw e
                | Ok [] => Throw IndexError
                | Ok ([target; _] :: _) =>
                    transform_run value_error trans_in_fn trans_out_fn is_target_out y 1 user
                      (trans_out_fn target) variables rng_groups_xs
                | Ok (_ :: _) => Throw value_error
                end))
          end)
      else
        transform_run value_error trans_in_fn trans_out_fn is_target_out y 0 user
          target variables rng_groups_xs
  | [_] => Throw value_error
  | _ => Throw AssertionError
  end.

(** [transform_module], lines 226-236: [init] is passed when the scope has no
    target collection or an empty one; [vs] is what [scope.variables()]
    returned. *)
Definition transform_module_is_init (vs : Variables) (target : string) : bool :=
  negb (mem target vs) ||
  bool_decide (items (default (PlainDict []) (get target vs)) = []).

(** The user's function returns nothing to [pack]. *)
Lemma run_payload_user_fn_at {Y} fs scopes paths gen user (k : Payload Y) : ∀ h y out,
  (run_payload fs scopes paths (user_fn_at gen user k) h).1 = Ok (y, out) →
  ∃ h', (run_payload fs scopes paths k h').1 = Ok (y, out).
Proof.
  induction user as [|[i variables] user IH]; intros h y out; simpl; [by exists h|].
  unfold mbind at 1 2, M_bind at 1 2, get_heap.
  destruct (issued h !! gen ≫= (.!! i)) as [s|]; simpl; apply IH.
Qed.

(** A collection that the groups a payload returns never name is never
    changed: for payloads whose groups are declared output, a collection that
    no output filter accepts. *)
Lemma pack_declared_frame {Y} fs (fn : list VariableGroups → list RngGroups → Payload Y)
    scope_tree h :
  dom_bounded h →
  (∀ scopes paths vgs rgs h1 y out,
     (run_payload fs scopes paths (fn vgs rgs) h1).1 = Ok (y, out) →
     Forall (declared_output fs) out) →
  ∀ id col, id < next_id h →
    in_any_filter (out_variable_filters fs) col = false →
    lookup_collection (pack fs fn scope_tree h).2 id col = lookup_collection h id col.
Proof.
  intros Hb Hdecl id col Hlt Hcol.
  destruct (pack fs fn scope_tree h) as [r h'] eqn:Hpack.
  destruct (pack_phases _ _ _ _ _ _ Hb Hpack)
    as (scopes & pre & mid & writes & out & _ & _ & _ & _ & _ & _ & _ & Hout & _ & Hfr).
  simpl. apply Hfr; [done|].
  intros (s & groups & g & c & Hz & _ & Hg & Hc).
  destruct Hout as [->|(paths & vgs & rgs & h1 & y & Hrun & _)].
  { rewrite zip_with_nil_r in Hz. by apply elem_of_nil in Hz. }
  apply Hdecl in Hrun. apply elem_of_zip_r in Hz.
  rewrite Forall_forall in Hrun. specialize (Hrun _ Hz).
  unfold declared_output in Hrun.
  rewrite Forall_forall in Hrun. specialize (Hrun _ Hg).
  rewrite Forall_forall in Hrun. specialize (Hrun _ Hc) as [Hin _].
  simpl in Hin. congruence.
Qed.

(** [transform]'s run returns groups that [repack] yielded, but for the
    target group when that is an output. *)
Lemma transform_run_declared {Y} fs scopes paths value_error trans_in_fn trans_out_fn (y : Y)
    gen user target variables rgs h y' out :
  (run_payload fs scopes paths
     (transform_run value_error trans_in_fn trans_out_fn false y gen user target variables rgs) h).1
    = Ok (y', out) →
  Forall (declared_output fs) out.
Proof.
  unfold transform_run. cbn [run_payload]. unfold mbind at 1, M_bind at 1, attempt.
  destruct (scope_fn _ _ _ _ _ h) as [[tree|e] h1]; [|done].
  intros (h2 & Hrun)%run_payload_user_fn_at. revert Hrun.
  cbn [run_payload]. unfold mbind at 1 2, M_bind at 1 2, get_heap.
  destruct (issued h2 !! gen) as [tree'|]; [|done].
  unfold attempt. pose proof (repack_declared fs paths tree' h2) as Hdecl.
  destruct (repack fs paths tree' h2) as [[groups_xs|e] h3]; [|done].
  specialize (Hdecl _ eq_refl).
  destruct groups_xs as [|[|out_target [|out_vars [|? ?]]] ?]; try done.
  simpl. intros [= <- <-]. apply Forall_cons in Hdecl as [Hdecl _]. by constructor.
Qed.
(** ** Re-duplication after de-duplication *)

Lemma dedup_scopes_Ok_NoDup (scopes roots : list Scope) (paths : list (Scope * Path)) :
  _dedup_scopes scopes = Ok (roots, paths) →
  NoDup (List.filter (has_ancestor_in scopes) scopes).
Proof.
  intros Hok.
  destruct (decide (NoDup (List.filter (has_ancestor_in scopes) scopes)))
    as [Hnd|Hnd]; [done|].
  destruct (first_repeat _ _ Hnd) as (seen & leaf & rest & Heq & Hin & Hp & Hseen).
  by rewrite (dedup_scopes_repeated _ _ _ _ Heq Hin Hseen Hp) in Hok.
Qed.

Lemma path_from_lineage a s path : path_from a s = Some path → a ∈ lineage s.
Proof.
  revert path. induction s as [i n|i n p IH] using scope_induction; intros path; simpl.
  - case_decide as Heq; [|done]. intros _. rewrite Heq. left.
  - case_decide as Heq; [intros _; rewrite Heq; left|].
    destruct (path_from a p) as [l|] eqn:Hp; [|done]. intros _. right. by eapply IH.
Qed.

Lemma root_of_lineage f t : f ∈ lineage t → parent f = None → root t = f.
Proof.
  induction t as [i n|i n p IH] using scope_induction; simpl.
  - by intros ->%list_elem_of_singleton.
  - intros [->|H]%elem_of_cons; [done|]. by apply IH.
Qed.

(** The path to a scope, from the parent of the scope the path starts at. *)
Lemma path_from_cons s c t path :
  parent c = Some s → path_from c t = Some path → path_from s t = Some (name c :: path).
Proof.
  intros Hc. revert path.
  assert (Hcs : c ≠ s).
  { intros ->. apply (not_elem_of_ancestors s). unfold ancestors. rewrite Hc.
    rewrite lineage_cons. left. }
  assert (Hself : path_from s c = Some [name c]).
  { destruct c as [i n [p|]]; simplify_eq/=. rewrite decide_False by done.
    destruct s as [j m q]. simpl. by rewrite decide_True. }
  induction t as [i n|i n p IH] using scope_induction; intros path.
  - simpl. case_decide as Heq; [|done]. subst c. done.
  - destruct (decide (MkScope i n (Some p) = c)) as [Heq|Hne].
    + rewrite Heq. destruct c as [j m q]. simpl. rewrite decide_True by done.
      by intros [= <-].
    + simpl. rewrite decide_False by done.
      destruct (path_from c p) as [l|] eqn:Hp; [|done]. simpl. intros [= <-].
      specialize (IH _ eq_refl).
      assert (Hts : MkScope i n (Some p) ≠ s).
      { intros <-. apply path_from_lineage in IH.
        apply (not_elem_of_ancestors (MkScope i n (Some p))). done. }
      rewrite decide_False by done. by rewrite IH.
Qed.

(** The object of [s] records [child] as the child to reuse under [nm]. *)
Definition remembers (h : Heap) (s : Scope) (nm : option string) (child : Scope) : Prop :=
  ∃ st, objects h !! scope_id s = Some st ∧ scope_id s < next_id h ∧
        List.find (λ kv, bool_decide (kv.1 = nm)) (reuse_scopes st) = Some (nm, child).

(** From [s], the names of [path] lead through remembered children to [t]. *)
Fixpoint remembered (h : Heap) (s : Scope) (path : Path) (t : Scope) : Prop :=
  match path with
  | [] => t = s
  | nm :: path' => ∃ child, remembers h s nm child ∧ remembered h child path' t
  end.

(** What is remembered in [h] is remembered in [h']. *)
Definition stable (h h' : Heap) : Prop :=
  ∀ s nm child, remembers h s nm child → remembers h' s nm child.

Lemma remembered_stable h h' s path t :
  stable h h' → remembered h s path t → remembered h' s path t.
Proof.
  intros Hst. revert s. induction path as [|nm path IH]; intros s; simpl; [done|].
  intros (child & Hr & Hp). exists child. split; [by apply Hst | by apply IH].
Qed.

Lemma remembered_functional h s path t t' :
  remembered h s path t → remembered h s path t' → t = t'.
Proof.
  revert s. induction path as [|nm path IH]; intros s; simpl; [congruence|].
  intros (c & (st & Hst & _ & Hf) & Hp) (c' & (st' & Hst' & _ & Hf') & Hp').
  simplify_eq. by eapply IH.
Qed.

Lemma find_app_Some {A} (p : A → bool) (l1 l2 : list A) x :
  List.find p l1 = Some x → List.find p (l1 ++ l2) = Some x.
Proof.
  induction l1 as [|y l1 IH]; simpl; [done|]. by destruct (p y).
Qed.

Lemma find_app_None {A} (p : A → bool) (l1 l2 : list A) :
  List.find p l1 = None → List.find p (l1 ++ l2) = List.find p l2.
Proof.
  induction l1 as [|y l1 IH]; simpl; [done|]. by destruct (p y).
Qed.

Lemma NoDup_fmap_inj_on {A B} (f : A → B) (l : list A) x y :
  NoDup (f <$> l) → x ∈ l → y ∈ l → f x = f y → x = y.
Proof.
  induction l as [|a l IH]; csimpl; intros Hnd Hx Hy Heq.
  { by apply elem_of_nil in Hx. }
  apply NoDup_cons in Hnd as [Ha Hnd].
  apply elem_of_cons in Hx as [->|Hx]; apply elem_of_cons in Hy as [->|Hy]; try done.
  - destruct Ha. rewrite Heq. by apply list_elem_of_fmap_2.
  - destruct Ha. rewrite <- Heq. by apply list_elem_of_fmap_2.
  - by apply IH.
Qed.

(** The scopes [T] form trees in the heap: each has its object, no two share
    one, and the children an object records are scopes of [T] that bear the
    recorded name and have the scope for parent. *)
Record scope_tree_ok (T : list Scope) (h : Heap) : Prop := MkTreeOk {
  tree_ids : NoDup (scope_id <$> T);
  tree_objects : ∀ t, t ∈ T →
    ∃ st, objects h !! scope_id t = Some st ∧ scope_id t < next_id h ∧
          ∀ nm child, (nm, child) ∈ reuse_scopes st →
            child ∈ T ∧ name child = nm ∧ parent child = Some t;
}.

(** [push(name, reuse=True)] on a scope of such trees. *)
Lemma push_tree_ok T h s nm :
  scope_tree_ok T h → s ∈ T →
  ∃ child h' T',
    push s nm true h = (Ok child, h') ∧ scope_tree_ok T' h' ∧ T ⊆ T' ∧ child ∈ T' ∧
    name child = nm ∧ parent child = Some s ∧ remembers h' s nm child ∧ stable h h'.
Proof.
  intros [Hids Hobj] Hs. destruct (Hobj s Hs) as (st & Hst & Hlt & Hch).
  unfold push, mbind at 1, M_bind at 1, get_state. rewrite Hst.
  destruct (List.find _ (reuse_scopes st)) as [[nm' child]|] eqn:Hfind.
  - apply find_some in Hfind as Hfound. destruct Hfound as [Hin Hnm].
    apply bool_decide_eq_true in Hnm. simpl in Hnm. subst nm'.
    apply list_elem_of_In in Hin. destruct (Hch _ _ Hin) as (HcT & Hname & Hpar).
    exists child, h, T. split; [done|]. split; [by split|]. split; [done|].
    split; [done|]. split; [done|]. split; [done|].
    split; [by exists st | by intros ???].
  - set (child := MkScope (next_id h) nm (Some s)).
    set (st_child := MkScopeState [] [] ((λ kv : string * PRNGKey, (kv.1, 0)) <$> [])
                       (mutable st) false true []).
    set (st' := MkScopeState (_variables st) (rngs st) (rng_counters st) (mutable st)
                  (_invalid st) (trace_valid st) (reuse_scopes st ++ [(nm, child)])).
    set (h' := set_objects <[scope_id s := st']>
                 (add_event (EvNewScope child)
                    (set_next_id (S (next_id h))
                       (set_objects <[next_id h := st_child]> h)))).
    assert (Hpush : (mbind (M := M) (λ child0 : Scope,
               st0 ← (λ h0, match objects h0 !! scope_id s with
                            | Some st1 => (Ok st1, h0)
                            | None => (Raise (InvalidScope (scope_id s)), h0)
                            end);
               _ ← set_state s (MkScopeState (_variables st0) (rngs st0)
                     (rng_counters st0) (mutable st0) (_invalid st0) (trace_valid st0)
                     (reuse_scopes st0 ++ [(nm, child0)]));
               mret child0)
             (new_scope [] nm [] (mutable st) (Some s))) h = (Ok child, h')).
    { unfold mbind, M_bind, new_scope, set_state, modify. simpl.
      rewrite lookup_insert_ne by lia. by rewrite Hst. }
    exists child, h', (T ++ [child]).
    split; [exact Hpush|].
    assert (Hfresh : ∀ t, t ∈ T → scope_id t ≠ next_id h).
    { intros t Ht. destruct (Hobj t Ht) as (? & _ & ? & _). lia. }
    split; [|split; [set_solver|split; [set_solver|]]].
    + split.
      * rewrite fmap_app. apply NoDup_app. split; [done|]. split; [|apply NoDup_singleton].
        intros id (t & -> & Ht)%list_elem_of_fmap Hc. csimpl in Hc.
        apply list_elem_of_singleton in Hc. by apply (Hfresh t).
      * intros t [Ht| ->%list_elem_of_singleton]%elem_of_app.
        -- destruct (decide (scope_id t = scope_id s)) as [Heq|Hne].
           ++ assert (t = s) as ->.
              { by apply (NoDup_fmap_inj_on scope_id T). }
              exists st'. simpl. rewrite lookup_insert_eq. split; [done|].
              split; [lia|]. intros nm' c [Hin|Hin%list_elem_of_singleton]%elem_of_app.
              ** destruct (Hch _ _ Hin) as (? & ? & ?). set_solver.
              ** simplify_eq. set_solver.
           ++ destruct (Hobj t Ht) as (st_t & Hst_t & Hlt_t & Hch_t).
              exists st_t. simpl. rewrite lookup_insert_ne by done.
              rewrite lookup_insert_ne by (by apply not_eq_sym, Hfresh).
              split; [done|]. split; [lia|].
              intros nm' c Hin. destruct (Hch_t _ _ Hin) as (? & ? & ?). set_solver.
        -- exists st_child. simpl.
           rewrite lookup_insert_ne by (by apply Hfresh).
           rewrite lookup_insert_eq. split; [done|]. split; [lia|].
           intros nm' c Hin. by apply elem_of_nil in Hin.
    + split; [done|]. split; [done|]. split.
      * exists st'. simpl. rewrite lookup_insert_eq. split; [done|]. split; [lia|].
        simpl. rewrite find_app_None by done. simpl.
        by rewrite bool_decide_eq_true_2.
      * intros s0 nm0 c0 (st0 & Hst0 & Hlt0 & Hf0).
        destruct (decide (scope_id s0 = scope_id s)) as [Heq|Hne].
        -- rewrite Heq, Hst in Hst0. simplify_eq.
           exists st'. simpl. rewrite Heq, lookup_insert_eq. split; [done|]. split; [lia|].
           simpl. by apply find_app_Some.
        -- exists st0. simpl. rewrite lookup_insert_ne by done.
           rewrite lookup_insert_ne by lia. split; [done|]. split; [lia|done].
Qed.

Lemma stable_trans h1 h2 h3 : stable h1 h2 → stable h2 h3 → stable h1 h3.
Proof. intros H12 H23 s nm c H. by apply H23, H12. Qed.

(** The inner loop of [_dup_scopes] on a scope of such trees. *)
Lemma push_path_tree_ok path : ∀ T h s,
  scope_tree_ok T h → s ∈ T →
  ∃ t h' T',
    push_path s path h = (Ok t, h') ∧ scope_tree_ok T' h' ∧ T ⊆ T' ∧ t ∈ T' ∧
    path_from s t = Some path ∧ remembered h' s path t ∧ stable h h'.
Proof.
  induction path as [|nm path IH]; intros T h s Hok Hs.
  - exists s, h, T. simpl. split; [done|]. split; [done|]. split; [done|].
    split; [done|]. split; [|split; [done | by intros ???]].
    destruct s as [i n p]. simpl. by rewrite decide_True.
  - destruct (push_tree_ok T h s nm Hok Hs)
      as (child & h1 & T1 & Hpush & Hok1 & HT1 & Hc1 & Hname & Hpar & Hrem & Hst1).
    destruct (IH T1 h1 child Hok1 Hc1)
      as (t & h2 & T2 & Hpp & Hok2 & HT2 & Ht & Hpath & Hrm & Hst2).
    exists t, h2, T2. cbn [push_path]. unfold mbind, M_bind. rewrite Hpush.
    split; [done|]. split; [done|]. split; [set_solver|]. split; [done|].
    split; [|split].
    + rewrite <- Hname. by apply path_from_cons.
    + simpl. exists child. split; [by apply Hst2 | done].
    + by eapply stable_trans.
Qed.

(** The loop of [_dup_scopes], lines 63-67. *)
Lemma dup_scopes_tree_ok (mapping : list (Scope * Scope)) (paths : list (Scope * Path)) :
  ∀ T h,
  scope_tree_ok T h →
  Forall (λ rp, ∃ f, mapping_get mapping rp.1 = Some f ∧ f ∈ T) paths →
  ∃ result h' T',
    map_M (λ rp : Scope * Path,
             match mapping_get mapping rp.1 with
             | None => raise (KeyError (scope_id rp.1))
             | Some scope => push_path scope rp.2
             end) paths h = (Ok result, h') ∧
    scope_tree_ok T' h' ∧ T ⊆ T' ∧ stable h h' ∧
    Forall2 (λ rp t, ∃ f, mapping_get mapping rp.1 = Some f ∧
                          path_from f t = Some rp.2 ∧ remembered h' f rp.2 t)
      paths result.
Proof.
  induction paths as [|rp paths IH]; intros T h Hok Hall.
  - exists [], h, T. split; [done|]. split; [done|]. split; [done|].
    split; [by intros ???|constructor].
  - apply Forall_cons in Hall as [(f & Hm & Hf) Hall].
    destruct (push_path_tree_ok rp.2 T h f Hok Hf)
      as (t & h1 & T1 & Hpp & Hok1 & HT1 & Ht & Hpath & Hrm & Hst1).
    destruct (IH T1 h1 Hok1) as (result & h2 & T2 & Hmap & Hok2 & HT2 & Hst2 & Hres).
    { eapply Forall_impl; [done|]. intros rp' (f' & ? & ?). exists f'. set_solver. }
    exists (t :: result), h2, T2. cbn [map_M]. unfold mbind, M_bind.
    rewrite Hm, Hpp, Hmap. split; [done|]. split; [done|]. split; [set_solver|].
    split; [by eapply stable_trans|]. constructor; [|done].
    exists f. split; [done|]. split; [done|]. by eapply remembered_stable.
Qed.

(** [dict(zip(orig_scopes, scopes))] at a key that [orig_scopes] has once. *)
Lemma mapping_get_zip (roots fresh : list Scope) k r f :
  NoDup roots → length fresh = length roots →
  roots !! k = Some r → fresh !! k = Some f →
  mapping_get (zip roots fresh) r = Some f.
Proof.
  intros Hnd Hlen Hr Hf. unfold mapping_get.
  assert (Hin : (r, f) ∈ zip roots fresh).
  { apply list_elem_of_lookup. exists k. apply lookup_zip_with_Some. by exists r, f. }
  destruct (List.find _ (rev (zip roots fresh))) as [[r' f']|] eqn:Hfind.
  - apply find_some in Hfind as [Hin' Heq]. apply bool_decide_eq_true in Heq.
    simpl in Heq. subst r'. apply in_rev, list_elem_of_In in Hin'.
    apply list_elem_of_lookup in Hin' as [k' Hk'].
    apply lookup_zip_with_Some in Hk' as (x & y & [= <- <-] & Hx & Hy).
    assert (k' = k) as -> by (by eapply NoDup_lookup).
    simpl. congruence.
  - assert (Hno : bool_decide ((r, f).1 = r) = false).
    { apply (find_none _ _ Hfind (r, f)). apply (proj1 (in_rev _ _)).
      by apply list_elem_of_In. }
    by apply bool_decide_eq_false in Hno.
Qed.

Lemma map_M_app_raise {A B} (f : A → M B) (l1 l2 : list A) a e h r1 h1 :
  map_M f l1 h = (Ok r1, h1) → f a h1 = (Raise e, h1) →
  map_M f (l1 ++ a :: l2) h = (Raise e, h1).
Proof.
  revert h r1. induction l1 as [|b l1 IH]; intros h r1; simpl.
  - intros [= <- <-] Ha. unfold mbind, M_bind. by rewrite Ha.
  - unfold mbind, M_bind. destruct (f b h) as [[y|e'] h0]; [|done].
    destruct (map_M f l1 h0) as [[r|e'] h2] eqn:Emap; [|done].
    intros [= <- <-] Ha. by rewrite (IH _ _ Emap Ha).
Qed.

(** The keys of [dict(zip(orig_scopes, scopes))]. *)
Lemma mapping_get_None (orig_scopes scopes : list Scope) root :
  root ∉ take (length scopes) orig_scopes →
  mapping_get (zip orig_scopes scopes) root = None.
Proof.
  intros Hno. destruct (mapping_get _ root) as [s|] eqn:Hm; [|done].
  apply mapping_get_elem, list_elem_of_lookup in Hm as [k Hk].
  apply lookup_zip_with_Some in Hk as (x & y & [= <- <-] & Hx & Hy).
  destruct Hno. apply list_elem_of_lookup. exists k.
  rewrite lookup_take_lt; [done|]. by eapply lookup_lt_Some.
Qed.

(** ** The groups [scan] hands to the scan primitive *)

(** Lines 473-476 of [scan]'s payload: the groups [pack] extracted, read by
    group instead of by scope; the first two are the broadcast and the carry
    groups, the others go back to one tuple per scope.  Indexing a tuple that
    is too short raises [IndexError]. *)
Definition scan_inputs (variable_groups_xs : list VariableGroups)
    : result (list Variables * list Variables * list (list Variables)) :=
  match zip_star variable_groups_xs with
  | broadcast_vars :: carry_vars :: rest =>
      Ok (broadcast_vars, carry_vars, zip_star rest)
  | _ => Raise IndexError
  end.

Lemma zip_star_spec {A} (xss : list (list A)) c :
  xss ≠ [] → Forall (λ row, length row = c) xss →
  length (zip_star xss) = c ∧
  ∀ j col, zip_star xss !! j = Some col →
    length col = length xss ∧ ∀ i, col !! i = (xss !! i) ≫= (.!! j).
Proof.
  induction xss as [|row rest IH]; [done|]. intros _ Hall.
  apply Forall_cons in Hall as [Hrow Hrest].
  destruct rest as [|row' rest].
  - simpl. split; [by rewrite length_fmap|].
    intros j col. rewrite list_lookup_fmap.
    destruct (row !! j) as [x|] eqn:Hx; [|done]. intros [= <-].
    split; [done|]. intros [|i]; simpl; [done|]. by rewrite lookup_nil.
  - destruct (IH ltac:(done) Hrest) as [Hlen Hcols].
    change (zip_star (row :: row' :: rest))
      with (zip_with cons row (zip_star (row' :: rest))).
    split; [rewrite length_zip_with; lia|].
    intros j col (y & col' & -> & Hy & Hcol')%lookup_zip_with_Some.
    destruct (Hcols _ _ Hcol') as [Hl Hi]. split; [simpl; by rewrite Hl|].
    intros [|i]; [done|]. apply Hi.
Qed.

Lemma zip_star_involutive {A} (xss : list (list A)) c :
  xss ≠ [] → c ≠ 0 → Forall (λ row, length row = c) xss →
  zip_star (zip_star xss) = xss.
Proof.
  intros Hne Hc Hall. destruct (zip_star_spec xss c Hne Hall) as [Hlen Hcols].
  assert (zip_star xss ≠ []) as Hne' by (intros E; rewrite E in Hlen; simpl in Hlen; lia).
  assert (Forall (λ col, length col = length xss) (zip_star xss)) as Hall'.
  { apply Forall_forall. intros col [j Hj]%list_elem_of_lookup. by apply (Hcols j). }
  destruct (zip_star_spec _ _ Hne' Hall') as [Hlen' Hrows].
  apply list_eq_same_length with (length xss); [done..|].
  intros i row row' Hi Hrow Hrow'. destruct (Hrows _ _ Hrow) as [Hl Hent].
  assert (length row' = c) as Hl'.
  { by apply (proj1 (Forall_forall _ _) Hall), list_elem_of_lookup_2 with i. }
  apply list_eq. intros j. rewrite Hent.
  destruct (zip_star xss !! j) as [col|] eqn:Hcol; simpl.
  - destruct (Hcols _ _ Hcol) as [_ ->]. by rewrite Hrow'.
  - apply lookup_ge_None in Hcol. symmetry. apply lookup_ge_None. lia.
Qed.

(** ** The write-back of the groups the payload returned *)

(** The payload of the call [pack fs fn scope_tree] from [h] has returned [y]
    and the groups [out]: [scopes] and [paths] are what de-duplication gave,
    [vgs] and [rgs] the groups extracted from the canonical scopes, [h1] the
    heap after the rng derivations. *)
Definition pack_payload_returned {Y} (fs : Filters)
    (fn : list VariableGroups → list RngGroups → Payload Y) (scope_tree : list Scope)
    (h : Heap) (scopes : list Scope) (paths : list (Scope * Path))
    (vgs : list VariableGroups) (rgs : list RngGroups) (h1 : Heap)
    (y : Y) (out : list VariableGroups) : Prop :=
  _dedup_scopes scope_tree = Ok (scopes, paths) ∧
  pack_variable_groups fs scopes h = (Ok vgs, h) ∧
  pack_rng_groups fs scopes h = (Ok rgs, h1) ∧
  (run_payload fs scopes paths (fn vgs rgs) (payload_start h1)).1 = Ok (y, out).

(** [put_variable] on the collection [col] of [s] is permitted: the scope is
    there and valid, its root lets [col] be written, and the scope's [col] is
    no immutable snapshot. *)
Definition writable (h : Heap) (s : Scope) (col : string) : Prop :=
  ∃ st root_st,
    objects h !! scope_id s = Some st ∧
    objects h !! scope_id (root s) = Some root_st ∧
    _invalid st = false ∧
    in_filter (mutable root_st) col = true ∧
    ∀ c, get col (_variables st) = Some c → is_frozen c = false.

(** Every entry of the groups [out] may be written to its scope. *)
Definition all_writable (h : Heap) (scopes : list Scope) (out : list VariableGroups)
    : Prop :=
  ∀ s groups g col c,
    (s, groups) ∈ zip scopes out → g ∈ groups → (col, c) ∈ g → writable h s col.

(** [writable] looks at the flag, the filter and the collection only. *)
Lemma writable_transfer h h' s col :
  writable h s col →
  (∀ id st, objects h !! id = Some st →
     ∃ st', objects h' !! id = Some st' ∧ _invalid st' = _invalid st ∧
            mutable st' = mutable st ∧
            ∀ c, get col (_variables st') = Some c →
                 get col (_variables st) = Some c ∨ is_frozen c = false) →
  writable h' s col.
Proof.
  intros (st & rst & Hst & Hrst & Hinv & Hmut & Hfr) Hsame.
  destruct (Hsame _ _ Hst) as (st' & Hst' & Hinv' & _ & Hcol').
  destruct (Hsame _ _ Hrst) as (rst' & Hrst' & _ & Hmut' & _).
  exists st', rst'. split; [done|]. split; [done|].
  split; [congruence|]. split; [congruence|].
  intros c Hc. destruct (Hcol' c Hc) as [Hold|Hnew]; [by apply Hfr | done].
Qed.

Lemma put_variable_writable h s col var value :
  writable h s col →
  (put_variable s col var value h).1 = Ok () ∧
  ∀ s' col', writable h s' col' →
             writable (put_variable s col var value h).2 s' col'.
Proof.
  intros (st & rst & Hst & Hrst & Hinv & Hmut & Hfr).
  unfold put_variable, mbind, M_bind, get_state. rewrite Hst. simpl.
  rewrite Hrst. simpl. rewrite Hinv, Hmut. simpl.
  destruct (default (PlainDict []) (get col (_variables st))) as [entries|entries]
    eqn:Hcol.
  2:{ destruct (get col (_variables st)) as [c|] eqn:Hget; simpl in Hcol; [|done].
      subst c. by specialize (Hfr _ eq_refl). }
  simpl. split; [done|]. intros s' col' Hw.
  apply (writable_transfer h); [done|]. intros id st0 Hst0. simpl.
  destruct (decide (id = scope_id s)) as [->|Hne].
  - rewrite lookup_insert_eq. eexists. split; [done|]. simpl.
    rewrite Hst in Hst0. simplify_eq. split; [done|]. split; [done|].
    intros c. destruct (decide (col = col')) as [<-|Hc].
    + rewrite get_set_eq. intros [= <-]. by right.
    + rewrite get_set_ne by done. by left.
  - rewrite lookup_insert_ne by done. exists st0. split; [done|].
    split; [done|]. split; [done|]. by left.
Qed.

Lemma for_each_succeeds {A} (I : Heap → Prop) (f : A → M unit) l : ∀ h,
  (∀ a h, a ∈ l → I h → (f a h).1 = Ok () ∧ I (f a h).2) → I h →
  (for_each f l h).1 = Ok () ∧ I (for_each f l h).2.
Proof.
  induction l as [|a l IH]; intros h Hf HI; simpl; [done|].
  unfold mbind, M_bind. destruct (Hf a h (list_elem_of_here _ _) HI) as [Hr HI'].
  destruct (f a h) as [[[]|e] h1]; simpl in *; [|done].
  apply IH; [|done]. intros b h2 Hb. apply Hf. by right.
Qed.

(** When every entry may be written, the write-back writes them all. *)
Lemma write_back_succeeds scopes out h :
  all_writable h scopes out → (write_back scopes out h).1 = Ok ().
Proof.
  intros Hall. unfold write_back.
  apply (for_each_succeeds (λ h, all_writable h scopes out)); [|done].
  intros [s groups] h1 Hz HI. simpl.
  apply (for_each_succeeds (λ h, all_writable h scopes out)); [|done].
  intros g h2 Hg HI2.
  apply (for_each_succeeds (λ h, all_writable h scopes out)); [|done].
  intros [col c] h3 Hc HI3. simpl.
  apply (for_each_succeeds (λ h, all_writable h scopes out)); [|done].
  intros [var value] h4 _ HI4. simpl.
  destruct (put_variable_writable h4 s col var value) as [Hok Hkeep].
  { by eapply HI4. }
  split; [done|]. intros s' groups' g' col' c' Hz' Hg' Hc'.
  apply Hkeep. by eapply HI4.
Qed.

(** The rng derivations change generator counters only. *)
Lemma writable_make_rng s col s' kind :
  keeps (λ h, writable h s col) (make_rng s' kind).
Proof.
  intros h Hw. unfold make_rng, mbind, M_bind, get_state.
  destruct (objects h !! scope_id s') as [st|] eqn:Hst; simpl; [|done].
  destruct (get kind (rngs st)) as [key|]; simpl; [|done].
  apply (writable_transfer h); [done|]. intros id st0 Hst0. simpl.
  destruct (decide (id = scope_id s')) as [->|Hne].
  - rewrite lookup_insert_eq. eexists. split; [done|]. simpl.
    rewrite Hst in Hst0. simplify_eq. split; [done|]. split; [done|]. by left.
  - rewrite lookup_insert_ne by done. exists st0. split; [done|].
    split; [done|]. split; [done|]. by left.
Qed.

Lemma writable_pack_rng_groups fs scopes s col :
  keeps (λ h, writable h s col) (pack_rng_groups fs scopes).
Proof.
  unfold pack_rng_groups. apply keeps_map_M. intros s' _.
  apply keeps_bind; [apply keeps_pure, get_state_heap|]. intros st.
  apply keeps_map_M. intros g _. apply keeps_map_M. intros [kind key] _.
  apply keeps_bind; [apply writable_make_rng|]. intros k. by apply hoare_ret.
Qed.

(** [pack] once its payload has returned: the events so far (rng derivations,
    the payload's run, its exit and the invalidations of the [finally]) have
    no write; then come the writes of the write-back, which are those of the
    entries of the payload's groups, in order, up to the first one refused. *)
Lemma pack_returned_spec {Y} fs (fn : list VariableGroups → list RngGroups → Payload Y)
    scope_tree h scopes paths vgs rgs h1 y out :
  dom_bounded h →
  pack_payload_returned fs fn scope_tree h scopes paths vgs rgs h1 y out →
  ∃ before writes,
    trace (pack fs fn scope_tree h).2 = trace h ++ before ++ writes ∧
    Forall (λ ev, ¬ is_put ev) before ∧
    EvPayloadExit true ∈ before ∧
    writes `prefix_of` expected_puts scopes out ∧
    (is_ok (pack fs fn scope_tree h).1 = true →
       (pack fs fn scope_tree h).1 = Ok y ∧ writes = expected_puts scopes out) ∧
    (all_writable h scopes out → (pack fs fn scope_tree h).1 = Ok y) ∧
    (∀ id col var, id < next_id h →
       value_at (pack fs fn scope_tree h).2 id col var =
         replay_puts writes id col var (value_at h id col var)) ∧
    (∀ id, id < next_id h → id ∉ scope_id <$> scopes →
       objects (pack fs fn scope_tree h).2 !! id = objects h !! id) ∧
    (∀ id col, id < next_id h →
       ¬ fp_collection (write_footprint scopes out) id col →
       lookup_collection (pack fs fn scope_tree h).2 id col = lookup_collection h id col).
Proof.
  intros Hb (Hd & Hvg & Hrng & Hrun).
  pose proof (effect_pack_rng_groups fs scopes h) as [HoA HcA (pre & HtA & HeA) HnA HbA].
  pose proof (writable_pack_rng_groups fs scopes) as HwA.
  rewrite Hrng in HoA, HcA, HtA, HnA, HbA. simpl in *. specialize (HbA Hb).
  pose proof (pack_call_spec fs scopes paths (fn vgs rgs) h1 HbA)
    as (HoB & HnB & evs & cell & HtB & HseqB & HpB).
  pose proof (pack_call_result fs scopes paths (fn vgs rgs) h1) as HrB.
  rewrite Hrun in HrB.
  destruct (pack_outcomes fs fn scope_tree h)
    as [(e' & He' & _)|(scopes' & paths' & Hd' & Hrest)]; [congruence|].
  rewrite Hd in Hd'. injection Hd' as <- <-.
  destruct Hrest as [(e' & Hvg' & _)|(vgs' & Hvg' & Hrest)]; [congruence|].
  rewrite Hvg in Hvg'. injection Hvg' as <-.
  destruct Hrest as [(e' & h1' & Hrng' & _)|(rgs' & h1' & Hrng' & Hrest)]; [congruence|].
  rewrite Hrng in Hrng'. injection Hrng' as <- <-.
  destruct Hrest as [(e' & h2 & Hcall & _)|(y' & out' & h2 & Hcall & ->)];
    [rewrite Hcall in HrB; done|].
  rewrite Hcall in *. simpl in *. injection HrB as -> ->.
  destruct (writes_events_write_back scopes out h2) as (writes & HtC & HpC & HsC).
  destruct (replayed_write_back h2 (trace h2) scopes out h2) as (ws & Hws & _ & Hrep).
  { exists []. by rewrite app_nil_r. }
  rewrite HtC in Hws. apply app_inv_head in Hws as <-.
  pose proof (effect_write_back scopes out h2) as [HoC HcC _ _ _].
  set (mid := EvPayloadEnter :: evs ++ EvPayloadExit true :: (EvInvalidate <$> cell)) in *.
  exists (pre ++ mid), writes.
  split; [by rewrite HtC, HtB, HtA, <- !app_assoc|].
  split.
  { apply Forall_app. split.
    - eapply Forall_impl; [done|]. by intros ev (s & kind & _ & ->) [].
    - constructor; [by intros []|]. by apply sequenced_no_put. }
  split; [unfold mid; set_solver|]. split; [done|].
  split.
  { destruct (write_back scopes out h2).1 as [[]|e] eqn:Hwb; [|done].
    intros _. split; [done|]. by eapply HsC. }
  split.
  { intros Hall. rewrite write_back_succeeds; [done|].
    intros s groups g col c Hz Hg Hc.
    specialize (HwA s col h (Hall _ _ _ _ _ Hz Hg Hc)). rewrite Hrng in HwA. simpl in HwA.
    apply (writable_transfer h1); [done|]. intros id st Hst.
    exists st. rewrite HoB; [by auto|]. apply HbA. by rewrite Hst. }
  split.
  { intros id col var Hlt. rewrite Hrep. f_equal. unfold value_at.
    rewrite <- (HcA id col) by tauto. unfold lookup_collection. by rewrite HoB by lia. }
  split.
  - intros id Hlt Hid. rewrite HoC by done. rewrite HoB by lia. by apply HoA.
  - intros id col Hlt Hid. rewrite HcC by done. rewrite <- (HcA id col) by tauto.
    unfold lookup_collection. by rewrite HoB by lia.
Qed.

(** Where the payload has not returned, nothing has been written. *)
Lemma pack_returned_or_untouched {Y} fs
    (fn : list VariableGroups → list RngGroups → Payload Y) scope_tree h :
  dom_bounded h →
  (∃ scopes paths vgs rgs h1 y out,
     pack_payload_returned fs fn scope_tree h scopes paths vgs rgs h1 y out) ∨
  (is_ok (pack fs fn scope_tree h).1 = false ∧
   (∃ evs, trace (pack fs fn scope_tree h).2 = trace h ++ evs ∧
           Forall (λ ev, ¬ is_put ev) evs) ∧
   ∀ id col, id < next_id h →
     lookup_collection (pack fs fn scope_tree h).2 id col = lookup_collection h id col).
Proof.
  intros Hb.
  assert (Hnil : ∃ evs, trace h = trace h ++ evs ∧ Forall (λ ev, ¬ is_put ev) evs).
  { exists []. by rewrite app_nil_r. }
  destruct (pack_outcomes fs fn scope_tree h)
    as [(e & _ & ->)|(scopes & paths & Hd & Hrest)]; [by right|].
  destruct Hrest as [(e & _ & ->)|(vgs & Hvg & Hrest)]; [by right|].
  pose proof (effect_pack_rng_groups fs scopes h) as [HoA HcA (pre & HtA & HeA) HnA HbA].
  assert (Hpre : Forall (λ ev, ¬ is_put ev) pre).
  { eapply Forall_impl; [done|]. by intros ev (s & kind & _ & ->) []. }
  destruct Hrest as [(e & h1 & Hrng & ->)|(rgs & h1 & Hrng & Hrest)];
    rewrite Hrng in HoA, HcA, HtA, HnA, HbA; simpl in *.
  { right. split; [done|]. split; [by exists pre|].
    intros id col _. by rewrite HcA by tauto. }
  specialize (HbA Hb).
  pose proof (pack_call_spec fs scopes paths (fn vgs rgs) h1 HbA)
    as (HoB & HnB & evs & cell & HtB & HseqB & HpB).
  pose proof (pack_call_result fs scopes paths (fn vgs rgs) h1) as HrB.
  destruct Hrest as [(e & h2 & Hcall & ->)|(y & out & h2 & Hcall & _)];
    rewrite Hcall in *; simpl in *.
  - right. split; [done|]. split.
    + eexists. split; [by rewrite HtB, HtA, <- app_assoc|].
      apply Forall_app. split; [done|]. constructor; [by intros []|].
      by apply sequenced_no_put.
    + intros id col Hlt. rewrite <- (HcA id col) by tauto.
      unfold lookup_collection. by rewrite HoB by lia.
  - left. by exists scopes, paths, vgs, rgs, h1, y, out.
Qed.

(** A variable that no write names keeps its value. *)
Lemma replay_puts_untouched evs id col var v :
  (∀ s col' var' value, EvPutVariable s col' var' value ∈ evs →
     ¬ (scope_id s = id ∧ col' = col ∧ var' = var)) →
  replay_puts evs id col var v = v.
Proof.
  unfold replay_puts. revert v. induction evs as [|ev evs IH]; intros v Hno; [done|].
  simpl. rewrite IH; [|intros ?????; eapply Hno; by right].
  destruct ev; try done. simpl. rewrite decide_False; [done|].
  eapply Hno. left.
Qed.

(** * The claims of the specification *)

(** ** The compiled-call lift *)

(** C9, as stated, at the positions [0] and [2]: the payload's position [0]
    (the scope) is dropped and not shifted, so [1] is no static position of
    the wrapped function, while position [2] becomes position [3]. *)
Lemma jit_static_argnums_drops_scope_position :
  jit_static_argnums (Argnums [0; 2]%Z) = [3%Z] ∧
  0%Z ∈ [0; 2]%Z ∧
  ¬ (0 + 1)%Z ∈ jit_static_argnums (Argnums [0; 2]%Z).
Proof.
  split; [reflexivity|]. split; [set_solver|].
  vm_compute. intros H. apply list_elem_of_singleton in H. discriminate.
Qed.

(** C9, amended: every caller-supplied static position [i > 0] of the payload
    [fn(scope, *args)] becomes static position [i + 1] of the wrapped function
    [jitted(variable_groups_xs, rng_groups_xs, *args)], which is where the same
    user argument stands; these are the only static positions, a position
    [i <= 0] is dropped, and a single integer counts as the list holding it. *)
Theorem jit_static_argnums_shift {A} (args : list A) (static_argnums : list Z) (i : Z) :
  (0 < i)%Z →
  i ∈ static_argnums →
  (i + 1)%Z ∈ jit_static_argnums (Argnums static_argnums) ∧
  jitted_params args !! Z.to_nat (i + 1) = fn_params args !! Z.to_nat i ∧
  (∀ j, j ∈ jit_static_argnums (Argnums static_argnums) ↔
        ∃ i', i' ∈ static_argnums ∧ (0 < i')%Z ∧ j = (i' + 1)%Z) ∧
  jit_static_argnums (OneArgnum i) = jit_static_argnums (Argnums [i]).
Proof.
  intros Hpos Hin.
  assert (Hchar : ∀ j, j ∈ jit_static_argnums (Argnums static_argnums) ↔
            ∃ i', i' ∈ static_argnums ∧ (0 < i')%Z ∧ j = (i' + 1)%Z).
  { intros j. unfold jit_static_argnums. rewrite list_elem_of_fmap.
    setoid_rewrite elem_of_filter_bool. setoid_rewrite bool_decide_eq_true.
    naive_solver. }
  split; [apply Hchar; eauto|]. split; [|done].
  unfold jitted_params, fn_params.
  replace (Z.to_nat (i + 1)) with (S (Z.to_nat i)) by lia.
  destruct (Z.to_nat i) as [|n] eqn:E; [lia | done].
Qed.

Lemma jit_static_argnums_shift_witness :
  (1 + 1)%Z ∈ jit_static_argnums (Argnums [0; 1]%Z) ∧
  jitted_params [10; 20] !! Z.to_nat (1 + 1) = fn_params [10; 20] !! Z.to_nat 1 ∧
  (∀ j, j ∈ jit_static_argnums (Argnums [0; 1]%Z) ↔
        ∃ i', i' ∈ [0; 1]%Z ∧ (0 < i')%Z ∧ j = (i' + 1)%Z) ∧
  jit_static_argnums (OneArgnum 1) = jit_static_argnums (Argnums [1%Z]).
Proof.
  apply (jit_static_argnums_shift [10; 20] [0; 1]%Z 1%Z); [lia | set_solver].
Defined.

(** ** Unmapped output variables *)

(** C2: for the collections of one inner scope, [repack] raises the
    'unmapped output variables' error exactly when some collection that is not
    frozen is accepted by no output filter, and the error names exactly those
    collections; otherwise it raises nothing and returns one group per output
    filter, the group of a filter holding the mutable collections that filter
    accepts and no earlier one does. *)
Theorem repack_scope_unmapped (out_variable_filters : list CollectionFilter)
    (variables : Variables) :
  (∀ col, col ∈ unmapped out_variable_filters variables ↔
          ∃ c, (col, c) ∈ variables ∧ is_frozen c = false ∧
               in_any_filter out_variable_filters col = false) ∧
  (unmapped out_variable_filters variables ≠ [] →
     repack_scope out_variable_filters variables =
       Raise (UnmappedOutputVariables (unmapped out_variable_filters variables))) ∧
  (unmapped out_variable_filters variables = [] →
     ∃ groups,
       repack_scope out_variable_filters variables = Ok groups ∧
       length groups = length out_variable_filters ∧
       ∀ i f, out_variable_filters !! i = Some f →
         ∃ g, groups !! i = Some g ∧
           ∀ col c, (col, c) ∈ g ↔
             (col, c) ∈ variables ∧ is_frozen c = false ∧
             in_filter f col = true ∧
             in_any_filter (take i out_variable_filters) col = false).
Proof.
  split; [|split].
  - intros col. unfold unmapped, keys. rewrite list_elem_of_fmap. split.
    + intros [[k c] [-> [Hin Hp]%elem_of_filter_bool]]. simpl in *.
      apply andb_true_iff in Hp as [Hf Hn]. exists c.
      by rewrite !negb_true_iff in *.
    + intros (c & Hin & Hf & Hn). exists (col, c). split; [done|].
      apply elem_of_filter_bool. split; [done|]. simpl. by rewrite Hf, Hn.
  - intros Hne. rewrite repack_scope_unfold.
    by rewrite bool_decide_eq_false_2.
  - intros Hnil. rewrite repack_scope_unfold, bool_decide_eq_true_2 by done.
    eexists. split; [done|]. split; [apply length_group_collections|].
    intros i f Hi. eexists. split; [by apply group_collections_lookup|].
    intros col c. rewrite !elem_of_filter_bool. simpl.
    rewrite andb_true_iff, !negb_true_iff. tauto.
Qed.

(** ** The batched-map lift *)

(** C7, as stated, at two array arguments of leading dimensions 4 and 5 under
    the default [in_axes=0]: the leaves mapped over axis 0 have two distinct
    sizes, yet only the first leaf under the axis is inspected and the batch
    size 4 is inferred with no error. *)
Lemma vmap_axis_size_first_leaf_only :
  let args := [PArray [4] 0; PArray [5] 1] in
  every_leaf_sizes (AxInt 0) (PTuple args) = Ok [4; 5] ∧
  vmap_axis_sizes [] (AxInt 0) [] args = Ok [4] ∧
  vmap_axis_size [] (AxInt 0) None [] args = Ok 4.
Proof. repeat split; reflexivity. Qed.

(** The example of the spec, with one axis per argument: dimensions 4 and 4
    give the size 4, dimensions 4 and 5 the error listing both. *)
Example vmap_axis_size_spec_example :
  vmap_axis_size [] (AxTuple [AxInt 0; AxInt 0]) None []
    [PArray [4; 2] 0; PArray [4] 1] = Ok 4 ∧
  vmap_axis_size [] (AxTuple [AxInt 0; AxInt 0]) None []
    [PArray [4; 2] 0; PArray [5] 1] = Raise (InconsistentBatchAxisSizes [4; 5]).
Proof. split; reflexivity. Qed.

(** C7, amended: [vmap] collects, for every subtree of the variable groups and
    arguments that stands under an integer axis of the axis specification, the
    size at that axis of the subtree's first leaf (a subtree without leaves
    gives none), as a set.  Two or more sizes in the set fail with the
    inconsistent-batch-axis-sizes error listing the set; an empty set with no
    explicit [axis_size] fails asking for the size; one size with no explicit
    [axis_size] is the batch size; and an explicit [axis_size] is used whenever
    the set has at most one size. *)
Theorem vmap_axis_size_inference (variable_in_axes : list (option Z))
    (in_axes : AxisTree) (axis_size : option nat)
    (variable_groups_xs : list (list Variables)) (args : list PyTree)
    (pairs : list (Z * PyTree)) (axis_sizes : list nat) :
  flatten_up_to
    (vmap_axes_tree variable_in_axes in_axes (length variable_groups_xs))
    (vmap_values_tree variable_groups_xs args) = Ok pairs →
  vmap_axis_sizes variable_in_axes in_axes variable_groups_xs args = Ok axis_sizes →
  NoDup axis_sizes ∧
  (∀ d, d ∈ axis_sizes ↔
        ∃ a x leaf rest, (a, x) ∈ pairs ∧ tree_leaves x = leaf :: rest ∧
                         shape_at (shape leaf) a = Ok d) ∧
  (1 < length axis_sizes →
     vmap_axis_size variable_in_axes in_axes axis_size variable_groups_xs args =
       Raise (InconsistentBatchAxisSizes axis_sizes)) ∧
  (axis_sizes = [] → axis_size = None →
     vmap_axis_size variable_in_axes in_axes axis_size variable_groups_xs args =
       Raise AxisSizeUnspecified) ∧
  (∀ d, axis_sizes = [d] → axis_size = None →
     vmap_axis_size variable_in_axes in_axes axis_size variable_groups_xs args = Ok d) ∧
  (∀ a, axis_size = Some a → length axis_sizes ≤ 1 →
     vmap_axis_size variable_in_axes in_axes axis_size variable_groups_xs args = Ok a).
Proof.
  intros Hflat Hsizes. unfold vmap_axis_size. rewrite Hsizes. simpl.
  unfold vmap_axis_sizes, tree_axis_sizes in Hsizes. rewrite Hflat in Hsizes.
  simpl in Hsizes.
  destruct (map_result _ pairs) as [sizes|e] eqn:Hmap; simplify_eq/=.
  apply map_result_Ok in Hmap.
  split; [apply NoDup_remove_dups|]. split.
  - intros d. rewrite elem_of_remove_dups, elem_of_concat. split.
    + intros (sz & Hd & Hsz).
      apply list_elem_of_lookup in Hsz as [i Hi].
      destruct (Forall2_lookup_r _ _ _ _ _ Hmap Hi) as ([a x] & Hp & Hf).
      simpl in Hf. apply (find_axis_size_elem _ _ d) in Hf.
      apply Hf in Hd as (leaf & rest & ? & ?).
      exists a, x, leaf, rest. split; [|done]. by eapply list_elem_of_lookup_2.
    + intros (a & x & leaf & rest & Hin & Hl & Hd).
      apply list_elem_of_lookup in Hin as [i Hi].
      destruct (Forall2_lookup_l _ _ _ _ _ Hmap Hi) as (sz & Hsz & Hf).
      simpl in Hf. exists sz. split; [|by eapply list_elem_of_lookup_2].
      apply (find_axis_size_elem _ _ d) in Hf. apply Hf. eauto.
  - repeat split.
    + intros Hlen. destruct (remove_dups (concat sizes)) as [|? [|? ?]];
        simpl in Hlen; [lia | lia |]. by destruct axis_size.
    + by intros -> ->.
    + by intros d -> ->.
    + intros a -> Hlen. by destruct (remove_dups (concat sizes)) as [|? [|? ?]];
        simpl in Hlen; [| | lia].
Qed.

Lemma vmap_axis_size_inference_witness :
  let groups := [[ [("params", PlainDict [("kernel", PArray [4; 3] 0)])] ]] in
  let args := [PArray [4; 2] 1; PArray [7] 2] in
  let axis_sizes := [4] in
  NoDup axis_sizes ∧
  (∀ d, d ∈ axis_sizes ↔
        ∃ a x leaf rest,
          (a, x) ∈ [(0%Z, variables_tree [("params", PlainDict [("kernel", PArray [4; 3] 0)])]);
                    (0%Z, PArray [4; 2] 1)] ∧
          tree_leaves x = leaf :: rest ∧ shape_at (shape leaf) a = Ok d) ∧
  (1 < length axis_sizes →
     vmap_axis_size [Some 0%Z] (AxTuple [AxInt 0; AxNone]) None groups args =
       Raise (InconsistentBatchAxisSizes axis_sizes)) ∧
  (axis_sizes = [] → @None nat = None →
     vmap_axis_size [Some 0%Z] (AxTuple [AxInt 0; AxNone]) None groups args =
       Raise AxisSizeUnspecified) ∧
  (∀ d, axis_sizes = [d] → @None nat = None →
     vmap_axis_size [Some 0%Z] (AxTuple [AxInt 0; AxNone]) None groups args = Ok d) ∧
  (∀ a, None = Some a → length axis_sizes ≤ 1 →
     vmap_axis_size [Some 0%Z] (AxTuple [AxInt 0; AxNone]) None groups args = Ok a).
Proof.
  apply (vmap_axis_size_inference [Some 0%Z] (AxTuple [AxInt 0; AxNone]) None
           [[ [("params", PlainDict [("kernel", PArray [4; 3] 0)])] ]]
           [PArray [4; 2] 1; PArray [7] 2]); reflexivity.
Defined.

(** ** De-duplication *)

Definition scope_A : Scope := MkScope 0 None None.
Definition scope_B : Scope := MkScope 1 (Some "b") (Some scope_A).
Definition scope_C : Scope := MkScope 2 (Some "c") (Some scope_B).
Definition scope_D : Scope := MkScope 3 None None.

Example dedup_example :
  _dedup_scopes [scope_C; scope_D; scope_A; scope_B; scope_A] =
    Ok ([scope_D; scope_A],
        [(scope_A, [Some "b"; Some "c"]); (scope_D, []); (scope_A, []);
         (scope_A, [Some "b"]); (scope_A, [])]).
Proof. reflexivity. Qed.

(** C4: for the handles [A, B, B], with [B] a child of [A], [_dedup_scopes]
    returns neither roots nor paths: at the second [B] line 56 deletes from
    [minimal_set] a key that the first [B] has already deleted, and the call
    raises [KeyError].  ([dedup_scopes_correct] has the roots and paths the
    claim describes for every input in which no handle with an ancestor among
    the input is repeated, and [dedup_scopes_repeated] the [KeyError] for
    every input in which one is.) *)
Theorem dedup_repeated_child :
  _dedup_scopes [scope_A; scope_B; scope_B] = Raise (KeyError 1).
Proof. reflexivity. Qed.

(** De-duplication followed by re-duplication against fresh roots. *)
Definition new_root (s : Scope) : M Scope := new_scope [] (name s) [] (FBool true) None.

Definition dedup_then_dup (scopes : list Scope) : M (list Scope) :=
  '(roots, paths) ← lift_result (_dedup_scopes scopes);
  fresh ← map_M new_root roots;
  _dup_scopes roots fresh paths.

Definition empty_heap (n : nat) : Heap := MkHeap ∅ n [] [] [].

Example dedup_then_dup_example :
  (dedup_then_dup [scope_C; scope_D; scope_A; scope_B; scope_A] (empty_heap 10)).1 =
    let A' := MkScope 11 None None in
    let D' := MkScope 10 None None in
    let B' := MkScope 12 (Some "b") (Some A') in
    let C' := MkScope 13 (Some "c") (Some B') in
    Ok [C'; D'; A'; B'; A'].
Proof. vm_compute. reflexivity. Qed.

(** C3: for the handles [A, B, B], with [B] a child of [A], de-duplication
    followed by re-duplication against fresh roots yields no scopes at all:
    [_dedup_scopes] raises [KeyError] at the second [B]. *)
Theorem dedup_then_dup_repeated_child :
  (dedup_then_dup [scope_A; scope_B; scope_B] (empty_heap 10)).1 = Raise (KeyError 1).
Proof. reflexivity. Qed.

(** ** The pack adapter at work *)

(** The payload of [jit], [remat] and [named_call]: one scope, the user's
    function (here: what it leaves in the inner scopes' variables), [repack],
    and the repacked groups returned. *)
Definition simple_payload {Y} (y : Y) (user : list (nat * Variables))
    (variable_groups_xs : list VariableGroups) (rng_groups_xs : list RngGroups)
    : Payload Y :=
  CallScopeFn variable_groups_xs rng_groups_xs (λ r,
    match r with
    | Raise e => Throw e
    | Ok _ =>
        foldr (λ iv k, SetVariables 0 iv.1 iv.2 k)
          (CallRepack 0 (λ r,
             match r with
             | Raise e => Throw e
             | Ok out => Return y out
             end))
          user
    end).

Definition demo_state : ScopeState :=
  MkScopeState
    [("params", PlainDict [("w", PArray [2] 1)]);
     ("stats", PlainDict [("mean", PArray [] 5)])]
    [("dropout", Key 7)] [("dropout", 0)] (FBool true) false true [].

Definition demo_heap : Heap := MkHeap {[ 0 := demo_state ]} 1 [] [] [].

Definition demo_filters : Filters :=
  MkFilters [FBool true] [FName "stats"] [FBool true].

Example pack_demo :
  let '(r, h) :=
    pack demo_filters
      (simple_payload 42
         [(0, [("params", FrozenDict [("w", PArray [2] 1)]);
               ("stats", PlainDict [("mean", PArray [] 6)])])])
      [scope_A] demo_heap in
  r = Ok 42 ∧
  _variables <$> objects h !! 0 =
    Some [("params", PlainDict [("w", PArray [2] 1)]);
          ("stats", PlainDict [("mean", PArray [] 6)])] ∧
  trace h =
    [EvMakeRng scope_A "dropout"; EvPayloadEnter;
     EvNewScope (MkScope 1 None None); EvScopeFn [MkScope 1 None None];
     EvInvalidate (MkScope 1 None None); EvPayloadExit true;
     EvInvalidate (MkScope 1 None None);
     EvPutVariable scope_A "stats" "mean" (PArray [] 6)].
Proof. vm_compute. done. Qed.

Example pack_demo_unmapped :
  (pack demo_filters
     (simple_payload 42
        [(0, [("params", PlainDict [("w", PArray [2] 9)]);
              ("stats", PlainDict [("mean", PArray [] 6)])])])
     [scope_A] demo_heap).1 = Raise (UnmappedOutputVariables ["params"]).
Proof. vm_compute. done. Qed.

(** ** The generations of inner scopes *)

(** A tree with a handle two names below its root: [A] and [C = A.b.c]. *)
Definition nested_heap : Heap :=
  MkHeap {[ 0 := MkScopeState (_variables demo_state) (rngs demo_state)
                   (rng_counters demo_state) (FBool true) false true
                   [(Some "b", scope_B)];
            1 := MkScopeState [] [] [] (FBool true) false true [(Some "c", scope_C)];
            2 := MkScopeState [] [] [] (FBool true) false true [] ]} 3 [] [] [].

(** C5, as stated, for the tree [(A, C)] with [C = A.b.c]: the one [scope_fn]
    invocation of the call creates three inner scopes, [A'] for the root,
    [B'] pushed for the name [b] on the way (lines 65-66) and [C'] pushed for
    [c]; it returns [A'] and [C'].  These two are invalidated; [B'] never is,
    and when the call has returned [B'] is still valid. *)
Lemma pack_intermediate_scope_stays_live :
  let A' := MkScope 3 None None in
  let B' := MkScope 4 (Some "b") (Some A') in
  let C' := MkScope 5 (Some "c") (Some B') in
  let r := pack demo_filters (simple_payload 42 []) [scope_A; scope_C] nested_heap in
  r.1 = Ok 42 ∧
  trace r.2 =
    [EvMakeRng scope_A "dropout"; EvPayloadEnter;
     EvNewScope A'; EvNewScope B'; EvNewScope C'; EvScopeFn [A'; C'];
     EvInvalidate A'; EvPayloadExit true;
     EvInvalidate A'; EvInvalidate C';
     EvPutVariable scope_A "stats" "mean" (PArray [] 5)] ∧
  ¬ (EvInvalidate B' ∈ trace r.2) ∧
  _invalid <$> (objects r.2 !! 4) = Some false ∧
  _invalid <$> (objects r.2 !! 3) = Some true ∧
  _invalid <$> (objects r.2 !! 5) = Some true.
Proof.
  intros A' B' C' r.
  assert (Htr : trace r.2 =
    [EvMakeRng scope_A "dropout"; EvPayloadEnter;
     EvNewScope A'; EvNewScope B'; EvNewScope C'; EvScopeFn [A'; C'];
     EvInvalidate A'; EvPayloadExit true;
     EvInvalidate A'; EvInvalidate C';
     EvPutVariable scope_A "stats" "mean" (PArray [] 5)]) by (vm_compute; reflexivity).
  split; [vm_compute; reflexivity|]. split; [done|]. split.
  - rewrite Htr. intros H.
    repeat (apply elem_of_cons in H as [H|H]; [discriminate H|]).
    by apply elem_of_nil in H.
  - repeat split; vm_compute; reflexivity.
Qed.

(** C5, amended: in the events [evs] of a [pack] call, whatever the payload
    does and whether the call returns or raises, for the inner scopes that a
    [scope_fn] call returns (the handles of the tree it hands to the payload,
    which are what [pack]'s [inner_scopes] holds): (1) between the handing out
    of a tree of inner scopes by [scope_fn] and the next creation of an inner
    scope (or the next handing out) every scope of that tree is invalidated;
    (2) at any instant the inner scopes handed out and not yet invalidated all
    belong to one tree, the last handed out; (3) when the call ends, in either
    way, every inner scope handed out has been invalidated since. *)
Theorem pack_inner_scope_generations {Y} fs
    (fn : list VariableGroups → list RngGroups → Payload Y) scope_tree h :
  dom_bounded h →
  ∃ evs, trace (pack fs fn scope_tree h).2 = trace h ++ evs ∧
    (∀ tr1 hs tr2 ev tr3, evs = tr1 ++ EvScopeFn hs :: tr2 ++ ev :: tr3 →
       creation ev → ∀ x, x ∈ hs → EvInvalidate x ∈ tr2) ∧
    (∀ tr1 tr2, evs = tr1 ++ tr2 →
       pending tr1 = [] ∨
       ∃ tra hs trb, tr1 = tra ++ EvScopeFn hs :: trb ∧ pending tr1 ⊆ hs) ∧
    (∀ tr1 hs tr2, evs = tr1 ++ EvScopeFn hs :: tr2 →
       ∀ x, x ∈ hs → EvInvalidate x ∈ tr2).
Proof.
  intros Hb. destruct (pack_trace_ordered fs fn scope_tree h Hb)
    as (evs & Htr & Hord & Hpend).
  exists evs. split; [done|]. split; [|split].
  - intros tr1 hs tr2 ev tr3 -> Hc x Hx.
    apply (pending_nil_invalidated tr1 hs tr2 x); [|done].
    specialize (Hord (length (tr1 ++ EvScopeFn hs :: tr2)) ev).
    replace (tr1 ++ EvScopeFn hs :: tr2 ++ ev :: tr3)
      with ((tr1 ++ EvScopeFn hs :: tr2) ++ ev :: tr3) in Hord
      by (by rewrite <- app_assoc).
    rewrite take_app_length in Hord. apply Hord; [|done].
    by apply list_lookup_middle.
  - by apply ordered_one_generation.
  - intros tr1 hs tr2 -> x Hx. by apply (pending_nil_invalidated tr1 hs tr2 x).
Qed.

Lemma pack_inner_scope_generations_witness :
  ∃ evs,
    trace (pack demo_filters
             (simple_payload 42 [(0, [("stats", PlainDict [("mean", PArray [] 6)])])])
             [scope_A] demo_heap).2 = trace demo_heap ++ evs ∧
    (∀ tr1 hs tr2 ev tr3, evs = tr1 ++ EvScopeFn hs :: tr2 ++ ev :: tr3 →
       creation ev → ∀ x, x ∈ hs → EvInvalidate x ∈ tr2) ∧
    (∀ tr1 tr2, evs = tr1 ++ tr2 →
       pending tr1 = [] ∨
       ∃ tra hs trb, tr1 = tra ++ EvScopeFn hs :: trb ∧ pending tr1 ⊆ hs) ∧
    (∀ tr1 hs tr2, evs = tr1 ++ EvScopeFn hs :: tr2 →
       ∀ x, x ∈ hs → EvInvalidate x ∈ tr2).
Proof.
  apply (pack_inner_scope_generations demo_filters
           (simple_payload 42 [(0, [("stats", PlainDict [("mean", PArray [] 6)])])])
           [scope_A] demo_heap).
  apply dom_bounded_singleton.
Defined.

(** The payload of [jit], [remat] and [named_call] returns what [repack]
    yields. *)
Lemma simple_payload_returns_repacked {Y} (y : Y) user vgs rgs :
  returns_repacked (simple_payload y user vgs rgs).
Proof.
  simpl. intros [l|e]; [|done].
  induction user as [|iv user IH]; simpl; [|done].
  intros [out|e]; [left; by eexists _, _ | by right].
Qed.
(** ** The write-back *)

(** C6: a [pack] call changes variables of scopes that existed before it in
    one place only, the write-back.  (1) Either the payload has returned, or
    the call raises and has no write among its events and has changed no
    collection.  (2) When the payload has returned [y] and the groups [out],
    the events of the call are [before ++ writes]: [before] has no write and
    has the payload's exit in it; [writes] are the writes, by [put_variable],
    of the entries of [out] to the canonical scopes, scope by scope, group by
    group, entry by entry, up to the first one refused; if the call returns
    it returns [y] and every entry was written, and it does return when every
    entry may be written; a collection that no group of [out] names is as it
    was.  (3) No object is changed but canonical scopes, which are scopes of
    the input tree.  (4) While the payload runs, from its start to the end of
    the [finally], no object that existed before is changed at all.  (Before
    the payload, [make_rng] advances the generator counters of the canonical
    scopes; their variables it leaves alone.) *)
Theorem pack_writes_once {Y} fs
    (fn : list VariableGroups → list RngGroups → Payload Y) scope_tree h :
  dom_bounded h →
  ((∃ scopes paths vgs rgs h1 y out,
      pack_payload_returned fs fn scope_tree h scopes paths vgs rgs h1 y out) ∨
   (is_ok (pack fs fn scope_tree h).1 = false ∧
    (∃ evs, trace (pack fs fn scope_tree h).2 = trace h ++ evs ∧
            Forall (λ ev, ¬ is_put ev) evs) ∧
    ∀ id col, id < next_id h →
      lookup_collection (pack fs fn scope_tree h).2 id col = lookup_collection h id col)) ∧
  (∀ scopes paths vgs rgs h1 y out,
     pack_payload_returned fs fn scope_tree h scopes paths vgs rgs h1 y out →
     ∃ before writes,
       trace (pack fs fn scope_tree h).2 = trace h ++ before ++ writes ∧
       Forall (λ ev, ¬ is_put ev) before ∧
       EvPayloadExit true ∈ before ∧
       writes `prefix_of` expected_puts scopes out ∧
       (is_ok (pack fs fn scope_tree h).1 = true →
          (pack fs fn scope_tree h).1 = Ok y ∧ writes = expected_puts scopes out) ∧
       (all_writable h scopes out →
          (pack fs fn scope_tree h).1 = Ok y ∧ writes = expected_puts scopes out) ∧
       (∀ id col, id < next_id h →
          ¬ (∃ s groups g c, (s, groups) ∈ zip scopes out ∧ id = scope_id s ∧
                             g ∈ groups ∧ (col, c) ∈ g) →
          lookup_collection (pack fs fn scope_tree h).2 id col =
            lookup_collection h id col)) ∧
  (∀ id, id < next_id h →
     id ∉ scope_id <$> scope_tree ∨
     (∃ scopes paths, _dedup_scopes scope_tree = Ok (scopes, paths) ∧
                      id ∉ scope_id <$> scopes) →
     objects (pack fs fn scope_tree h).2 !! id = objects h !! id) ∧
  (∀ scopes paths (p : Payload Y) h1, dom_bounded h1 →
     ∀ id, id < next_id h1 →
       objects (pack_call fs scopes paths p h1).2 !! id = objects h1 !! id).
Proof.
  intros Hb. split; [by apply pack_returned_or_untouched|].
  split; [|split; [|intros scopes paths p h1 Hb1; by apply pack_call_spec]].
  - intros scopes paths vgs rgs h1 y out Hret.
    destruct (pack_returned_spec _ _ _ _ _ _ _ _ _ _ _ Hb Hret)
      as (before & writes & Htr & Hbefore & Hexit & Hpre & Hok & Hall & _ & _ & Hcol).
    exists before, writes. split; [done|]. split; [done|]. split; [done|].
    split; [done|]. split; [done|]. split; [|done].
    intros Hw. specialize (Hall Hw). apply Hok. by rewrite Hall.
  - intros id Hlt Hid.
    destruct (pack fs fn scope_tree h) as [r h'] eqn:Hpack.
    destruct (pack_phases _ _ _ _ _ _ Hb Hpack)
      as (scopes & pre & mid & writes & out & Hsub & Hroots & _ & _ & _ & _ & _ & _ &
          Hobj & _).
    simpl. apply Hobj; [done|].
    destruct Hid as [Hid|(roots & paths & Hd & Hid)].
    + intros (s & -> & Hs)%list_elem_of_fmap. apply Hid.
      apply list_elem_of_fmap_2. by apply Hsub.
    + by rewrite (Hroots _ _ Hd).
Qed.

Lemma pack_writes_once_witness :
  let fn := simple_payload 42 [(0, [("stats", PlainDict [("mean", PArray [] 6)])])] in
  let out := [[ [("stats", PlainDict [("mean", PArray [] 6)])] ]] in
  pack_payload_returned demo_filters fn [scope_A] demo_heap [scope_A] [(scope_A, [])]
    [[ [("params", FrozenDict [("w", PArray [2] 1)]);
        ("stats", PlainDict [("mean", PArray [] 5)])] ]]
    [[ [("dropout", FoldIn (Key 7) 1)] ]]
    (pack_rng_groups demo_filters [scope_A] demo_heap).2 42 out ∧
  expected_puts [scope_A] out = [EvPutVariable scope_A "stats" "mean" (PArray [] 6)] ∧
  ((∃ scopes paths vgs rgs h1 y out,
      pack_payload_returned demo_filters fn [scope_A] demo_heap
        scopes paths vgs rgs h1 y out) ∨
   (is_ok (pack demo_filters fn [scope_A] demo_heap).1 = false ∧
    (∃ evs, trace (pack demo_filters fn [scope_A] demo_heap).2 = trace demo_heap ++ evs ∧
            Forall (λ ev, ¬ is_put ev) evs) ∧
    ∀ id col, id < next_id demo_heap →
      lookup_collection (pack demo_filters fn [scope_A] demo_heap).2 id col =
        lookup_collection demo_heap id col)) ∧
  (∀ scopes paths vgs rgs h1 y out,
     pack_payload_returned demo_filters fn [scope_A] demo_heap
       scopes paths vgs rgs h1 y out →
     ∃ before writes,
       trace (pack demo_filters fn [scope_A] demo_heap).2 =
         trace demo_heap ++ before ++ writes ∧
       Forall (λ ev, ¬ is_put ev) before ∧
       EvPayloadExit true ∈ before ∧
       writes `prefix_of` expected_puts scopes out ∧
       (is_ok (pack demo_filters fn [scope_A] demo_heap).1 = true →
          (pack demo_filters fn [scope_A] demo_heap).1 = Ok y ∧
          writes = expected_puts scopes out) ∧
       (all_writable demo_heap scopes out →
          (pack demo_filters fn [scope_A] demo_heap).1 = Ok y ∧
          writes = expected_puts scopes out) ∧
       (∀ id col, id < next_id demo_heap →
          ¬ (∃ s groups g c, (s, groups) ∈ zip scopes out ∧ id = scope_id s ∧
                             g ∈ groups ∧ (col, c) ∈ g) →
          lookup_collection (pack demo_filters fn [scope_A] demo_heap).2 id col =
            lookup_collection demo_heap id col)) ∧
  (∀ id, id < next_id demo_heap →
     id ∉ scope_id <$> [scope_A] ∨
     (∃ scopes paths, _dedup_scopes [scope_A] = Ok (scopes, paths) ∧
                      id ∉ scope_id <$> scopes) →
     objects (pack demo_filters fn [scope_A] demo_heap).2 !! id =
       objects demo_heap !! id) ∧
  (∀ scopes paths (p : Payload nat) h1, dom_bounded h1 →
     ∀ id, id < next_id h1 →
       objects (pack_call demo_filters scopes paths p h1).2 !! id = objects h1 !! id).
Proof.
  intros fn out. split; [|split; [reflexivity|]].
  - repeat split; vm_compute; reflexivity.
  - apply (pack_writes_once demo_filters fn [scope_A] demo_heap).
    apply dom_bounded_singleton.
Defined.
(** ** Input-only collections *)

(** A payload that does not go by [repack]: it returns a group of its own
    making. *)
Definition undeclared_payload (variable_groups_xs : list VariableGroups)
    (rng_groups_xs : list RngGroups) : Payload nat :=
  Return 42 [[ [("params", PlainDict [("w", PArray [2] 9)])] ]].

(** C1, as stated, for the payload above: no output filter accepts [params],
    yet the outer scope's [params] has a new value after the call. *)
Lemma pack_writes_back_undeclared :
  in_any_filter (out_variable_filters demo_filters) "params" = false ∧
  lookup_collection demo_heap 0 "params" = Some (PlainDict [("w", PArray [2] 1)]) ∧
  (pack demo_filters undeclared_payload [scope_A] demo_heap).1 = Ok 42 ∧
  lookup_collection (pack demo_filters undeclared_payload [scope_A] demo_heap).2
    0 "params" = Some (PlainDict [("w", PArray [2] 9)]).
Proof. vm_compute. done. Qed.

(** C1, amended: [pack] hands its payload groups in which every collection
    that no output filter accepts is frozen (the call depends on the payload
    at such groups only); and if the payload returns, when it returns, the
    groups a call of [repack] yielded, then after the call, returned or
    raised, every such collection of every scope that existed before has the
    value it had. *)
Theorem pack_input_only_collections {Y} fs
    (fn : list VariableGroups → list RngGroups → Payload Y) scope_tree h :
  dom_bounded h →
  (∀ vgs rgs, returns_repacked (fn vgs rgs)) →
  (∀ scopes h0 variable_groups_xs,
     (pack_variable_groups fs scopes h0).1 = Ok variable_groups_xs →
     input_only_frozen fs variable_groups_xs) ∧
  (∀ fn', (∀ vgs rgs, input_only_frozen fs vgs → fn' vgs rgs = fn vgs rgs) →
          pack fs fn' scope_tree h = pack fs fn scope_tree h) ∧
  (∀ id col, id < next_id h →
     in_any_filter (out_variable_filters fs) col = false →
     lookup_collection (pack fs fn scope_tree h).2 id col = lookup_collection h id col).
Proof.
  intros Hb Hrep. split; [intros ???; apply pack_variable_groups_frozen|].
  split; [intros fn'; apply pack_fn_ext|].
  intros id col Hlt Hcol.
  destruct (pack fs fn scope_tree h) as [r h'] eqn:Hpack.
  destruct (pack_phases _ _ _ _ _ _ Hb Hpack)
    as (scopes & pre & mid & writes & out & _ & _ & _ & _ & _ & _ & _ & Hout & _ & Hfr).
  simpl. apply Hfr; [done|].
  intros (s & groups & g & c & Hz & _ & Hg & Hc).
  destruct Hout as [->|(paths & vgs & rgs & h1 & y & Hrun & _)].
  { rewrite zip_with_nil_r in Hz. by apply elem_of_nil in Hz. }
  apply (run_payload_declared _ _ _ _ (Hrep vgs rgs)) in Hrun.
  apply elem_of_zip_r in Hz.
  rewrite Forall_forall in Hrun. specialize (Hrun _ Hz).
  unfold declared_output in Hrun.
  rewrite Forall_forall in Hrun. specialize (Hrun _ Hg).
  rewrite Forall_forall in Hrun. specialize (Hrun _ Hc) as [Hin _].
  simpl in Hin. congruence.
Qed.

Lemma pack_input_only_collections_witness :
  (∀ scopes h0 variable_groups_xs,
     (pack_variable_groups demo_filters scopes h0).1 = Ok variable_groups_xs →
     input_only_frozen demo_filters variable_groups_xs) ∧
  (∀ fn', (∀ vgs rgs, input_only_frozen demo_filters vgs →
                      fn' vgs rgs = simple_payload 42 [] vgs rgs) →
          pack demo_filters fn' [scope_A] demo_heap =
            pack demo_filters (simple_payload 42 []) [scope_A] demo_heap) ∧
  (∀ id col, id < next_id demo_heap →
     in_any_filter (out_variable_filters demo_filters) col = false →
     lookup_collection (pack demo_filters (simple_payload 42 []) [scope_A] demo_heap).2
       id col = lookup_collection demo_heap id col).
Proof.
  apply (pack_input_only_collections demo_filters (simple_payload 42 [])
           [scope_A] demo_heap).
  - apply dom_bounded_singleton.
  - intros vgs rgs. apply simple_payload_returns_repacked.
Defined.

(** ** The gradient-bearing group of the custom-gradient lift *)


(** The forward pass on the scope of the demonstration: the inner scope
    (object 1) holds [params] frozen, and the outer scope's [params] is as it
    was. *)
Example custom_vjp_forward_demo :
  let '(r, h) :=
    pack (custom_vjp_filters (FName "params")) (custom_vjp_inner true 42 [])
      [scope_A] demo_heap in
  r = Ok 42 ∧
  lookup_collection h 1 "params" = Some (FrozenDict [("w", PArray [2] 1)]) ∧
  lookup_collection h 0 "params" = Some (PlainDict [("w", PArray [2] 1)]).
Proof. vm_compute. done. Qed.
(** ** Broadcast collections in the loop lift *)

(** A broadcast collection the user's function does not touch, through one
    iteration and the deletion after the loop: [params] is fed in frozen,
    [repack] leaves it out, [scanned] puts it back into the broadcast output
    (and not into the carry), and after the loop it is deleted from the groups
    given to the write-back. *)
Example scanned_untouched_broadcast :
  let fs := scan_filters (FName "params") (FName "stats") [] [] [FBool true] in
  let broadcast_vars := [[("params", FrozenDict [("w", PArray [2] 1)])]] in
  let carry_vars := [[("stats", PlainDict [("mean", PArray [] 5)])]] in
  (scanned fs [scope_A] [(scope_A, [])] (λ _ c, mret (c, 0))
     broadcast_vars (carry_vars, 7) [] [[ [("dropout", Key 7)] ]] demo_heap).1 =
    Ok (broadcast_vars, (carry_vars, 7), (0, [])) ∧
  scan_out_vars broadcast_vars carry_vars [] =
    [[ []; [("stats", PlainDict [("mean", PArray [] 5)])] ]].
Proof. vm_compute. done. Qed.


(** * Further properties of the code *)

(** ** De-duplication *)

(** X1: when no handle that has an ancestor among the input is listed twice,
    [_dedup_scopes] returns: the roots are the input scopes without an
    ancestor among the input, each once and in the order in which they are
    first met; there is one path per handle, in the handles' order, and the
    path of a handle is its outermost ancestor among the input (itself when
    it has none) with the names that lead from there down to the handle. *)
Theorem dedup_scopes_result (scopes : list Scope) :
  NoDup (List.filter (has_ancestor_in scopes) scopes) →
  ∃ roots paths,
    _dedup_scopes scopes = Ok (roots, paths) ∧
    roots = List.filter (λ s, negb (has_ancestor_in scopes s)) (ordered_keys scopes) ∧
    NoDup roots ∧
    (∀ s, s ∈ roots ↔ s ∈ scopes ∧ ∀ a, a ∈ ancestors s → a ∉ scopes) ∧
    length paths = length scopes ∧
    ∀ i s, scopes !! i = Some s →
      ∃ path, paths !! i = Some (outermost scopes s, path) ∧
              outermost scopes s ∈ roots ∧
              path_from (outermost scopes s) s = Some path.
Proof.
  intros Hnd. eexists _, _. split; [by apply dedup_scopes_correct|].
  split; [done|].
  assert (Hroots : ∀ s,
    s ∈ List.filter (λ s, negb (has_ancestor_in scopes s)) (ordered_keys scopes) ↔
    s ∈ scopes ∧ ∀ a, a ∈ ancestors s → a ∉ scopes).
  { intros s. rewrite elem_of_filter_bool, elem_of_ordered_keys, negb_true_iff.
    by rewrite has_ancestor_in_false. }
  split; [|split; [done|]].
  { apply NoDup_filter_bool, NoDup_ordered_keys. }
  split; [by rewrite length_fmap|].
  intros i s Hi. pose proof (list_elem_of_lookup_2 _ _ _ Hi) as Hs.
  destruct (outermost_spec scopes s Hs) as (Hin & Hlin & Hno & _).
  exists (rev (names_below (outermost scopes s) s)).
  split; [by rewrite list_lookup_fmap, Hi|].
  split; [|by apply path_from_names_below].
  apply Hroots. split; [done|]. by apply has_ancestor_in_false.
Qed.

Lemma dedup_scopes_result_witness :
  ∃ roots paths,
    _dedup_scopes [scope_C; scope_D; scope_A; scope_A] = Ok (roots, paths) ∧
    roots = List.filter (λ s, negb (has_ancestor_in [scope_C; scope_D; scope_A; scope_A] s))
              (ordered_keys [scope_C; scope_D; scope_A; scope_A]) ∧
    NoDup roots ∧
    (∀ s, s ∈ roots ↔ s ∈ [scope_C; scope_D; scope_A; scope_A] ∧
                      ∀ a, a ∈ ancestors s → a ∉ [scope_C; scope_D; scope_A; scope_A]) ∧
    length paths = length [scope_C; scope_D; scope_A; scope_A] ∧
    ∀ i s, [scope_C; scope_D; scope_A; scope_A] !! i = Some s →
      ∃ path, paths !! i = Some (outermost [scope_C; scope_D; scope_A; scope_A] s, path) ∧
              outermost [scope_C; scope_D; scope_A; scope_A] s ∈ roots ∧
              path_from (outermost [scope_C; scope_D; scope_A; scope_A] s) s = Some path.
Proof.
  apply (dedup_scopes_result [scope_C; scope_D; scope_A; scope_A]).
  vm_compute. apply NoDup_singleton.
Defined.

(** X2: [_dedup_scopes] raises exactly when some handle that has an ancestor
    among the input is listed twice, and what it raises is the [KeyError] of
    line 56 for the first handle so repeated. *)
Theorem dedup_scopes_raises_iff (scopes : list Scope) :
  (is_ok (_dedup_scopes scopes) = false ↔
   ¬ NoDup (List.filter (has_ancestor_in scopes) scopes)) ∧
  (∀ e, _dedup_scopes scopes = Raise e →
     ∃ seen leaf rest,
       scopes = seen ++ leaf :: rest ∧ leaf ∈ seen ∧
       (∃ a, a ∈ ancestors leaf ∧ a ∈ scopes) ∧
       NoDup (List.filter (has_ancestor_in scopes) seen) ∧
       e = KeyError (scope_id leaf)).
Proof.
  assert (Hraise : ¬ NoDup (List.filter (has_ancestor_in scopes) scopes) →
    ∃ seen leaf rest,
       scopes = seen ++ leaf :: rest ∧ leaf ∈ seen ∧
       (∃ a, a ∈ ancestors leaf ∧ a ∈ scopes) ∧
       NoDup (List.filter (has_ancestor_in scopes) seen) ∧
       _dedup_scopes scopes = Raise (KeyError (scope_id leaf))).
  { intros Hnd.
    destruct (first_repeat _ _ Hnd) as (seen & leaf & rest & Heq & Hin & Hp & Hseen).
    exists seen, leaf, rest. split; [done|]. split; [done|].
    split; [by apply has_ancestor_in_true|]. split; [done|].
    by eapply dedup_scopes_repeated. }
  split.
  - split.
    + intros Hfail Hnd. by rewrite (dedup_scopes_correct _ Hnd) in Hfail.
    + intros Hnd. destruct (Hraise Hnd) as (?&?&?&_&_&_&_&->). done.
  - intros e He.
    destruct (decide (NoDup (List.filter (has_ancestor_in scopes) scopes))) as [Hnd|Hnd].
    { by rewrite (dedup_scopes_correct _ Hnd) in He. }
    destruct (Hraise Hnd) as (seen & leaf & rest & ? & ? & ? & ? & He').
    exists seen, leaf, rest. rewrite He' in He. by simplify_eq.
Qed.

(** X3: whenever [_dedup_scopes] returns, the roots are scopes of the input,
    each once; none is an ancestor of another; and every input scope has
    exactly one root in its lineage, the root of its path. *)
Theorem dedup_scopes_roots_independent (scopes roots : list Scope)
    (paths : list (Scope * Path)) :
  _dedup_scopes scopes = Ok (roots, paths) →
  roots ⊆ scopes ∧
  NoDup roots ∧
  (∀ r r', r ∈ roots → r' ∈ roots → r ∉ ancestors r') ∧
  (∀ i s, scopes !! i = Some s →
     ∃ r path, paths !! i = Some (r, path) ∧ r ∈ roots ∧ r ∈ lineage s ∧
               ∀ r', r' ∈ roots → r' ∈ lineage s → r' = r).
Proof.
  intros Hok.
  assert (Hnd : NoDup (List.filter (has_ancestor_in scopes) scopes)).
  { destruct (decide (NoDup (List.filter (has_ancestor_in scopes) scopes)))
      as [Hnd|Hnd]; [done|].
    destruct (first_repeat _ _ Hnd) as (seen & leaf & rest & Heq & Hin & Hp & Hseen).
    by rewrite (dedup_scopes_repeated _ _ _ _ Heq Hin Hseen Hp) in Hok. }
  rewrite (dedup_scopes_correct _ Hnd) in Hok. simplify_eq.
  assert (Hroots : ∀ s,
    s ∈ List.filter (λ s, negb (has_ancestor_in scopes s)) (ordered_keys scopes) ↔
    s ∈ scopes ∧ ∀ a, a ∈ ancestors s → a ∉ scopes).
  { intros s. rewrite elem_of_filter_bool, elem_of_ordered_keys, negb_true_iff.
    by rewrite has_ancestor_in_false. }
  split; [intros s Hs; by apply Hroots in Hs as [? _]|].
  split; [apply NoDup_filter_bool, NoDup_ordered_keys|].
  assert (Hanti : ∀ r r', r ∈ List.filter (λ s, negb (has_ancestor_in scopes s))
                                 (ordered_keys scopes) →
            r' ∈ List.filter (λ s, negb (has_ancestor_in scopes s)) (ordered_keys scopes) →
            r ∉ ancestors r').
  { intros r r' [Hr _]%Hroots [_ Hr']%Hroots Hin. by apply (Hr' r). }
  split; [done|].
  intros i s Hi. pose proof (list_elem_of_lookup_2 _ _ _ Hi) as Hs.
  destruct (outermost_spec scopes s Hs) as (Hin & Hlin & Hno & Hout).
  assert (Hr : outermost scopes s ∈
    List.filter (λ s, negb (has_ancestor_in scopes s)) (ordered_keys scopes)).
  { apply Hroots. split; [done|]. by apply has_ancestor_in_false. }
  exists (outermost scopes s), (rev (names_below (outermost scopes s) s)).
  split; [by rewrite list_lookup_fmap, Hi|]. split; [done|]. split; [done|].
  intros r' Hr' Hlin'.
  pose proof (Hout r' Hlin' (proj1 (proj1 (Hroots r') Hr'))) as Hup.
  rewrite lineage_cons in Hup. apply elem_of_cons in Hup as [Heq|Hup]; [done|].
  by destruct (Hanti _ _ Hr Hr').
Qed.

Lemma dedup_scopes_roots_independent_witness :
  [scope_D; scope_A] ⊆ [scope_C; scope_D; scope_A; scope_B; scope_A] ∧
  NoDup [scope_D; scope_A] ∧
  (∀ r r', r ∈ [scope_D; scope_A] → r' ∈ [scope_D; scope_A] → r ∉ ancestors r') ∧
  (∀ i s, [scope_C; scope_D; scope_A; scope_B; scope_A] !! i = Some s →
     ∃ r path,
       [(scope_A, [Some "b"; Some "c"]); (scope_D, []); (scope_A, []);
        (scope_A, [Some "b"]); (scope_A, [])] !! i = Some (r, path) ∧
       r ∈ [scope_D; scope_A] ∧ r ∈ lineage s ∧
       ∀ r', r' ∈ [scope_D; scope_A] → r' ∈ lineage s → r' = r).
Proof.
  apply (dedup_scopes_roots_independent [scope_C; scope_D; scope_A; scope_B; scope_A]).
  reflexivity.
Defined.
(** ** The pack adapter: failures *)

(** A scope that has outlived the call that made it. *)
Definition stale_heap : Heap :=
  MkHeap {[ 0 := MkScopeState (_variables demo_state) (rngs demo_state)
                   (rng_counters demo_state) (FBool true) false false [] ]} 1 [] [] [].

(** X4: [pack] checks every canonical scope before it does anything else.  If
    de-duplication raises, or a canonical scope is dangling or has outlived
    its trace level, [pack] raises (that exception, respectively one of the
    checks' for a canonical scope) and leaves everything as it was: no rng is
    derived, the payload is not entered, nothing is written. *)
Theorem pack_checks_first {Y} fs (fn : list VariableGroups → list RngGroups → Payload Y)
    scope_tree h :
  (∀ e, _dedup_scopes scope_tree = Raise e → pack fs fn scope_tree h = (Raise e, h)) ∧
  (∀ scopes paths s,
     _dedup_scopes scope_tree = Ok (scopes, paths) →
     s ∈ scopes →
     (∀ st, objects h !! scope_id s = Some st → trace_valid st = false) →
     ∃ s', s' ∈ scopes ∧
       (pack fs fn scope_tree h = (Raise (TraceLevelError (scope_id s')), h) ∨
        pack fs fn scope_tree h = (Raise (InvalidScope (scope_id s')), h))).
Proof.
  split.
  - intros e He. destruct (pack_outcomes fs fn scope_tree h)
      as [(e' & He' & ->)|(scopes & paths & Hd & _)]; [|congruence].
    rewrite He in He'. by simplify_eq.
  - intros scopes paths s Hd Hs Hstale.
    set (check := λ scope : Scope,
           _ ← _validate_trace_level scope; st ← get_state scope;
           mret (group_collections (_variables st) (in_variable_filters fs))).
    assert (Hpure : ∀ a h, (check a h).2 = h).
    { intros a h0. unfold check, mbind, M_bind.
      pose proof (validate_trace_level_heap a h0).
      destruct (_validate_trace_level a h0) as [[[]|?] ?]; simpl in *; subst; [|done].
      pose proof (get_state_heap a h0). by destruct (get_state a h0) as [[?|?] ?]. }
    assert (Hkind : ∀ a e, (check a h).1 = Raise e →
              e = TraceLevelError (scope_id a) ∨ e = InvalidScope (scope_id a)).
    { intros a e. unfold check, _validate_trace_level, mbind, M_bind, get_state.
      destruct (objects h !! scope_id a) as [st|]; simpl; [|intros [= <-]; by right].
      destruct (trace_valid st); simpl; [|intros [= <-]; by left].
      destruct (objects h !! scope_id a); simpl; [done|]. intros [= <-]. by right. }
    assert (Hfail : is_ok (check s h).1 = false).
    { unfold check, _validate_trace_level, mbind, M_bind, get_state.
      destruct (objects h !! scope_id s) as [st|] eqn:Est; simpl; [|done].
      by rewrite (Hstale st eq_refl). }
    destruct (map_M_pure_raises check scopes s h Hpure Hs Hfail)
      as (s' & e & Hs' & He & Hmap).
    exists s'. split; [done|].
    assert (Hpack : pack fs fn scope_tree h = (Raise e, h)).
    { unfold pack, mbind at 1, M_bind at 1, lift_result. rewrite Hd. simpl.
      unfold mbind at 1, M_bind at 1, pack_variable_groups.
      unfold mbind at 1, M_bind at 1. fold check. by rewrite Hmap. }
    rewrite Hpack. destruct (Hkind s' e He) as [->| ->]; [by left | by right].
Qed.

(** A payload that raises. *)
Definition raising_payload (variable_groups_xs : list VariableGroups)
    (rng_groups_xs : list RngGroups) : Payload nat :=
  CallScopeFn variable_groups_xs rng_groups_xs (λ _, Throw (UserError 0)).

(** X5: when the payload raises, [pack] raises the same exception and writes
    nothing back: every variable collection of every scope that existed
    before is as it was, objects other than the canonical scopes are
    untouched, no event of the call is a write, and every inner scope that a
    [scope_fn] call returned has been invalidated after that call.  (A scope
    that [scope_fn] made on the way to a handle and did not return is not
    among them.) *)
Theorem pack_payload_raises {Y} fs
    (fn : list VariableGroups → list RngGroups → Payload Y)
    scope_tree h scopes paths vgs rgs h1 e :
  dom_bounded h →
  _dedup_scopes scope_tree = Ok (scopes, paths) →
  pack_variable_groups fs scopes h = (Ok vgs, h) →
  pack_rng_groups fs scopes h = (Ok rgs, h1) →
  (run_payload fs scopes paths (fn vgs rgs) (payload_start h1)).1 = Raise e →
  (pack fs fn scope_tree h).1 = Raise e ∧
  (∀ id col, id < next_id h →
     lookup_collection (pack fs fn scope_tree h).2 id col = lookup_collection h id col) ∧
  (∀ id, id < next_id h → id ∉ scope_id <$> scopes →
     objects (pack fs fn scope_tree h).2 !! id = objects h !! id) ∧
  ∃ evs, trace (pack fs fn scope_tree h).2 = trace h ++ evs ∧
         Forall (λ ev, ¬ is_put ev) evs ∧ pending evs = [] ∧
         ∀ tr1 hs tr2, evs = tr1 ++ EvScopeFn hs :: tr2 →
           ∀ x, x ∈ hs → EvInvalidate x ∈ tr2.
Proof.
  intros Hb Hd Hvg Hrng Hrun.
  pose proof (effect_pack_rng_groups fs scopes h) as [HoA HcA (pre & HtA & HeA) HnA HbA].
  rewrite Hrng in HoA, HcA, HtA, HnA, HbA. simpl in *. specialize (HbA Hb).
  pose proof (pack_call_spec fs scopes paths (fn vgs rgs) h1 HbA)
    as (HoB & HnB & evs & cell & HtB & HseqB & HpB).
  pose proof (pack_call_result fs scopes paths (fn vgs rgs) h1) as HrB.
  rewrite Hrun in HrB.
  destruct (pack_outcomes fs fn scope_tree h)
    as [(e' & He' & _)|(scopes' & paths' & Hd' & Hrest)]; [congruence|].
  rewrite Hd in Hd'. simplify_eq.
  destruct Hrest as [(e' & Hvg' & _)|(vgs' & Hvg' & Hrest)]; [congruence|].
  rewrite Hvg in Hvg'. simplify_eq.
  destruct Hrest as [(e' & h1' & Hrng' & _)|(rgs' & h1' & Hrng' & Hrest)]; [congruence|].
  rewrite Hrng in Hrng'. simplify_eq.
  destruct Hrest as [(e' & h2 & Hcall & ->)|(y & out & h2 & Hcall & _)];
    [|rewrite Hcall in HrB; done].
  rewrite Hcall in *. simpl in *. simplify_eq.
  split; [done|]. split; [|split].
  - intros id col Hlt. rewrite <- (HcA id col) by tauto.
    unfold lookup_collection. by rewrite HoB by lia.
  - intros id Hlt Hid. rewrite HoB by lia. by apply HoA.
  - exists (pre ++ EvPayloadEnter :: evs ++ EvPayloadExit false :: (EvInvalidate <$> cell)).
    split; [by rewrite HtB, HtA, <- app_assoc|].
    assert (Hpend :
      pending (pre ++ EvPayloadEnter :: evs ++
               EvPayloadExit false :: (EvInvalidate <$> cell)) = []).
    { replace (pre ++ EvPayloadEnter :: evs ++ EvPayloadExit false :: (EvInvalidate <$> cell))
        with ((pre ++ [EvPayloadEnter]) ++
              (evs ++ EvPayloadExit false :: (EvInvalidate <$> cell)) ++ [])
        by (by rewrite app_nil_r, <- app_assoc).
      apply ordered_frame; [|done|by apply sequenced_ordered|done].
      apply Forall_app. split; [|repeat constructor; by intros []].
      eapply Forall_impl; [done|]. by intros ev (s & kind & _ & ->) []. }
    split; [|split; [done|]].
    + apply Forall_app. split.
      * eapply Forall_impl; [done|]. by intros ev (s & kind & _ & ->) [].
      * constructor; [by intros []|]. by apply sequenced_no_put.
    + intros tr1 hs tr2 Heq x Hx. rewrite Heq in Hpend.
      by apply (pending_nil_invalidated tr1 hs tr2 x).
Qed.

Lemma pack_payload_raises_witness :
  (pack demo_filters raising_payload [scope_A] demo_heap).1 = Raise (UserError 0) ∧
  (∀ id col, id < next_id demo_heap →
     lookup_collection (pack demo_filters raising_payload [scope_A] demo_heap).2 id col =
       lookup_collection demo_heap id col) ∧
  (∀ id, id < next_id demo_heap → id ∉ scope_id <$> [scope_A] →
     objects (pack demo_filters raising_payload [scope_A] demo_heap).2 !! id =
       objects demo_heap !! id) ∧
  ∃ evs, trace (pack demo_filters raising_payload [scope_A] demo_heap).2 =
           trace demo_heap ++ evs ∧
         Forall (λ ev, ¬ is_put ev) evs ∧ pending evs = [] ∧
         ∀ tr1 hs tr2, evs = tr1 ++ EvScopeFn hs :: tr2 →
           ∀ x, x ∈ hs → EvInvalidate x ∈ tr2.
Proof.
  apply (pack_payload_raises demo_filters raising_payload [scope_A] demo_heap
           [scope_A] [(scope_A, [])]
           [[ [("params", FrozenDict [("w", PArray [2] 1)]);
               ("stats", PlainDict [("mean", PArray [] 5)])] ]]
           [[ [("dropout", FoldIn (Key 7) 1)] ]]
           (pack_rng_groups demo_filters [scope_A] demo_heap).2
           (UserError 0)).
  - apply dom_bounded_singleton.
  - reflexivity.
  - reflexivity.
  - reflexivity.
  - vm_compute. reflexivity.
Defined.

Example pack_stale_scope :
  pack demo_filters (simple_payload 42 []) [scope_A] stale_heap =
    (Raise (TraceLevelError 0), stale_heap).
Proof. reflexivity. Qed.
(** ** The pack adapter: the variables after the call *)

(** X6: when the payload of a [pack] call has returned the groups [out], the
    writes of the call are the trailing events [writes] of its trace, those
    of the entries of [out] to the canonical scopes in their order, all of
    them when the call returns and the first ones when a write is refused;
    and the value of every variable of every scope that existed before is the
    value it had with these writes replayed in order, the last write to a
    variable giving its value.  So a variable that no write names keeps its
    value, and no variable is ever removed (not even one the payload removed
    from the inner scope). *)
Theorem pack_last_write_wins {Y} fs
    (fn : list VariableGroups → list RngGroups → Payload Y)
    scope_tree h scopes paths vgs rgs h1 y out :
  dom_bounded h →
  pack_payload_returned fs fn scope_tree h scopes paths vgs rgs h1 y out →
  ∃ before writes,
    trace (pack fs fn scope_tree h).2 = trace h ++ before ++ writes ∧
    Forall (λ ev, ¬ is_put ev) before ∧
    writes `prefix_of` expected_puts scopes out ∧
    (is_ok (pack fs fn scope_tree h).1 = true → writes = expected_puts scopes out) ∧
    (∀ id col var, id < next_id h →
       value_at (pack fs fn scope_tree h).2 id col var =
         replay_puts writes id col var (value_at h id col var)) ∧
    (∀ id col var, id < next_id h →
       (∀ s value, EvPutVariable s col var value ∈ writes → scope_id s ≠ id) →
       value_at (pack fs fn scope_tree h).2 id col var = value_at h id col var) ∧
    (∀ id col var, id < next_id h →
       is_Some (value_at h id col var) →
       is_Some (value_at (pack fs fn scope_tree h).2 id col var)).
Proof.
  intros Hb Hret.
  destruct (pack_returned_spec _ _ _ _ _ _ _ _ _ _ _ Hb Hret)
    as (before & writes & Htr & Hbefore & _ & Hpre & Hok & _ & Hval & _ & _).
  exists before, writes. split; [done|]. split; [done|]. split; [done|].
  split; [intros H; by apply Hok|]. split; [done|]. split.
  - intros id col var Hlt Hno. rewrite Hval by done.
    apply replay_puts_untouched. intros s col' var' value Hin [Hid [-> ->]].
    by apply (Hno s value).
  - intros id col var Hlt Hsome. rewrite Hval by done. by apply replay_puts_is_Some.
Qed.

Lemma pack_last_write_wins_witness :
  let fn := simple_payload 42 [(0, [("stats", PlainDict [("mean", PArray [] 6)])])] in
  let out := [[ [("stats", PlainDict [("mean", PArray [] 6)])] ]] in
  expected_puts [scope_A] out = [EvPutVariable scope_A "stats" "mean" (PArray [] 6)] ∧
  ∃ before writes,
    trace (pack demo_filters fn [scope_A] demo_heap).2 =
      trace demo_heap ++ before ++ writes ∧
    Forall (λ ev, ¬ is_put ev) before ∧
    writes `prefix_of` expected_puts [scope_A] out ∧
    (is_ok (pack demo_filters fn [scope_A] demo_heap).1 = true →
       writes = expected_puts [scope_A] out) ∧
    (∀ id col var, id < next_id demo_heap →
       value_at (pack demo_filters fn [scope_A] demo_heap).2 id col var =
         replay_puts writes id col var (value_at demo_heap id col var)) ∧
    (∀ id col var, id < next_id demo_heap →
       (∀ s value, EvPutVariable s col var value ∈ writes → scope_id s ≠ id) →
       value_at (pack demo_filters fn [scope_A] demo_heap).2 id col var =
         value_at demo_heap id col var) ∧
    (∀ id col var, id < next_id demo_heap →
       is_Some (value_at demo_heap id col var) →
       is_Some (value_at (pack demo_filters fn [scope_A] demo_heap).2 id col var)).
Proof.
  intros fn out. split; [reflexivity|].
  apply (pack_last_write_wins demo_filters fn [scope_A] demo_heap
           [scope_A] [(scope_A, [])]
           [[ [("params", FrozenDict [("w", PArray [2] 1)]);
               ("stats", PlainDict [("mean", PArray [] 5)])] ]]
           [[ [("dropout", FoldIn (Key 7) 1)] ]]
           (pack_rng_groups demo_filters [scope_A] demo_heap).2 42 out).
  - apply dom_bounded_singleton.
  - repeat split; vm_compute; reflexivity.
Defined.
(** ** [scope_fn] for one scope *)

(** X7: for one canonical scope handed in as itself, when [scope_fn] returns:
    it returns one handle, a new root scope of the same name; its variables
    are the groups merged in their order (of the groups that name a
    collection the last one gives it), its rngs likewise; it is valid; it
    lets a collection be written exactly when the outer root does and some
    output filter accepts the collection; the scopes of the generation before
    are invalidated, and no other object that existed is touched. *)
Theorem scope_fn_one_scope fs (s : Scope) (variable_groups : VariableGroups)
    (rng_groups : RngGroups) h inner_scope_tree h' :
  scope_fn fs [s] [(s, [])] [variable_groups] [rng_groups] h = (Ok inner_scope_tree, h') →
  let inner_scope := MkScope (next_id h) (name s) None in
  inner_scope_tree = [inner_scope] ∧
  inner_scopes h' = [inner_scope] ∧
  next_id h' = S (next_id h) ∧
  (∃ root_st st,
     objects h !! scope_id (root s) = Some root_st ∧
     objects h' !! next_id h = Some st ∧
     _variables st = foldl update [] variable_groups ∧
     rngs st = foldl update [] rng_groups ∧
     _invalid st = false ∧
     (∀ col, in_filter (mutable st) col =
             in_filter (mutable root_st) col &&
             in_any_filter (out_variable_filters fs) col) ∧
     (Forall (λ g : Variables, NoDup (keys g)) variable_groups →
      ∀ col, get col (_variables st) = last (omap (get col) variable_groups))) ∧
  (∀ id, id ≠ next_id h →
     objects h' !! id =
       (if bool_decide (id ∈ scope_id <$> inner_scopes h) then invalidated else λ st, st)
         <$> objects h !! id).
Proof.
  unfold scope_fn.
  unfold mbind at 1, M_bind at 1, get_heap.
  unfold mbind at 1, M_bind at 1.
  pose proof (for_each_invalidate_run (inner_scopes h) h) as [Hr _].
  pose proof (for_each_invalidate_next (inner_scopes h) h) as Hn.
  pose proof (for_each_invalidate_objects (inner_scopes h) h) as Ho.
  destruct (for_each invalidate (inner_scopes h) h) as [r h1].
  simpl in Hr, Hn, Ho. subst r.
  unfold mbind at 1, M_bind at 1, modify.
  unfold zip3. simpl zip. cbn [for_each].
  unfold mbind, M_bind.
  destruct (get_state (root s) (set_inner_scopes [] h1)) as [[root_st|e] h2] eqn:Eroot;
    [|by intros [=]].
  assert (h2 = set_inner_scopes [] h1 ∧ objects h1 !! scope_id (root s) = Some root_st)
    as [-> Hroot].
  { unfold get_state in Eroot. simpl in Eroot.
    destruct (objects h1 !! _); by simplify_eq. }
  unfold new_scope, _dup_scopes, mapping_get.
  cbn -[update intersect_filters union_filters].
  rewrite bool_decide_eq_true_2 by done. cbn -[update intersect_filters union_filters].
  intros [= <- <-]. cbn -[update intersect_filters union_filters].
  rewrite Hn. split; [done|]. split; [done|]. split; [done|]. split.
  - rewrite Ho in Hroot.
    destruct (objects h !! scope_id (root s)) as [root_st0|] eqn:Eroot0; [|done].
    simpl in Hroot. eexists root_st0, _. split; [done|].
    split; [by rewrite lookup_insert_eq|]. cbn -[update intersect_filters union_filters].
    split; [done|]. split; [done|]. split; [done|]. split.
    + intros col. rewrite in_filter_intersect, in_filter_foldl_union.
      assert (Hmut : mutable root_st = mutable root_st0).
      { destruct (bool_decide _); by simplify_eq. }
      rewrite Hmut. destruct (in_filter (mutable root_st0) col); [|done].
      simpl. by destruct (in_any_filter _ col).
    + intros Hnd col. rewrite get_foldl_update by done.
      by destruct (last _).
  - intros id Hid. rewrite lookup_insert_ne by done. apply Ho.
Qed.

Lemma scope_fn_one_scope_witness :
  let h := demo_heap in
  let variable_groups := [[("params", FrozenDict [("w", PArray [2] 1)])];
                          [("stats", PlainDict [("mean", PArray [] 5)])]] in
  let inner_scope := MkScope (next_id h) (name scope_A) None in
  [MkScope 1 None None] = [inner_scope] ∧
  inner_scopes (scope_fn demo_filters [scope_A] [(scope_A, [])] [variable_groups] [[]] h).2
    = [inner_scope] ∧
  next_id (scope_fn demo_filters [scope_A] [(scope_A, [])] [variable_groups] [[]] h).2
    = S (next_id h) ∧
  (∃ root_st st,
     objects h !! scope_id (root scope_A) = Some root_st ∧
     objects (scope_fn demo_filters [scope_A] [(scope_A, [])] [variable_groups] [[]] h).2
       !! next_id h = Some st ∧
     _variables st = foldl update [] variable_groups ∧
     rngs st = foldl update [] [] ∧
     _invalid st = false ∧
     (∀ col, in_filter (mutable st) col =
             in_filter (mutable root_st) col &&
             in_any_filter (out_variable_filters demo_filters) col) ∧
     (Forall (λ g : Variables, NoDup (keys g)) variable_groups →
      ∀ col, get col (_variables st) = last (omap (get col) variable_groups))) ∧
  (∀ id, id ≠ next_id h →
     objects (scope_fn demo_filters [scope_A] [(scope_A, [])] [variable_groups] [[]] h).2
       !! id =
       (if bool_decide (id ∈ scope_id <$> inner_scopes h) then invalidated else λ st, st)
         <$> objects h !! id).
Proof.
  apply (scope_fn_one_scope demo_filters scope_A
           [[("params", FrozenDict [("w", PArray [2] 1)])];
            [("stats", PlainDict [("mean", PArray [] 5)])]] [] demo_heap
           [MkScope 1 None None]
           (scope_fn demo_filters [scope_A] [(scope_A, [])]
              [[[("params", FrozenDict [("w", PArray [2] 1)])];
                [("stats", PlainDict [("mean", PArray [] 5)])]]] [[]] demo_heap).2).
  reflexivity.
Defined.
(** ** [repack] *)

(** X8: [repack] first de-duplicates the tree it is given and compares the
    paths with those of the call: when they differ it raises
    [AssertionError] and has changed nothing.  When it returns, it returns
    for each inner root, in order, the groups of that root's variables (the
    root's object exists and is within its trace level), and all it has
    changed is the flag of the inner roots, which are now invalid. *)
Theorem repack_reads_and_invalidates fs (paths : list (Scope * Path))
    (inner_scope_tree : list Scope) h :
  (∀ inner_scopes inner_paths,
     _dedup_scopes inner_scope_tree = Ok (inner_scopes, inner_paths) →
     paths.*2 ≠ inner_paths.*2 →
     repack fs paths inner_scope_tree h = (Raise AssertionError, h)) ∧
  (∀ out h',
     repack fs paths inner_scope_tree h = (Ok out, h') →
     ∃ inner_scopes inner_paths,
       _dedup_scopes inner_scope_tree = Ok (inner_scopes, inner_paths) ∧
       paths.*2 = inner_paths.*2 ∧
       Forall2 (repacked fs h) inner_scopes out ∧
       (∀ id, objects h' !! id =
                (if bool_decide (id ∈ scope_id <$> inner_scopes)
                 then invalidated else λ st, st) <$> objects h !! id) ∧
       (∀ x st, x ∈ inner_scopes → objects h' !! scope_id x = Some st →
                _invalid st = true) ∧
       next_id h' = next_id h ∧
       trace h' = trace h ++ (EvInvalidate <$> inner_scopes)).
Proof.
  split.
  - intros inner inner_paths Hd Hne. unfold repack, mbind, M_bind, lift_result.
    rewrite Hd. simpl. by rewrite bool_decide_eq_false_2.
  - intros out h'. unfold repack. unfold mbind at 1, M_bind at 1, lift_result.
    destruct (_dedup_scopes inner_scope_tree) as [[inner inner_paths]|e]; simpl; [|done].
    case_bool_decide as Hpaths; simpl; [|done].
    intros Hloop. apply repack_loop in Hloop as [Hall ->].
    exists inner, inner_paths. split; [done|]. split; [done|]. split; [done|].
    split; [intros id; apply for_each_invalidate_objects|]. split; [|split].
    + intros x st Hx. rewrite for_each_invalidate_objects.
      rewrite bool_decide_eq_true_2 by (by apply list_elem_of_fmap_2).
      destruct (objects h !! scope_id x); by intros [= <-].
    + apply for_each_invalidate_next.
    + apply for_each_invalidate_run.
Qed.

(** [repack] on the tree [scope_fn] has just returned for the scope of the
    demonstration: the mutable collection under its output filter. *)
Example repack_after_scope_fn :
  let h1 := (scope_fn demo_filters [scope_A] [(scope_A, [])]
               [[ [("params", FrozenDict [("w", PArray [2] 1)]);
                   ("stats", PlainDict [("mean", PArray [] 5)])] ]]
               [[]] demo_heap).2 in
  (repack demo_filters [(scope_A, [])] [MkScope 1 None None] h1).1 =
    Ok [[ [("stats", PlainDict [("mean", PArray [] 5)])] ]] ∧
  (repack demo_filters [(scope_A, []); (scope_A, [])] [MkScope 1 None None] h1).1 =
    Raise AssertionError.
Proof. vm_compute. done. Qed.
(** ** The filters and axes of [vmap] and [scan] *)

(** X9: [_split_in_out_axes] sends an axis that is not marked to the input
    and to the output axes, one marked [In] to the input axes only and one
    marked [Out] to the output axes only, unwrapped and in the mapping's
    order; [_unzip2] splits a sequence of pairs into the sequences of their
    first and second members, of equal length (two empty ones for the empty
    sequence), so that zipping them gives the pairs back; and the filters
    [vmap] gives [pack] are the keys so split. *)
Theorem split_in_out_axes_unzip {A} (variable_axes : list (CollectionFilter * InOutAxis A))
    (split_rngs : list (CollectionFilter * bool)) :
  (∀ k a, (k, a) ∈ (_split_in_out_axes variable_axes).1 ↔
          ∃ v, (k, v) ∈ variable_axes ∧ is_Out v = false ∧ a = unpack v) ∧
  (∀ k a, (k, a) ∈ (_split_in_out_axes variable_axes).2 ↔
          ∃ v, (k, v) ∈ variable_axes ∧ is_In v = false ∧ a = unpack v) ∧
  (∀ K V (xs : list (K * V)),
     length (_unzip2 xs).1 = length xs ∧ length (_unzip2 xs).2 = length xs ∧
     zip (_unzip2 xs).1 (_unzip2 xs).2 = xs) ∧
  in_variable_filters (vmap_filters variable_axes split_rngs) =
    (List.filter (λ kv, negb (is_Out kv.2)) variable_axes).*1 ∧
  out_variable_filters (vmap_filters variable_axes split_rngs) =
    (List.filter (λ kv, negb (is_In kv.2)) variable_axes).*1 ∧
  rng_filters (vmap_filters variable_axes split_rngs) = split_rngs.*1.
Proof.
  assert (Hsplit : ∀ (p : InOutAxis A → bool) k a,
    (k, a) ∈ (λ kv : CollectionFilter * InOutAxis A, (kv.1, unpack kv.2)) <$>
               List.filter (λ kv, negb (p kv.2)) variable_axes ↔
    ∃ v, (k, v) ∈ variable_axes ∧ p v = false ∧ a = unpack v).
  { intros p k a. rewrite list_elem_of_fmap. split.
    - intros ([k' v] & [= -> ->] & [Hin Hp]%elem_of_filter_bool). simpl in *.
      exists v. by rewrite negb_true_iff in Hp.
    - intros (v & Hin & Hp & ->). exists (k, v). split; [done|].
      apply elem_of_filter_bool. split; [done|]. simpl. by rewrite Hp. }
  split; [apply Hsplit|]. split; [apply Hsplit|]. split.
  - intros K V xs. rewrite unzip2_eq. simpl. rewrite !length_fmap.
    split; [done|]. split; [done|].
    induction xs as [|[k v] xs IH]; csimpl; [done|]. by rewrite IH.
  - unfold vmap_filters, _split_in_out_axes. rewrite !unzip2_eq. simpl.
    rewrite <- !list_fmap_compose. done.
Qed.

(** ** The loop length of [scan] *)

(** X10: [scan] reads the loop length off the positional arguments only: for
    every subtree of the arguments under an integer axis of [in_axes] the
    size at that axis of the subtree's first leaf, as a set.  Two or more
    lengths fail as inconsistent, listing the set; none, with no explicit
    [length], fails asking for one; one, with no explicit [length], is the
    length; and an explicit [length] is taken whenever the set has at most
    one length, whether that one agrees with it or not. *)
Theorem scan_length_choice (in_axes : AxisTree) (len : option nat) (args : list PyTree)
    (pairs : list (Z * PyTree)) (lengths : list nat) :
  flatten_up_to in_axes (PTuple args) = Ok pairs →
  scan_lengths in_axes args = Ok lengths →
  NoDup lengths ∧
  (∀ d, d ∈ lengths ↔
        ∃ a x leaf rest, (a, x) ∈ pairs ∧ tree_leaves x = leaf :: rest ∧
                         shape_at (shape leaf) a = Ok d) ∧
  (1 < length lengths →
     scan_length in_axes len args = inl (InconsistentScanLengths lengths)) ∧
  (lengths = [] → len = None → scan_length in_axes len args = inl LengthUnspecified) ∧
  (∀ d, lengths = [d] → len = None → scan_length in_axes len args = inr d) ∧
  (∀ n, len = Some n → length lengths ≤ 1 → scan_length in_axes len args = inr n).
Proof.
  intros Hflat Hlengths. unfold scan_length. rewrite Hlengths.
  unfold scan_lengths, tree_axis_sizes in Hlengths. rewrite Hflat in Hlengths.
  simpl in Hlengths.
  destruct (map_result _ pairs) as [sizes|e] eqn:Hmap; simplify_eq/=.
  apply map_result_Ok in Hmap.
  split; [apply NoDup_remove_dups|]. split.
  - intros d. rewrite elem_of_remove_dups, elem_of_concat. split.
    + intros (sz & Hd & [i Hi]%list_elem_of_lookup).
      destruct (Forall2_lookup_r _ _ _ _ _ Hmap Hi) as ([a x] & Hp & Hf).
      apply (find_axis_size_elem _ _ d) in Hf. apply Hf in Hd as (leaf & rest & ? & ?).
      exists a, x, leaf, rest. split; [by eapply list_elem_of_lookup_2|done].
    + intros (a & x & leaf & rest & [i Hi]%list_elem_of_lookup & Hl & Hd).
      destruct (Forall2_lookup_l _ _ _ _ _ Hmap Hi) as (sz & Hsz & Hf).
      exists sz. split; [|by eapply list_elem_of_lookup_2].
      apply (find_axis_size_elem _ _ d) in Hf. apply Hf. eauto.
  - repeat split.
    + intros Hlen. destruct (remove_dups (concat sizes)) as [|? [|? ?]];
        simpl in Hlen; [lia | lia |]. by destruct len.
    + by intros -> ->.
    + by intros d -> ->.
    + intros n -> Hlen. by destruct (remove_dups (concat sizes)) as [|? [|? ?]];
        simpl in Hlen; [| | lia].
Qed.

Lemma scan_length_choice_witness :
  let args := [PArray [3; 2] 0; PArray [7] 1] in
  let lengths := [3] in
  NoDup lengths ∧
  (∀ d, d ∈ lengths ↔
        ∃ a x leaf rest, (a, x) ∈ [(0%Z, PArray [3; 2] 0)] ∧
                         tree_leaves x = leaf :: rest ∧
                         shape_at (shape leaf) a = Ok d) ∧
  (1 < length lengths →
     scan_length (AxTuple [AxInt 0; AxNone]) (Some 5) args =
       inl (InconsistentScanLengths lengths)) ∧
  (lengths = [] → Some 5 = None →
     scan_length (AxTuple [AxInt 0; AxNone]) (Some 5) args = inl LengthUnspecified) ∧
  (∀ d, lengths = [d] → Some 5 = None →
     scan_length (AxTuple [AxInt 0; AxNone]) (Some 5) args = inr d) ∧
  (∀ n, Some 5 = Some n → length lengths ≤ 1 →
     scan_length (AxTuple [AxInt 0; AxNone]) (Some 5) args = inr n).
Proof.
  apply (scan_length_choice (AxTuple [AxInt 0; AxNone]) (Some 5)
           [PArray [3; 2] 0; PArray [7] 1] [(0%Z, PArray [3; 2] 0)] [3]); reflexivity.
Defined.

(** ** [swap_collection] *)

(** X11: for two different names, [swap] puts under each the collection that
    was under the other (an empty one where there was none) and leaves the
    other collections alone; applied twice to a target that has both
    collections it gives the target back, and applied three times it gives
    what it gives applied once. *)
Theorem swap_twice (col_a col_b : string) (target : Variables) :
  col_a ≠ col_b →
  get col_a (swap col_a col_b target) = Some (default (PlainDict []) (get col_b target)) ∧
  get col_b (swap col_a col_b target) = Some (default (PlainDict []) (get col_a target)) ∧
  (∀ col, col ≠ col_a → col ≠ col_b →
     get col (swap col_a col_b target) = get col target) ∧
  (col_a ∈ keys target → col_b ∈ keys target →
     swap col_a col_b (swap col_a col_b target) = target) ∧
  swap col_a col_b (swap col_a col_b (swap col_a col_b target)) =
    swap col_a col_b target.
Proof.
  intros Hne.
  assert (Ha : ∀ t, get col_a (swap col_a col_b t) =
                    Some (default (PlainDict []) (get col_b t))).
  { intros t. unfold swap. apply get_set_eq. }
  assert (Hb : ∀ t, get col_b (swap col_a col_b t) =
                    Some (default (PlainDict []) (get col_a t))).
  { intros t. unfold swap. rewrite get_set_ne by done. apply get_set_eq. }
  assert (Hboth : ∀ t, col_a ∈ keys t → col_b ∈ keys t →
                       swap col_a col_b (swap col_a col_b t) = t).
  { intros t [a Hta]%get_is_Some [b Htb]%get_is_Some.
    unfold swap at 1. rewrite Ha, Hb, Hta, Htb. simpl.
    unfold swap. rewrite Hta, Htb. simpl.
    rewrite (set_comm col_a col_b b a t) by (done || by apply get_is_Some).
    rewrite set_set.
    rewrite <- (set_comm col_a col_b b b t) by (done || by apply get_is_Some).
    rewrite set_set. rewrite (set_get_id col_b b t) by done.
    by apply set_get_id. }
  split; [apply Ha|]. split; [apply Hb|]. split; [|split; [apply Hboth|]].
  - intros col Hca Hcb. unfold swap. by rewrite !get_set_ne.
  - apply Hboth; apply get_is_Some; by rewrite ?Ha, ?Hb.
Qed.

Lemma swap_twice_witness :
  let target := [("params", PlainDict [("w", PArray [2] 1)])] in
  get "params" (swap "params" "stats" target) =
    Some (default (PlainDict []) (get "stats" target)) ∧
  get "stats" (swap "params" "stats" target) =
    Some (default (PlainDict []) (get "params" target)) ∧
  (∀ col, col ≠ "params" → col ≠ "stats" →
     get col (swap "params" "stats" target) = get col target) ∧
  ("params" ∈ keys target → "stats" ∈ keys target →
     swap "params" "stats" (swap "params" "stats" target) = target) ∧
  swap "params" "stats" (swap "params" "stats" (swap "params" "stats" target)) =
    swap "params" "stats" target.
Proof.
  apply (swap_twice "params" "stats" [("params", PlainDict [("w", PArray [2] 1)])]).
  done.
Defined.
(** ** [transform] without [mutable] and [init] *)

(** X12: [transform] with neither [mutable] nor [init] (and so
    [transform_module] without [mutable] on a scope whose target collection
    is there and not empty) hands [scope_fn] the transformed target group
    frozen, gives [pack] no output filter for the target, and returns the
    groups [repack] yielded as they are: after the call, however it ends,
    every collection that the [variables] filter rejects is, in every scope
    that existed before, as it was. *)
Theorem transform_read_only {Y} (value_error : exn)
    (target rngs variables : CollectionFilter)
    (trans_in_fn trans_out_fn : Variables → Variables) (y : Y)
    (user_init user : list (nat * Variables)) (scope_tree : list Scope) h :
  dom_bounded h →
  let fs := transform_filters target false false rngs variables in
  let fn := transform_wrapper value_error trans_in_fn trans_out_fn false false y
              user_init user in
  (∀ col, in_any_filter (out_variable_filters fs) col = in_filter variables col) ∧
  (∀ target_group variables_group rng_groups_xs,
     ∃ k, fn [[target_group; variables_group]] rng_groups_xs =
          CallScopeFn [[freeze_group (trans_in_fn (unfreeze_group target_group));
                        variables_group]] rng_groups_xs k) ∧
  (∀ id col, id < next_id h → in_filter variables col = false →
     lookup_collection (pack fs fn scope_tree h).2 id col = lookup_collection h id col) ∧
  (∀ vs name, transform_module_is_init vs name = false ↔
     ∃ c, get name vs = Some c ∧ items c ≠ []).
Proof.
  intros Hb fs fn.
  assert (Hout : ∀ col, in_any_filter (out_variable_filters fs) col = in_filter variables col).
  { intros col. unfold fs, in_any_filter. simpl. by rewrite orb_false_r. }
  split; [done|]. split; [|split].
  - intros tg vg rgs. unfold fn, transform_wrapper, transform_run. simpl. by eexists.
  - intros id col Hlt Hcol. apply pack_declared_frame; [done| |done|by rewrite Hout].
    intros scopes paths vgs rgs h1 y' out. unfold fn, transform_wrapper.
    destruct vgs as [|[|tg [|vg [|? ?]]] [|? ?]]; try done.
    cbn -[transform_run run_payload].
    apply (transform_run_declared fs scopes paths value_error trans_in_fn trans_out_fn).
  - intros vs name. unfold transform_module_is_init, mem.
    rewrite orb_false_iff, negb_false_iff, bool_decide_eq_true, bool_decide_eq_false.
    rewrite <- get_is_Some. split.
    + intros [[c Hc] Hne]. exists c. by rewrite Hc in Hne.
    + intros (c & Hc & Hne). rewrite Hc. eauto.
Qed.

Lemma transform_read_only_witness :
  let fs := transform_filters (FName "params") false false (FBool true) (FName "stats") in
  let fn := transform_wrapper AssertionError (swap "params" "stats")
              (swap "params" "stats") false false 42 [] [] in
  (∀ col, in_any_filter (out_variable_filters fs) col = in_filter (FName "stats") col) ∧
  (∀ target_group variables_group rng_groups_xs,
     ∃ k, fn [[target_group; variables_group]] rng_groups_xs =
          CallScopeFn [[freeze_group (swap "params" "stats" (unfreeze_group target_group));
                        variables_group]] rng_groups_xs k) ∧
  (∀ id col, id < next_id demo_heap → in_filter (FName "stats") col = false →
     lookup_collection (pack fs fn [scope_A] demo_heap).2 id col =
       lookup_collection demo_heap id col) ∧
  (∀ vs name, transform_module_is_init vs name = false ↔
     ∃ c, get name vs = Some c ∧ items c ≠ []).
Proof.
  apply (transform_read_only AssertionError (FName "params") (FBool true) (FName "stats")
           (swap "params" "stats") (swap "params" "stats") 42 [] [] [scope_A] demo_heap).
  apply dom_bounded_singleton.
Defined.
(** ** De-duplication followed by re-duplication *)

(** X13: when [_dedup_scopes] returns roots and paths for the handles
    [scopes], [_dup_scopes] with these paths against as many fresh root
    scopes (distinct objects, without children yet) returns one scope per
    handle, in the handles' order: the scope stands under the fresh root of
    the handle's root exactly as the handle stands under its root (the same
    child names lead to it), and two of the scopes returned are the same
    scope exactly when the two handles have the same root and path. *)
Theorem dedup_dup_round_trip (scopes roots : list Scope) (paths : list (Scope * Path))
    (fresh : list Scope) h :
  _dedup_scopes scopes = Ok (roots, paths) →
  length fresh = length roots →
  NoDup (scope_id <$> fresh) →
  Forall (λ f, parent f = None ∧ scope_id f < next_id h ∧
               ∃ st, objects h !! scope_id f = Some st ∧ reuse_scopes st = []) fresh →
  ∃ result h',
    _dup_scopes roots fresh paths h = (Ok result, h') ∧
    length result = length scopes ∧
    (∀ i s, scopes !! i = Some s →
       ∃ k r f t path,
         paths !! i = Some (r, path) ∧ roots !! k = Some r ∧ fresh !! k = Some f ∧
         result !! i = Some t ∧ root t = f ∧
         path_from r s = Some path ∧ path_from f t = Some path) ∧
    (∀ i j t t', result !! i = Some t → result !! j = Some t' →
       (t = t' ↔ paths !! i = paths !! j)).
Proof.
  intros Hd Hlen Hids Hfresh.
  pose proof (dedup_scopes_Ok_NoDup _ _ _ Hd) as Hnd.
  rewrite (dedup_scopes_correct _ Hnd) in Hd. injection Hd as Hroots Hpaths.
  assert (Hndr : NoDup roots).
  { rewrite <- Hroots. apply NoDup_filter_bool, NoDup_ordered_keys. }
  assert (Hndf : NoDup fresh) by (by eapply NoDup_fmap_1).
  assert (Hroot_of : ∀ s, s ∈ scopes →
    ∃ k f, roots !! k = Some (outermost scopes s) ∧ fresh !! k = Some f ∧
           mapping_get (zip roots fresh) (outermost scopes s) = Some f ∧ f ∈ fresh).
  { intros s Hs. destruct (outermost_spec scopes s Hs) as (Hin & _ & Hno & _).
    assert (Hr : outermost scopes s ∈ roots).
    { rewrite <- Hroots. apply elem_of_filter_bool. split.
      - by apply elem_of_ordered_keys.
      - by rewrite Hno. }
    apply list_elem_of_lookup in Hr as [k Hk].
    destruct (lookup_lt_is_Some_2 fresh k) as [f Hf].
    { rewrite Hlen. by eapply lookup_lt_Some. }
    exists k, f. split; [done|]. split; [done|].
    split; [by eapply mapping_get_zip | by eapply list_elem_of_lookup_2]. }
  assert (Hok : scope_tree_ok fresh h).
  { split; [done|]. intros t Ht. rewrite Forall_forall in Hfresh.
    destruct (Hfresh t Ht) as (_ & Hlt & st & Hst & Hre).
    exists st. split; [done|]. split; [done|]. rewrite Hre.
    intros nm child Hin. by apply elem_of_nil in Hin. }
  destruct (dup_scopes_tree_ok (zip roots fresh) paths fresh h Hok)
    as (result & h' & T' & Hmap & _ & _ & _ & Hres).
  { rewrite <- Hpaths. apply Forall_fmap, Forall_forall. intros s Hs.
    destruct (Hroot_of s Hs) as (k & f & _ & _ & Hm & Hf). by exists f. }
  exists result, h'. split; [exact Hmap|].
  split; [by rewrite <- (Forall2_length _ _ _ Hres), <- Hpaths, length_fmap|].
  assert (Hroot_t : ∀ f t path, f ∈ fresh → path_from f t = Some path → root t = f).
  { intros f t path Hf Hp. apply root_of_lineage; [by eapply path_from_lineage|].
    rewrite Forall_forall in Hfresh. by destruct (Hfresh f Hf) as (? & _). }
  split.
  - intros i s Hi. pose proof (list_elem_of_lookup_2 _ _ _ Hi) as Hs.
    destruct (Hroot_of s Hs) as (k & f & Hk & Hf & Hm & Hff).
    assert (Hpi : paths !! i = Some (scope_path scopes s)).
    { by rewrite <- Hpaths, list_lookup_fmap, Hi. }
    destruct (Forall2_lookup_l _ _ _ _ _ Hres Hpi) as (t & Ht & f' & Hm' & Hpath & _).
    simpl in Hm', Hpath. rewrite Hm in Hm'. simplify_eq.
    exists k, (outermost scopes s), f', t, (rev (names_below (outermost scopes s) s)).
    split; [done|]. split; [done|]. split; [done|]. split; [done|].
    split; [by eapply Hroot_t|]. split; [|done].
    apply path_from_names_below. by destruct (outermost_spec scopes s Hs) as (_ & ? & _).
  - intros i j t t' Hi Hj.
    destruct (Forall2_lookup_r _ _ _ _ _ Hres Hi) as ([r p] & Hpi & f & Hm & Hp & Hrem).
    destruct (Forall2_lookup_r _ _ _ _ _ Hres Hj) as ([r' p'] & Hpj & f' & Hm' & Hp' & Hrem').
    simpl in *. rewrite Hpi, Hpj.
    apply mapping_get_elem in Hm as Hz. apply mapping_get_elem in Hm' as Hz'.
    apply list_elem_of_lookup in Hz as [k Hk]. apply list_elem_of_lookup in Hz' as [k' Hk'].
    apply lookup_zip_with_Some in Hk as (x & y & [= <- <-] & Hx & Hy).
    apply lookup_zip_with_Some in Hk' as (x' & y' & [= <- <-] & Hx' & Hy').
    pose proof (list_elem_of_lookup_2 _ _ _ Hy) as Hf.
    pose proof (list_elem_of_lookup_2 _ _ _ Hy') as Hf'.
    split.
    + intros <-. assert (f = f') as <-.
      { rewrite <- (Hroot_t f t p Hf Hp). by apply (Hroot_t f' t p'). }
      assert (k = k') as <- by (by eapply NoDup_lookup).
      congruence.
    + intros [= <- <-]. rewrite Hm in Hm'. simplify_eq.
      by eapply remembered_functional.
Qed.

Lemma dedup_dup_round_trip_witness :
  let scopes := [scope_C; scope_D; scope_A; scope_B; scope_A] in
  let roots := [scope_D; scope_A] in
  let paths := [(scope_A, [Some "b"; Some "c"]); (scope_D, []); (scope_A, []);
                (scope_A, [Some "b"]); (scope_A, [])] in
  let fresh := [MkScope 10 None None; MkScope 11 None None] in
  let h := (map_M new_root [scope_D; scope_A] (empty_heap 10)).2 in
  ∃ result h',
    _dup_scopes roots fresh paths h = (Ok result, h') ∧
    length result = length scopes ∧
    (∀ i s, scopes !! i = Some s →
       ∃ k r f t path,
         paths !! i = Some (r, path) ∧ roots !! k = Some r ∧ fresh !! k = Some f ∧
         result !! i = Some t ∧ root t = f ∧
         path_from r s = Some path ∧ path_from f t = Some path) ∧
    (∀ i j t t', result !! i = Some t → result !! j = Some t' →
       (t = t' ↔ paths !! i = paths !! j)).
Proof.
  apply (dedup_dup_round_trip [scope_C; scope_D; scope_A; scope_B; scope_A]
           [scope_D; scope_A]
           [(scope_A, [Some "b"; Some "c"]); (scope_D, []); (scope_A, []);
            (scope_A, [Some "b"]); (scope_A, [])]
           [MkScope 10 None None; MkScope 11 None None]
           (map_M new_root [scope_D; scope_A] (empty_heap 10)).2).
  - reflexivity.
  - reflexivity.
  - apply NoDup_cons. split; [|apply NoDup_singleton].
    intros H. apply list_elem_of_singleton in H. discriminate.
  - repeat constructor; simpl; try lia; eexists; split; reflexivity.
Defined.
(** ** [_dup_scopes] on a root it has no scope for *)

(** X14: [_dup_scopes] looks the root of each path up among the original
    scopes that have a scope to stand for them (as far as the shorter of the
    two lists goes); at the first path whose root is not there it raises
    [KeyError], with what the paths before have made left in place. *)
Theorem dup_scopes_missing_root (orig_scopes scopes : list Scope)
    (before rest : list (Scope * Path)) (root : Scope) (path : Path) h result h1 :
  _dup_scopes orig_scopes scopes before h = (Ok result, h1) →
  root ∉ take (length scopes) orig_scopes →
  _dup_scopes orig_scopes scopes (before ++ (root, path) :: rest) h =
    (Raise (KeyError (scope_id root)), h1).
Proof.
  unfold _dup_scopes. intros Hbefore Hroot.
  eapply map_M_app_raise; [done|]. simpl. by rewrite mapping_get_None.
Qed.

Lemma dup_scopes_missing_root_witness :
  _dup_scopes [scope_D; scope_A] [MkScope 10 None None]
    ([(scope_D, [])] ++ (scope_A, [Some "b"]) :: [(scope_D, [])])
    (map_M new_root [scope_D] (empty_heap 10)).2 =
    (Raise (KeyError (scope_id scope_A)), (map_M new_root [scope_D] (empty_heap 10)).2).
Proof.
  apply (dup_scopes_missing_root [scope_D; scope_A] [MkScope 10 None None]
           [(scope_D, [])] [(scope_D, [])] scope_A [Some "b"]
           (map_M new_root [scope_D] (empty_heap 10)).2
           [MkScope 10 None None]).
  - reflexivity.
  - simpl. intros H. apply list_elem_of_singleton in H. discriminate.
Defined.
(** ** The groups that reach the body of the loop *)

(** X15: [scan]'s payload transposes the groups [pack] extracted (one tuple
    per scope, the broadcast group, the carry group, then one per scanned
    filter) and [scanned] transposes them back.  With at least one scope the
    broadcast and the carry group are found, each has a group per scope, and
    what [scanned] gives [scope_fn] from them is what [pack] extracted; with
    no scope there is no broadcast group and line 474 raises [IndexError]. *)
Theorem scan_groups_round_trip :
  scan_inputs [] = Raise IndexError ∧
  ∀ (variable_groups_xs : list VariableGroups) (n_scan : nat),
    variable_groups_xs ≠ [] →
    Forall (λ groups : VariableGroups, length groups = S (S n_scan))
           variable_groups_xs →
    ∃ broadcast_vars carry_vars scan_vars,
      scan_inputs variable_groups_xs = Ok (broadcast_vars, carry_vars, scan_vars) ∧
      length broadcast_vars = length variable_groups_xs ∧
      length carry_vars = length variable_groups_xs ∧
      (n_scan = 0 → scan_vars = []) ∧
      (n_scan ≠ 0 → length scan_vars = length variable_groups_xs ∧
                    Forall (λ groups, length groups = n_scan) scan_vars) ∧
      zip_star (broadcast_vars :: carry_vars :: zip_star scan_vars) =
        variable_groups_xs.
Proof.
  split; [done|]. intros vgs m Hne Hall.
  destruct (zip_star_spec vgs _ Hne Hall) as [Hlen Hcols].
  pose proof (zip_star_involutive vgs (S (S m)) Hne ltac:(done) Hall) as Hinv.
  unfold scan_inputs.
  destruct (zip_star vgs) as [|b [|c rest]] eqn:Ht; [done..|].
  exists b, c, (zip_star rest).
  assert (Forall (λ col, length col = length vgs) rest) as Hrest.
  { apply Forall_forall. intros col [j Hj]%list_elem_of_lookup.
    by apply (Hcols (S (S j))). }
  assert (length vgs ≠ 0) as Hn by (by destruct vgs).
  simpl in Hlen. assert (length rest = m) as Hm by lia.
  split; [done|]. split; [by apply (Hcols 0)|]. split; [by apply (Hcols 1)|].
  split; [|split].
  - intros ->. by destruct rest.
  - intros Hm0. assert (rest ≠ []) as Hne' by (by destruct rest).
    destruct (zip_star_spec rest _ Hne' Hrest) as [Hl Hc]. split; [done|].
    apply Forall_forall. intros col [j Hj]%list_elem_of_lookup.
    destruct (Hc _ _ Hj) as [-> _]. done.
  - destruct rest as [|r rest]; [done|].
    by rewrite (zip_star_involutive (r :: rest) (length vgs)).
Qed.
